(** * CAPL signal transformer: the substitution engine, its exported batch
      tool and the mapping store, embedded from the TypeScript sources.

    JavaScript strings are sequences of UTF-16 code units.  Every string
    operation the engine uses ([length], [RegExp] matching without the [u]
    flag, [replace], [match]) works code unit by code unit, so a string is
    modelled as a list of code units and a code unit as a number. *)

From Stdlib Require Import Ascii String DecimalString DecimalPos.
From Stdlib Require Import List Bool Arith ZArith NArith Lia.
From Stdlib Require Import Permutation Sorted FinFun.
Import ListNotations.

Set Implicit Arguments.
Set Warnings "-register-all".

(* ------------------------------------------------------------------ *)
(** ** Strings as code unit sequences *)

Definition codeunit := N.
Definition jsstring := list codeunit.

(** A literal of the source text, written as a Rocq string. *)
Definition js (s : string) : jsstring :=
  List.map N_of_ascii (list_ascii_of_string s).

Definition cu_eqb (a b : codeunit) : bool := N.eqb a b.

Fixpoint str_eqb (a b : jsstring) : bool :=
  match a, b with
  | [], [] => true
  | x :: a', y :: b' => cu_eqb x y && str_eqb a' b'
  | _, _ => false
  end.

(** [!s] for a string [s]: only the empty string is falsy. *)
Definition falsy (s : jsstring) : bool :=
  match s with [] => true | _ :: _ => false end.

(** [String.prototype.startsWith]. *)
Fixpoint startsWith (p s : jsstring) : bool :=
  match p, s with
  | [], _ => true
  | x :: p', y :: s' => cu_eqb x y && startsWith p' s'
  | _ :: _, [] => false
  end.

(** [String.prototype.includes]. *)
Fixpoint includes (s p : jsstring) : bool :=
  startsWith p s ||
  match s with
  | [] => false
  | _ :: s' => includes s' p
  end.

Definition cu_dollar : codeunit := 36%N.     (* $ *)
Definition cu_amp : codeunit := 38%N.        (* & *)
Definition cu_quote : codeunit := 39%N.      (* ' *)
Definition cu_backtick : codeunit := 96%N.   (* ` *)
Definition cu_backslash : codeunit := 92%N.  (* \ *)
Definition cu_dot : codeunit := 46%N.        (* . *)

(* ------------------------------------------------------------------ *)
(** ** The JavaScript runtime the engine calls

    Regular expressions are modelled on the fragment the sources use: a
    sequence of one-code-unit atoms.  [Lit c] matches the code unit [c],
    [AnyChar] is the wildcard [.], [Class l] is a character class. *)

Module JS.

Inductive atom : Type :=
| Lit (c : codeunit)
| AnyChar
| Class (members : list codeunit).

Definition regex := list atom.

(** Line terminators, which [.] does not match (no [s] flag). *)
Definition isLineTerminator (c : codeunit) : bool :=
  N.eqb c 10 || N.eqb c 13 || N.eqb c 8232 || N.eqb c 8233.

Definition atomMatches (a : atom) (c : codeunit) : bool :=
  match a with
  | Lit d => cu_eqb d c
  | AnyChar => negb (isLineTerminator c)
  | Class l => existsb (cu_eqb c) l
  end.

(** One match attempt at the start of [s]: the matched text, if any. *)
Fixpoint execAt (re : regex) (s : jsstring) : option jsstring :=
  match re with
  | [] => Some []
  | a :: re' =>
      match s with
      | [] => None
      | c :: s' =>
          if atomMatches a c
          then option_map (cons c) (execAt re' s')
          else None
      end
  end.

(** SyntaxCharacter of the pattern grammar:  ^ $ \ . * + ? ( ) [ ] { } |  *)
Definition syntaxCharacters : list codeunit :=
  js "^$\.*+?()[]{}|".

Definition isSyntaxCharacter (c : codeunit) : bool :=
  existsb (cu_eqb c) syntaxCharacters.

(** [new RegExp(pattern, 'g')] on the modelled fragment: a backslash followed
    by a syntax character is that character taken literally, an unescaped [.]
    is the wildcard, any other non-syntax code unit stands for itself.
    [None] covers every other pattern: those on which the constructor throws
    a SyntaxError (a trailing backslash, an unbalanced parenthesis, a dangling
    quantifier) and those that need operators outside the fragment. *)
Fixpoint RegExp (pattern : jsstring) : option regex :=
  match pattern with
  | [] => Some []
  | c :: rest =>
      if cu_eqb c cu_backslash then
        match rest with
        | d :: rest' =>
            if isSyntaxCharacter d
            then option_map (cons (Lit d)) (RegExp rest')
            else None
        | [] => None
        end
      else if cu_eqb c cu_dot then option_map (cons AnyChar) (RegExp rest)
      else if isSyntaxCharacter c then None
      else option_map (cons (Lit c)) (RegExp rest)
  end.

(** GetSubstitution for a regular expression without capture groups:
    [$$] is a dollar sign, [$&] the matched text, [$`] the text before the
    match, [$'] the text after it; a dollar sign followed by anything else
    (digits included, as there is no group to refer to) stands for itself. *)
Fixpoint getSubstitution (template matched before after : jsstring) : jsstring :=
  match template with
  | [] => []
  | c :: t1 =>
      if cu_eqb c cu_dollar then
        match t1 with
        | d :: t2 =>
            if cu_eqb d cu_dollar then
              cu_dollar :: getSubstitution t2 matched before after
            else if cu_eqb d cu_amp then
              matched ++ getSubstitution t2 matched before after
            else if cu_eqb d cu_backtick then
              before ++ getSubstitution t2 matched before after
            else if cu_eqb d cu_quote then
              after ++ getSubstitution t2 matched before after
            else c :: getSubstitution t1 matched before after
        | [] => [c]
        end
      else c :: getSubstitution t1 matched before after
  end.

(** The scan of a global regular expression over a string, left to right.
    [skip] counts the code units still covered by the last match: the next
    attempt starts after them, so matches never overlap.  An empty match
    (only the empty pattern gives one) advances by one code unit. *)
Fixpoint replaceLoop (re : regex) (template before rest : jsstring) (skip : nat)
  : jsstring :=
  match rest with
  | [] =>
      match skip, execAt re [] with
      | O, Some m => getSubstitution template m before []
      | _, _ => []
      end
  | c :: rest' =>
      match skip with
      | S k => replaceLoop re template (before ++ [c]) rest' k
      | O =>
          match execAt re rest with
          | Some m =>
              getSubstitution template m before (skipn (length m) rest)
                ++ (if falsy m then [c] else [])
                ++ replaceLoop re template (before ++ [c]) rest' (pred (length m))
          | None => c :: replaceLoop re template (before ++ [c]) rest' 0
          end
      end
  end.

(** [str.replace(re, template)] for a regular expression with the [g] flag. *)
Definition replace (re : regex) (template str : jsstring) : jsstring :=
  replaceLoop re template [] str 0.

Fixpoint matchLoop (re : regex) (rest : jsstring) (skip : nat) : list jsstring :=
  match rest with
  | [] =>
      match skip, execAt re [] with
      | O, Some m => [m]
      | _, _ => []
      end
  | c :: rest' =>
      match skip with
      | S k => matchLoop re rest' k
      | O =>
          match execAt re rest with
          | Some m => m :: matchLoop re rest' (pred (length m))
          | None => matchLoop re rest' 0
          end
      end
  end.

(** [str.match(re)] for a regular expression with the [g] flag: the array of
    all matched texts, or [null] ([None]) when there is none. *)
Definition match_ (re : regex) (str : jsstring) : option (list jsstring) :=
  match matchLoop re str 0 with
  | [] => None
  | l => Some l
  end.

(** [Array.prototype.sort(cmp)].  The sort is stable: [x], which stands
    before every element of [l] in the input, goes before the first element
    it need not follow ([cmp x y <= 0]). *)
Fixpoint insertBy {A : Type} (cmp : A -> A -> Z) (x : A) (l : list A) : list A :=
  match l with
  | [] => [x]
  | y :: l' => if (cmp x y <=? 0)%Z then x :: l else y :: insertBy cmp x l'
  end.

Definition sort {A : Type} (cmp : A -> A -> Z) (l : list A) : list A :=
  fold_right (insertBy cmp) [] l.

End JS.

(* ------------------------------------------------------------------ *)
(** ** types.ts *)

Inductive TestMode : Type := HIL | SIL.

Record SignalMapping : Type := mkSignalMapping {
  id : jsstring;
  realSignal : jsstring;
  simSignal : jsstring;
  description : option jsstring
}.

Record TransformationResult : Type := mkResult {
  code : jsstring;
  changes : Z
}.

(* ------------------------------------------------------------------ *)
(** ** utils/transformer.ts *)

Definition strlen (s : jsstring) : Z := Z.of_nat (length s).

(** The regular expression literal [/[.*+?^${}()|[\]\\]/g]. *)
Definition specialChars : JS.regex :=
  [JS.Class (js ".*+?^${}()|[]\")].

(** The replacement template ['\\$&']: a backslash, then the match. *)
Definition escapeTemplate : jsstring := js "\$&".

Definition escapeSource (source : jsstring) : jsstring :=
  JS.replace specialChars escapeTemplate source.

(** [mode === TestMode.SIL ? m.realSignal : m.simSignal] *)
Definition sourceOf (mode : TestMode) (m : SignalMapping) : jsstring :=
  match mode with SIL => realSignal m | HIL => simSignal m end.

(** [mode === TestMode.SIL ? m.simSignal : m.realSignal] *)
Definition targetOf (mode : TestMode) (m : SignalMapping) : jsstring :=
  match mode with SIL => simSignal m | HIL => realSignal m end.

(** The comparator handed to [sort]: [lenB - lenA]. *)
Definition byLengthDesc (mode : TestMode) (a b : SignalMapping) : Z :=
  let lenA := strlen (sourceOf mode a) in
  let lenB := strlen (sourceOf mode b) in
  (lenB - lenA)%Z.

Definition sortedMappings (mode : TestMode) (mappings : list SignalMapping)
  : list SignalMapping :=
  JS.sort (byLengthDesc mode) mappings.

(** The body of the [forEach] callback, on the two variables it updates.
    [None] is a throw of the [RegExp] constructor. *)
Definition applyMapping (mode : TestMode) (map : SignalMapping)
  (st : jsstring * Z) : option (jsstring * Z) :=
  let '(transformedCode, changesCount) := st in
  let source := sourceOf mode map in
  let target := targetOf mode map in
  if falsy source || falsy target then Some st
  else
    let escapedSource := escapeSource source in
    match JS.RegExp escapedSource with
    | None => None
    | Some regex =>
        match JS.match_ regex transformedCode with
        | Some matches =>
            Some (JS.replace regex target transformedCode,
                  (changesCount + Z.of_nat (length matches))%Z)
        | None => Some st
        end
    end.

Fixpoint forEach (mode : TestMode) (l : list SignalMapping)
  (st : jsstring * Z) : option (jsstring * Z) :=
  match l with
  | [] => Some st
  | map :: l' =>
      match applyMapping mode map st with
      | Some st' => forEach mode l' st'
      | None => None
      end
  end.

Definition performLocalTransformation (code0 : jsstring) (mode : TestMode)
  (mappings : list SignalMapping) : option TransformationResult :=
  match forEach mode (sortedMappings mode mappings) (code0, 0%Z) with
  | Some (transformedCode, changesCount) =>
      Some (mkResult transformedCode changesCount)
  | None => None
  end.

(* ------------------------------------------------------------------ *)
(** ** constants.ts: the script of NODE_CLI_TEMPLATE

    The definitions follow the generated file, that is the template after
    the escapes of the template literal are resolved. *)

(** Decimal rendering of a count, as string concatenation renders it. *)
Definition showNat (n : nat) : jsstring :=
  js (NilZero.string_of_uint (Nat.to_uint n)).

Definition showCount (z : Z) : jsstring :=
  js (NilZero.string_of_int (Z.to_int z)).

Module Cli.

(** An element of the mapping array as the script reads it: an object
    parsed from JSON whose fields may be missing.  A field holding [null],
    [false] or [0] is falsy like a missing one; fields holding other
    non-string values are outside this model. *)
Record Mapping : Type := mkMapping {
  id : option jsstring;
  realSignal : option jsstring;
  simSignal : option jsstring;
  description : option jsstring
}.

(** [v || ""] *)
Definition orEmpty (v : option jsstring) : jsstring :=
  match v with
  | Some s => if falsy s then js "" else s
  | None => js ""
  end.

(** [!v] *)
Definition not_ (v : option jsstring) : bool :=
  match v with
  | Some s => falsy s
  | None => true
  end.

(** [const TestMode = { HIL: 'HIL', SIL: 'SIL' }] *)
Definition TestMode_HIL : jsstring := js "HIL".
Definition TestMode_SIL : jsstring := js "SIL".

(** The regular expression literal of the generated file,
    [/[.*+?^\${}()|[\]\\]/g], and the template ['\\$&']. *)
Definition specialChars : JS.regex :=
  [JS.Class (js ".*+?^${}()|[]\")].

Definition escapeTemplate : jsstring := js "\$&".

Definition byLengthDesc (mode : jsstring) (a b : Mapping) : Z :=
  let lenA := if str_eqb mode TestMode_SIL
              then strlen (orEmpty (realSignal a))
              else strlen (orEmpty (simSignal a)) in
  let lenB := if str_eqb mode TestMode_SIL
              then strlen (orEmpty (realSignal b))
              else strlen (orEmpty (simSignal b)) in
  (lenB - lenA)%Z.

Definition applyMapping (mode : jsstring) (map : Mapping)
  (st : jsstring * Z) : option (jsstring * Z) :=
  let '(transformedCode, changesCount) := st in
  let source := if str_eqb mode TestMode_SIL then realSignal map else simSignal map in
  let target := if str_eqb mode TestMode_SIL then simSignal map else realSignal map in
  if not_ source || not_ target then Some st
  else
    match source, target with
    | Some source, Some target =>
        let escapedSource := JS.replace specialChars escapeTemplate source in
        match JS.RegExp escapedSource with
        | None => None
        | Some regex =>
            match JS.match_ regex transformedCode with
            | Some matches =>
                Some (JS.replace regex target transformedCode,
                      (changesCount + Z.of_nat (length matches))%Z)
            | None => Some st
            end
        end
    | _, _ => Some st
    end.

Fixpoint forEach (mode : jsstring) (l : list Mapping)
  (st : jsstring * Z) : option (jsstring * Z) :=
  match l with
  | [] => Some st
  | map :: l' =>
      match applyMapping mode map st with
      | Some st' => forEach mode l' st'
      | None => None
      end
  end.

Definition performTransformation (code0 mode : jsstring)
  (mappings : list Mapping) : option TransformationResult :=
  let sortedMappings := JS.sort (byLengthDesc mode) mappings in
  match forEach mode sortedMappings (code0, 0%Z) with
  | Some (transformedCode, changesCount) =>
      Some (mkResult transformedCode changesCount)
  | None => None
  end.

(** *** Main execution *)

(** [JSON.parse] on the mapping file: it throws with a message, or yields a
    value that is an array of objects or something else. *)
Inductive Parsed : Type :=
| ParseThrows (message : jsstring)
| NotAnArray
| AnArray (elements : list Mapping).

(** What the script asks of Node: the file system and the two built-ins
    whose full definition lies outside the repository. *)
Record World : Type := mkWorld {
  existsSync : jsstring -> bool;
  (** the content, or the message of the error thrown *)
  readFileSync : jsstring -> jsstring + jsstring;
  (** [None] on success, or the message of the error thrown *)
  writeFileSync : jsstring -> jsstring -> option jsstring;
  JSON_parse : jsstring -> Parsed;
  toUpperCase : jsstring -> jsstring
}.

(** What a run leaves behind. *)
Record Run : Type := mkRun {
  stdout : list jsstring;
  stderr : list jsstring;
  written : list (jsstring * jsstring);
  exitCode : Z
}.

Definition usage : list jsstring :=
  [ js "------------------------------------------------";
    js " CAPL Signal Transformer CLI";
    js "------------------------------------------------";
    js " Usage: node capl-transformer.js <input> <output> [options]";
    js " Options:";
    js "   --mode=<HIL|SIL>       Target environment";
    js "   --mapping=<path>       Path to external JSON mapping file" ].

(** [s.split('=')] *)
Fixpoint splitEq (s : jsstring) : list jsstring :=
  match s with
  | [] => [[]]
  | c :: s' =>
      if cu_eqb c 61%N then [] :: splitEq s'
      else
        match splitEq s' with
        | piece :: pieces => (c :: piece) :: pieces
        | [] => [[c]]
        end
  end.

(** [a.split('=')[1]]; the element exists whenever [a] contains [=]. *)
Definition valueOf (a : jsstring) : jsstring :=
  nth 1 (splitEq a) [].

(** The lines printed while the mapping set is resolved, and the mapping
    set in force or the message printed before [process.exit(1)]. *)
Definition resolveMappings (w : World) (embedded : list Mapping)
  (mappingArg : option jsstring)
  : list jsstring * (list Mapping + jsstring) :=
  match mappingArg with
  | Some a =>
      let mappingPath := valueOf a in
      if existsSync w mappingPath then
        let line := js "Loading external mappings from " ++ mappingPath ++ js "..." in
        match readFileSync w mappingPath with
        | inl fileContent =>
            match JSON_parse w fileContent with
            | AnArray l => ([line], inl l)
            | NotAnArray => ([line], inr (js "Mapping file must contain a JSON array."))
            | ParseThrows msg => ([line], inr msg)
            end
        | inr msg => ([line], inr msg)
        end
      else ([], inr (js "Mapping file not found: " ++ mappingPath))
  | None => ([js "Using embedded default mappings."], inl embedded)
  end.

Definition main (w : World) (embedded : list Mapping) (args : list jsstring) : Run :=
  if (length args <? 2)%nat then mkRun usage [] [] 1
  else
    let inputFile := nth 0 args [] in
    let outputFile := nth 1 args [] in
    let modeArg := find (startsWith (js "--mode=")) args in
    let mappingArg := find (startsWith (js "--mapping=")) args in
    let mode := match modeArg with
                | Some a => toUpperCase w (valueOf a)
                | None => js "SIL"
                end in
    match resolveMappings w embedded mappingArg with
    | (out0, inr msg) =>
        mkRun out0 [js "Error loading mapping file: " ++ msg] [] 1
    | (out0, inl activeMappings) =>
        if negb (existsSync w inputFile) then
          mkRun out0 [js "Error: " ++ js "Input file not found: " ++ inputFile] [] 1
        else
          let out1 := out0 ++ [js "Reading " ++ inputFile ++ js "..."] in
          match readFileSync w inputFile with
          | inr msg => mkRun out1 [js "Error: " ++ msg] [] 1
          | inl code0 =>
              let out2 := out1 ++
                [js "Applying " ++ showNat (length activeMappings)
                   ++ js " mapping rules (Mode: " ++ mode ++ js ")..."] in
              match performTransformation code0 mode activeMappings with
              | None =>
                  (* a throw of the RegExp constructor, caught like the
                     others; the message is the engine's *)
                  mkRun out2 [js "Error: " ++ js "Invalid regular expression"] [] 1
              | Some result =>
                  match writeFileSync w outputFile (code result) with
                  | Some msg => mkRun out2 [js "Error: " ++ msg] [] 1
                  | None =>
                      mkRun (out2 ++ [js "Success: Written to " ++ outputFile;
                                      js "Changes made: " ++ showCount (changes result)])
                            [] [(outputFile, code result)] 0
                  end
              end
          end
    end.

End Cli.

(** The typed rules and modes of the interactive tool as the script
    receives them. *)
Definition cliMapping (m : SignalMapping) : Cli.Mapping :=
  Cli.mkMapping (Some (id m)) (Some (realSignal m))
                (Some (simSignal m)) (description m).

Definition cliMode (mode : TestMode) : jsstring :=
  match mode with HIL => Cli.TestMode_HIL | SIL => Cli.TestMode_SIL end.

(* ------------------------------------------------------------------ *)
(** ** Importing a mapping file (App.tsx, components/MappingEditor.tsx)

    The import handlers store what [JSON.parse] returns.  The declared type
    [SignalMapping[]] is erased at run time, so they are modelled on JSON
    values. *)

Module Upload.

(** A parsed JSON value.  The handlers never look inside a number, so an
    integer stands for it.  An object lists its members, a key once. *)
Inductive Json : Type :=
| JNull
| JBool (b : bool)
| JNumber (n : Z)
| JString (s : jsstring)
| JArray (elements : list Json)
| JObject (members : list (jsstring * Json)).

Fixpoint member (key : jsstring) (members : list (jsstring * Json)) : option Json :=
  match members with
  | [] => None
  | (k, v) :: rest => if str_eqb k key then Some v else member key rest
  end.

Definition isString (v : option Json) : bool :=
  match v with Some (JString _) => true | _ => false end.

(** The shape [SignalMapping] of types.ts: an object whose [id],
    [realSignal] and [simSignal] are strings. *)
Definition ruleShaped (j : Json) : bool :=
  match j with
  | JObject ms =>
      isString (member (js "id") ms)
      && isString (member (js "realSignal") ms)
      && isString (member (js "simSignal") ms)
  | _ => false
  end.

(** The part of the application state the upload touches. *)
Record Store : Type := mkStore {
  mappings : list Json;
  terminalLogs : list jsstring
}.

Definition addLog (message : jsstring) (st : Store) : Store :=
  mkStore (mappings st) (terminalLogs st ++ [message]).

Definition setMappings (l : list Json) (st : Store) : Store :=
  mkStore l (terminalLogs st).

(** A chosen file: its name and the outcome of [JSON.parse] on its text,
    [None] when the parser throws. *)
Record File : Type := mkFile {
  name : jsstring;
  parsed : option Json
}.

(** App.tsx, [handleMappingFileUpload]: the [onload] callback. *)
Definition onMappingFileLoad (file : File) (st : Store) : Store :=
  match parsed file with
  | Some json =>
      match json with
      | JArray l =>
          addLog (js "Success: Loaded " ++ showNat (length l)
                    ++ js " mappings from '" ++ name file ++ js "'.")
                 (setMappings l st)
      | _ => addLog (js "Error: Invalid JSON format. Expected an array.") st
      end
  | None => addLog (js "Error: Failed to parse JSON file.") st
  end.

Definition handleMappingFileUpload (file : option File) (st : Store) : Store :=
  match file with
  | None => st
  | Some f => onMappingFileLoad f st
  end.

(** MappingEditor.tsx, [handleFileUpload]: the rules handed to
    [setMappings], and the text of the [alert] if one is raised. *)
Definition handleFileUpload (file : option File) (current : list Json)
  : list Json * option jsstring :=
  match file with
  | None => (current, None)
  | Some f =>
      match parsed f with
      | Some json =>
          match json with
          | JArray l => (l, None)
          | _ => (current, Some (js "Invalid JSON format. Expected an array."))
          end
      | None => (current, Some (js "Failed to parse JSON file."))
      end
  end.

(** MappingEditor.tsx, [handleJsonChange]: the rules handed to
    [setMappings] and the new value of [jsonError].  [thrown] is the
    message of the parser's error. *)
Definition handleJsonChange (outcome : Json + jsstring) (current : list Json)
  (jsonError : option jsstring) : list Json * option jsstring :=
  match outcome with
  | inl json =>
      match json with
      | JArray l => (l, None)
      | _ => (current, Some (js "Root must be an array"))
      end
  | inr thrown => (current, Some thrown)
  end.

End Upload.

(* ------------------------------------------------------------------ *)
(** ** More of the runtime: white space, numbers, case *)

(** WhiteSpace and LineTerminator, which [trim] and [parseInt] strip. *)
Definition isWhiteSpace (c : codeunit) : bool :=
  existsb (N.eqb c)
    [9; 10; 11; 12; 13; 32; 160; 5760; 8232; 8233; 8239; 8287; 12288; 65279]%N
  || ((8192 <=? c)%N && (c <=? 8202)%N).

Fixpoint trimStart (s : jsstring) : jsstring :=
  match s with
  | c :: s' => if isWhiteSpace c then trimStart s' else s
  | [] => []
  end.

Definition trimEnd (s : jsstring) : jsstring := rev (trimStart (rev s)).

(** [String.prototype.trim]. *)
Definition trim (s : jsstring) : jsstring := trimEnd (trimStart s).

(** [s.indexOf(c)] for a single code unit: its first index, or -1. *)
Fixpoint indexOf (c : codeunit) (s : jsstring) : Z :=
  match s with
  | [] => (-1)%Z
  | x :: s' =>
      if cu_eqb x c then 0%Z
      else
        let i := indexOf c s' in
        if (i <? 0)%Z then (-1)%Z else (i + 1)%Z
  end.

(** [s.substring(from, to)] and [s.substring(from)] for indices within the
    string, as the callers pass them. *)
Definition substring (from to : Z) (s : jsstring) : jsstring :=
  firstn (Z.to_nat (to - from)) (skipn (Z.to_nat from) s).

Definition substringFrom (from : Z) (s : jsstring) : jsstring :=
  skipn (Z.to_nat from) s.

Definition isDigit (c : codeunit) : bool := (48 <=? c)%N && (c <=? 57)%N.

(** The value of the longest prefix of decimal digits; [acc] is [None]
    until a digit has been read. *)
Fixpoint parseDigits (s : jsstring) (acc : option N) : option N :=
  match s with
  | c :: s' =>
      if isDigit c
      then parseDigits s' (Some (10 * match acc with Some a => a | None => 0 end
                                 + (c - 48))%N)
      else acc
  | [] => acc
  end.

(** [parseInt(s, 10)]: leading white space is skipped, a sign may follow,
    then the digits count; [None] is NaN.  Numbers are integers here, which
    is exact below 2^53. *)
Definition parseInt10 (s : jsstring) : option Z :=
  let s1 := trimStart s in
  let '(sign, s2) :=
    match s1 with
    | c :: r =>
        if cu_eqb c 45%N then ((-1)%Z, r)
        else if cu_eqb c 43%N then (1%Z, r)
        else (1%Z, s1)
    | [] => (1%Z, s1)
    end in
  match parseDigits s2 None with
  | Some n => Some (sign * Z.of_N n)%Z
  | None => None
  end.

(* ------------------------------------------------------------------ *)
(** ** components/MappingEditor.tsx *)

Module Editor.

(** [keyof SignalMapping] *)
Inductive Field : Type := F_id | F_realSignal | F_simSignal | F_description.

(** [{ ...m, [field]: value }] *)
Definition withField (m : SignalMapping) (field : Field) (value : jsstring)
  : SignalMapping :=
  match field with
  | F_id => mkSignalMapping value (realSignal m) (simSignal m) (description m)
  | F_realSignal => mkSignalMapping (id m) value (simSignal m) (description m)
  | F_simSignal => mkSignalMapping (id m) (realSignal m) value (description m)
  | F_description => mkSignalMapping (id m) (realSignal m) (simSignal m) (Some value)
  end.

(** The callback of [reduce]: the larger of [max] and the numeric id. *)
Definition maxStep (max : Z) (m : SignalMapping) : Z :=
  match parseInt10 (id m) with
  | Some num => if (num >? max)%Z then num else max
  | None => max
  end.

Definition maxId (list : list SignalMapping) : Z :=
  fold_left maxStep list 0%Z.

Definition getNextId (list : list SignalMapping) : jsstring :=
  showCount (maxId list + 1).

Definition handleAdd (mappings : list SignalMapping) : list SignalMapping :=
  mappings ++ [mkSignalMapping (getNextId mappings) (js "") (js "") (Some (js ""))].

Definition handleRemove (id0 : jsstring) (mappings : list SignalMapping)
  : list SignalMapping :=
  filter (fun m => negb (str_eqb (id m) id0)) mappings.

Definition handleChange (id0 : jsstring) (field : Field) (value : jsstring)
  (mappings : list SignalMapping) : list SignalMapping :=
  map (fun m => if str_eqb (id m) id0 then withField m field value else m)
      mappings.

(** The [forEach] of [handleAiSuggest], on [currentMaxId] and
    [newMappings]. *)
Definition suggestStep (st : Z * list SignalMapping) (s : SignalMapping)
  : Z * list SignalMapping :=
  let '(currentMaxId, newMappings) := st in
  if negb (existsb (fun e => str_eqb (realSignal e) (realSignal s)) newMappings)
  then
    let currentMaxId := (currentMaxId + 1)%Z in
    (currentMaxId,
     newMappings ++ [withField s F_id (showCount currentMaxId)])
  else st.

(** [handleAiSuggest] once the suggestions have arrived: the rules handed
    to [setMappings], or the rules as they are when nothing is suggested. *)
Definition handleAiSuggest (suggestions mappings : list SignalMapping)
  : list SignalMapping :=
  if (0 <? length suggestions)%nat then
    snd (fold_left suggestStep suggestions (maxId mappings, mappings))
  else mappings.

End Editor.

(* ------------------------------------------------------------------ *)
(** ** App.tsx: state, handlers and the command parser *)

Module App.

Record State : Type := mkState {
  inputCode : jsstring;
  outputCode : jsstring;
  mode : TestMode;
  mappings : list SignalMapping;
  isAiProcessing : bool;
  changeCount : option Z;
  isReadmeOpen : bool;
  terminalLogs : list jsstring
}.

(** What a handler asks of the browser.  [SaveScript] stands for the
    download of the script that [handleExportCLI] builds: it records the file
    name and the rules handed to [JSON.stringify], not the text of the
    script.  That text is NODE_CLI_TEMPLATE with the serialised rules spliced
    in by [String.prototype.replace], which expands the dollar patterns of
    the rule fields on the way; it is not modelled, and no property below
    depends on it. *)
Inductive Effect : Type :=
| OpenMappingSelector
| OpenSourceSelector
| SaveFile (filename content : jsstring)
| SaveScript (filename : jsstring) (stringified : list SignalMapping)
| Alert (message : jsstring).

Definition addLog (message : jsstring) (st : State) : State :=
  mkState (inputCode st) (outputCode st) (mode st) (mappings st)
          (isAiProcessing st) (changeCount st) (isReadmeOpen st)
          (terminalLogs st ++ [message]).

Definition setInputCode (v : jsstring) (st : State) : State :=
  mkState v (outputCode st) (mode st) (mappings st)
          (isAiProcessing st) (changeCount st) (isReadmeOpen st)
          (terminalLogs st).

Definition setOutputCode (v : jsstring) (st : State) : State :=
  mkState (inputCode st) v (mode st) (mappings st)
          (isAiProcessing st) (changeCount st) (isReadmeOpen st)
          (terminalLogs st).

Definition setMode (v : TestMode) (st : State) : State :=
  mkState (inputCode st) (outputCode st) v (mappings st)
          (isAiProcessing st) (changeCount st) (isReadmeOpen st)
          (terminalLogs st).

Definition setChangeCount (v : option Z) (st : State) : State :=
  mkState (inputCode st) (outputCode st) (mode st) (mappings st)
          (isAiProcessing st) v (isReadmeOpen st)
          (terminalLogs st).

Definition setIsAiProcessing (v : bool) (st : State) : State :=
  mkState (inputCode st) (outputCode st) (mode st) (mappings st)
          v (changeCount st) (isReadmeOpen st)
          (terminalLogs st).

Definition setIsReadmeOpen (v : bool) (st : State) : State :=
  mkState (inputCode st) (outputCode st) (mode st) (mappings st)
          (isAiProcessing st) (changeCount st) v
          (terminalLogs st).

Definition modeText (m : TestMode) : jsstring :=
  match m with HIL => js "HIL" | SIL => js "SIL" end.

(** [handleLocalTransform]; the engine's result is read from the state the
    handler was created in. *)
Definition handleLocalTransform (logToTerminal : bool) (st : State) : State :=
  match performLocalTransformation (inputCode st) (mode st) (mappings st) with
  | Some result =>
      let st1 := setChangeCount (Some (changes result))
                   (setOutputCode (code result) st) in
      if logToTerminal
      then addLog (js "Success: Transformation complete. "
                     ++ showCount (changes result) ++ js " replacements made.") st1
      else st1
  | None => st
  end.

(** The effect that re-runs the transformation in silence after a render
    in which the source text or the mode has changed.  (The rules are the
    third dependency; no handler below replaces them.) *)
Definition autoTransform (before after : State) : State :=
  if negb (str_eqb (inputCode before) (inputCode after))
     || negb (str_eqb (modeText (mode before)) (modeText (mode after)))
  then
    if negb (isAiProcessing after) then handleLocalTransform false after
    else after
  else after.

(** [handleAiTransform] with what the service answered: the new text, or
    [None] when the call failed. *)
Definition handleAiTransform (answer : option jsstring) (st : State)
  : State * list Effect :=
  let st1 := addLog (js "Info: Starting AI Code Transformation...")
               (setIsAiProcessing true st) in
  match answer with
  | Some transformed =>
      (setIsAiProcessing false
         (addLog (js "Success: AI Transformation complete.")
            (setChangeCount None (setOutputCode transformed st1))), [])
  | None =>
      (setIsAiProcessing false
         (addLog (js "Error: AI Transformation failed.") st1),
       [Alert (js "AI Transformation failed. Check console.")])
  end.

(** [handleFileUpload]: the [onload] callback on the name and the text of
    the chosen file. *)
Definition handleFileUpload (fileName content : jsstring) (st : State) : State :=
  if falsy content then st
  else addLog (js "Success: Loaded file '" ++ fileName ++ js "' ("
                 ++ showNat (length content) ++ js " bytes).")
              (setInputCode content st).

Definition handleDownload (st : State) : State * list Effect :=
  if falsy (outputCode st) then
    (addLog (js "Error: No output code to download.") st, [])
  else
    let filename := js "transformed_"
                      ++ (match mode st with SIL => js "SIL" | HIL => js "HIL" end)
                      ++ js ".can" in
    (addLog (js "Success: Downloaded '" ++ filename ++ js "'.") st,
     [SaveFile filename (outputCode st)]).

Definition handleExportCLI (st : State) : State * list Effect :=
  (addLog (js "Success: Exported 'capl-transformer.js' for CI/CD usage.") st,
   [SaveScript (js "capl-transformer.js") (mappings st)]).

Definition handleClear (st : State) : State :=
  addLog (js "Info: Source code cleared.") (setInputCode (js "") st).

Definition handleSwap (st : State) : State :=
  if falsy (outputCode st) then
    addLog (js "Error: No output code available to swap.") st
  else
    let newMode := match mode st with SIL => HIL | HIL => SIL end in
    addLog (js "Success: Swapped Output to Source. Switched mode to "
              ++ modeText newMode ++ js ".")
      (setMode newMode (setOutputCode (js "") (setInputCode (outputCode st) st))).

(** [arg.replace(/^"|"$/g, '')]: a double quote at the start and one at the
    end are dropped. *)
Definition dropLastQuote (s : jsstring) : jsstring :=
  match rev s with
  | c :: r => if cu_eqb c 34%N then rev r else s
  | [] => s
  end.

Definition stripQuotes (s : jsstring) : jsstring :=
  match s with
  | c :: r => if cu_eqb c 34%N then dropLastQuote r else dropLastQuote s
  | [] => []
  end.

Definition helpText : jsstring :=
  js "Available commands:" ++ [10%N]
  ++ js "  upload [mapping] - Load file (code or json)" ++ [10%N]
  ++ js "  run              - Execute transform" ++ [10%N]
  ++ js "  download         - Save output" ++ [10%N]
  ++ js "  export           - Export CI/CD CLI Tool" ++ [10%N]
  ++ js "  swap             - Output -> Input & Switch Mode" ++ [10%N]
  ++ js "  mode [h/s]       - Set HIL or SIL" ++ [10%N]
  ++ js "  clear            - Clear source" ++ [10%N]
  ++ js "  docs             - Open Manual".

(** The command token and the argument of a line. *)
Definition parseLine (toLowerCase : jsstring -> jsstring) (cmdStr : jsstring)
  : jsstring * jsstring :=
  let trimmed := trim cmdStr in
  let firstSpaceIndex := indexOf 32%N trimmed in
  if (firstSpaceIndex =? -1)%Z then (toLowerCase trimmed, js "")
  else (toLowerCase (substring 0 firstSpaceIndex trimmed),
        trim (substringFrom (firstSpaceIndex + 1) trimmed)).

Definition isOneOf (cmd : jsstring) (names : list string) : bool :=
  existsb (fun n => str_eqb cmd (js n)) names.

(** [handleCommand].  [toLowerCase] is the built-in of that name. *)
Definition handleCommand (toLowerCase : jsstring -> jsstring)
  (cmdStr : jsstring) (st0 : State) : State * list Effect :=
  let st := addLog (js "> " ++ cmdStr) st0 in
  let '(cmd, arg) := parseLine toLowerCase cmdStr in
  if isOneOf cmd ["help"; "?"]%string then (addLog helpText st, [])
  else if isOneOf cmd ["upload"; "load"]%string then
    if negb (falsy arg)
       && (includes arg (js "map") || includes arg (js "rule")
           || includes arg (js "json"))
    then (addLog (js "Action: Opening mapping file selector (.json)...") st,
          [OpenMappingSelector])
    else
      let st1 :=
        if negb (falsy arg) then
          let cleanArg := stripQuotes arg in
          let st' := if negb (includes cleanArg (js "map"))
                     then addLog (js "Info: Request to load code file '"
                                    ++ cleanArg ++ js "' received.") st
                     else st in
          addLog (js "Info: Security restriction: Browser cannot access local paths automatically.") st'
        else st in
      (addLog (js "Action: Opening source code file selector...") st1,
       [OpenSourceSelector])
  else if isOneOf cmd ["run"; "transform"]%string then
    (handleLocalTransform true st, [])
  else if isOneOf cmd ["download"; "save"]%string then handleDownload st
  else if isOneOf cmd ["export"; "batch"; "cli"]%string then handleExportCLI st
  else if isOneOf cmd ["swap"; "replace"]%string then (handleSwap st, [])
  else if isOneOf cmd ["clear"]%string then (handleClear st, [])
  else if isOneOf cmd ["mode"]%string then
    if str_eqb (toLowerCase arg) (js "hil") || str_eqb (toLowerCase arg) (js "h")
    then (addLog (js "Info: Mode set to HIL (SysVar -> Real)") (setMode HIL st), [])
    else if str_eqb (toLowerCase arg) (js "sil") || str_eqb (toLowerCase arg) (js "s")
    then (addLog (js "Info: Mode set to SIL (Real -> SysVar)") (setMode SIL st), [])
    else (addLog (js "Error: Usage 'mode hil' or 'mode sil'") st, [])
  else if isOneOf cmd ["readme"; "docs"; "man"]%string then
    (addLog (js "Action: Opened documentation.") (setIsReadmeOpen true st), [])
  else
    (addLog (js "Error: Unknown command '" ++ cmd ++ js "'. Type 'help' for list.") st,
     []).

(** A command, then the effect of the render that follows it. *)
Definition runCommand (toLowerCase : jsstring -> jsstring)
  (cmdStr : jsstring) (st : State) : State * list Effect :=
  let '(st', effs) := handleCommand toLowerCase cmdStr st in
  (autoTransform st st', effs).

End App.

(* ------------------------------------------------------------------ *)
(** ** components/Terminal.tsx *)

(** [handleKeyDown] on Enter: a line that is blank after trimming is
    ignored; otherwise the trimmed line goes to [onCommand] and the input
    field is emptied.  The result is the new input field and the line
    handed over, if any. *)
Definition terminalEnter (input : jsstring) : jsstring * option jsstring :=
  if negb (falsy (trim input)) then (js "", Some (trim input))
  else (input, None).

(* ------------------------------------------------------------------ *)
(** ** Notions used to state the properties *)

(** A rule written with string literals. *)
Definition rule (i r s : string) : SignalMapping :=
  mkSignalMapping (js i) (js r) (js s) None.

(** The length of the field a rule is searched by. *)
Definition patternLength (mode : TestMode) (m : SignalMapping) : nat :=
  length (sourceOf mode m).

(** [output] lists the rules of [input] by descending pattern length, rules
    of equal length in the order they have in [input]. *)
Definition stableDescending (mode : TestMode)
  (input output : list SignalMapping) : Prop :=
  StronglySorted (fun a b => patternLength mode b <= patternLength mode a) output
  /\ forall k, filter (fun m => patternLength mode m =? k) output
               = filter (fun m => patternLength mode m =? k) input.

(** The rules applied one after the other in the order given. *)
Definition applyInOrder (mode : TestMode) (order : list SignalMapping)
  (c : jsstring) : option TransformationResult :=
  match forEach mode order (c, 0%Z) with
  | Some (x, n) => Some (mkResult x n)
  | None => None
  end.

(** [p] occurs in [x] as a substring. *)
Definition occursIn (p x : jsstring) : Prop :=
  exists before after, x = before ++ p ++ after.

(** A replacement text in which no dollar sign starts a substitution
    pattern: no [$$], [$&], [$`] or [$']. *)
Fixpoint plainTemplate (t : jsstring) : bool :=
  match t with
  | [] => true
  | c :: t1 =>
      if cu_eqb c cu_dollar then
        match t1 with
        | d :: _ =>
            negb (cu_eqb d cu_dollar || cu_eqb d cu_amp
                  || cu_eqb d cu_backtick || cu_eqb d cu_quote)
            && plainTemplate t1
        | [] => true
        end
      else plainTemplate t1
  end.

(** Replacement and count for a pattern that is read literally. *)
Definition replaceLit (p t x : jsstring) : jsstring :=
  JS.replace (map JS.Lit p) t x.

Definition countLit (p x : jsstring) : nat :=
  length (JS.matchLoop (map JS.Lit p) x 0).

(** The rules the callback does not skip: both fields non-empty. *)
Definition isActive (m : SignalMapping) : bool :=
  negb (falsy (realSignal m) || falsy (simSignal m)).

(** The arguments of a command line that are not options. *)
Definition positional (args : list jsstring) : list jsstring :=
  filter (fun a => negb (startsWith (js "--") a)) args.

(** [toUpperCase] on the letters a to z; other code units are kept. *)
Definition asciiUpperCase (s : jsstring) : jsstring :=
  map (fun c => if (97 <=? c)%N && (c <=? 122)%N then (c - 32)%N else c) s.

(** A bench on which [input.can] is the one file there is. *)
Definition benchWorld : Cli.World :=
  Cli.mkWorld
    (fun path => str_eqb path (js "input.can"))
    (fun path => if str_eqb path (js "input.can")
                 then inl (js "$EngineSpeed = 0;")
                 else inr (js "ENOENT: no such file or directory"))
    (fun _ _ => None)
    (fun _ => Cli.ParseThrows (js "Unexpected end of JSON input"))
    asciiUpperCase.

(** DEFAULT_MAPPINGS of constants.ts. *)
Definition DEFAULT_MAPPINGS : list SignalMapping :=
  [ mkSignalMapping (js "1") (js "$EngineSpeed") (js "sysvar::Engine::Speed")
      (Some (js "Engine Speed RPM"));
    mkSignalMapping (js "2") (js "EngineMsg.Torque") (js "sysvar::Powertrain::Torque")
      (Some (js "Engine Torque Nm"));
    mkSignalMapping (js "3") (js "output(msgEngine)")
      (js "sysvar::Bus::InjectFrame(msgEngine)")
      (Some (js "Output function replacement")) ].

(** The other mode, as [handleSwap] computes it. *)
Definition opposite (mode : TestMode) : TestMode :=
  match mode with SIL => HIL | HIL => SIL end.

(** Transforming, then transforming the result in the other mode. *)
Definition roundTrip (mode : TestMode) (mappings : list SignalMapping)
  (t : jsstring) : option jsstring :=
  match performLocalTransformation t mode mappings with
  | Some there =>
      match performLocalTransformation (code there) (opposite mode) mappings with
      | Some back => Some (code back)
      | None => None
      end
  | None => None
  end.

(** The premise of the round trip as the specification words it: no
    pattern of a rule occurs in the pattern of another rule (a prefix is an
    occurrence), and no replacement holds the pattern of another rule; for
    the patterns and replacements of both modes. *)
Definition independentRules (mappings : list SignalMapping) : Prop :=
  forall i j ri rj, i <> j ->
    nth_error mappings i = Some ri -> nth_error mappings j = Some rj ->
    ~ occursIn (realSignal ri) (realSignal rj)
    /\ ~ occursIn (simSignal ri) (simSignal rj)
    /\ ~ occursIn (realSignal ri) (simSignal rj)
    /\ ~ occursIn (simSignal ri) (realSignal rj).

(** A text in which some stretches are marked as replaced rules: a code
    unit of the text, or a rule given by its pattern and its replacement. *)
Inductive segment : Type :=
| Ch (c : codeunit)
| Tok (s t : jsstring).

(** The text with the marked rules written as their replacements, and as
    their patterns. *)
Definition renderT (w : list segment) : jsstring :=
  flat_map (fun g => match g with Ch c => [c] | Tok _ t => t end) w.

Definition renderS (w : list segment) : jsstring :=
  flat_map (fun g => match g with Ch c => [c] | Tok s _ => s end) w.

(** Unmarking the rules whose replacement is [t]. *)
Definition expand (t : jsstring) (w : list segment) : list segment :=
  flat_map (fun g => match g with
                     | Ch c => [Ch c]
                     | Tok s' t' => if str_eqb t' t then map Ch s' else [Tok s' t']
                     end) w.

(** Literal replacements one after the other, pattern to replacement and
    replacement to pattern. *)
Fixpoint substAll (l : list (jsstring * jsstring)) (x : jsstring) : jsstring :=
  match l with
  | [] => x
  | (s, t) :: l' => substAll l' (replaceLit s t x)
  end.

Fixpoint unsubstAll (l : list (jsstring * jsstring)) (x : jsstring) : jsstring :=
  match l with
  | [] => x
  | (s, t) :: l' => unsubstAll l' (replaceLit t s x)
  end.

Definition pairOf (mode : TestMode) (m : SignalMapping) : jsstring * jsstring :=
  (sourceOf mode m, targetOf mode m).

(** The rules that take part in a transformation, as pairs of the pattern
    searched and the replacement written in the given mode. *)
Definition activePairs (mode : TestMode) (mappings : list SignalMapping)
  : list (jsstring * jsstring) :=
  map (pairOf mode) (filter isActive mappings).

(** The fields of a list of pairs, patterns and replacements alike. *)
Definition fieldsOf (P : list (jsstring * jsstring)) : list jsstring :=
  flat_map (fun p => [fst p; snd p]) P.

Definition pair_eqb (p q : jsstring * jsstring) : bool :=
  str_eqb (fst p) (fst q) && str_eqb (snd p) (snd q).

(** No two pairs are the same. *)
Fixpoint distinct (P : list (jsstring * jsstring)) : bool :=
  match P with
  | [] => true
  | p :: P' => negb (existsb (pair_eqb p) P') && distinct P'
  end.

(** No field of a pair lies within the replacement of another pair, and no
    replacement within the pattern of another pair.  [startsWith b (skipn k a)]
    says that [b] lies within [a] from offset [k] on. *)
Definition nestedNowhere (P : list (jsstring * jsstring)) : bool :=
  forallb (fun outer =>
    forallb (fun inner =>
      pair_eqb inner outer
      || forallb (fun k =>
           negb (startsWith (snd inner) (skipn k (snd outer)))
           && negb (startsWith (fst inner) (skipn k (snd outer))))
           (seq 0 (length (snd outer)))
         && forallb (fun k => negb (startsWith (snd outer) (skipn k (fst inner))))
              (seq 0 (length (fst inner))))
      P)
    P.

(** The code unit of [u] that follows its beginning [v], when [u] starts
    with [v] and is longer. *)
Definition unitAfter (v u : jsstring) : option codeunit :=
  if startsWith v u then nth_error u (length v) else None.

(** Where a proper end of a field is a proper beginning of a replacement:
    the part of the field before that end, followed by the pattern of the
    replacement. *)
Definition runningIn (P : list (jsstring * jsstring)) : list jsstring :=
  flat_map (fun u =>
    flat_map (fun k =>
      flat_map (fun p =>
        match unitAfter (skipn k u) (snd p) with
        | Some _ => [firstn k u ++ fst p]
        | None => []
        end) P)
      (seq 1 (length u - 1)))
    (fieldsOf P).

(** Where a proper end of a replacement is a proper beginning of a field:
    the pattern of the replacement followed by the next code unit of the
    field, and followed by the pattern of each rule whose replacement starts
    with that code unit. *)
Definition runningOut (P : list (jsstring * jsstring)) : list jsstring :=
  flat_map (fun p =>
    flat_map (fun k =>
      flat_map (fun u =>
        match unitAfter (skipn k (snd p)) u with
        | Some d =>
            (fst p ++ [d])
            :: map (fun q => fst p ++ fst q)
                 (filter (fun q => startsWith [d] (snd q)) P)
        | None => []
        end) (fieldsOf P))
      (seq 1 (length (snd p) - 1)))
    P.

(** The conditions of the round trip.  First, no field of a rule that
    takes part holds a dollar pattern. *)
Definition plainRules (mappings : list SignalMapping) : bool :=
  forallb (fun r => plainTemplate (realSignal r) && plainTemplate (simSignal r))
    (filter isActive mappings).

(** Second, no two rules that take part have the same pattern and the same
    replacement, no field of one lies within the replacement of another,
    and no replacement of one within the pattern of another. *)
Definition notNested (mode : TestMode) (mappings : list SignalMapping) : bool :=
  distinct (activePairs mode mappings)
  && nestedNowhere (activePairs mode mappings).

(** Third, the source holds none of these texts: the replacements, and the
    texts of [runningIn] and [runningOut], at which a replacement written
    next to the rest of the source would read as another field. *)
Definition hazards (mode : TestMode) (mappings : list SignalMapping)
  : list jsstring :=
  map snd (activePairs mode mappings)
  ++ runningIn (activePairs mode mappings)
  ++ runningOut (activePairs mode mappings).

(** The text [t] holds none of the texts of [l]. *)
Definition holdsNone (t : jsstring) (l : list jsstring) : bool :=
  forallb (fun z => negb (includes t z)) l.

(** A marked text whose marked rules are among [L]. *)
Definition marked (L : list (jsstring * jsstring)) (w : list segment) : Prop :=
  forall g, In g w ->
    match g with
    | Ch _ => True
    | Tok s t => In (s, t) L
    end.

(** The presets 'Body Control' and 'ADAS Sensors' of MAPPING_PRESETS in
    constants.ts; the preset 'Powertrain (Default)' is [DEFAULT_MAPPINGS]. *)
Definition BODY_CONTROL : list SignalMapping :=
  [ mkSignalMapping (js "b1") (js "$DoorStatus") (js "sysvar::Body::DoorState")
      (Some (js "Door Open/Close"));
    mkSignalMapping (js "b2") (js "Lights.Headlight")
      (js "sysvar::Lights::HeadlightOn") (Some (js "Headlights"));
    mkSignalMapping (js "b3") (js "$WindowPos")
      (js "sysvar::Body::WindowPosition") (Some (js "Window Position"));
    mkSignalMapping (js "b4") (js "output(msgBody)")
      (js "sysvar::Bus::InjectFrame(msgBody)") (Some (js "Output replacement")) ].

Definition ADAS_SENSORS : list SignalMapping :=
  [ mkSignalMapping (js "a1") (js "$RadarObj1_Dist")
      (js "sysvar::Sensors::Radar::Obj1::Dist") (Some (js "Radar Distance"));
    mkSignalMapping (js "a2") (js "CameraMsg.LaneDev")
      (js "sysvar::Sensors::Camera::LaneDeviation") (Some (js "Lane Deviation"));
    mkSignalMapping (js "a3") (js "$AEB_Active")
      (js "sysvar::ADAS::AEB_Status") (Some (js "AEB Trigger")) ].

Definition MAPPING_PRESETS : list (jsstring * list SignalMapping) :=
  [ (js "Powertrain (Default)", DEFAULT_MAPPINGS);
    (js "Body Control", BODY_CONTROL);
    (js "ADAS Sensors", ADAS_SENSORS) ].

(** DEFAULT_CAPL_CODE of constants.ts, line by line; every line ends with a
    line feed. *)
Definition cu_dquote : codeunit := 34%N.
Definition cu_lf : codeunit := 10%N.

Definition DEFAULT_CAPL_CODE : jsstring :=
  flat_map (fun line => line ++ [cu_lf])
    [js "/* CAPL Test Node */";
     js "variables {";
     js "  message EngineStatus msgEngine;";
     js "  timer tCheck;";
     js "}";
     [];
     js "on start {";
     js "  setTimer(tCheck, 100);";
     js "}";
     [];
     js "on timer tCheck {";
     js "  // Read engine speed";
     js "  if ($EngineSpeed > 3000) {";
     js "    write(" ++ [cu_dquote] ++ js "High Speed Detected: %f" ++ [cu_dquote] ++ js ", $EngineSpeed);";
     js "    ";
     js "    // Check specific message signal";
     js "    if (EngineMsg.Torque > 250.0) {";
     js "      // Trigger protection";
     js "      output(msgEngine);";
     js "    }";
     js "  }";
     js "}";
     [];
     js "on key 'a' {";
     js "  $EngineSpeed = 0;";
     js "  EngineMsg.Torque = 0;";
     js "}"].

(** [toLowerCase] on the letters A to Z; other code units are kept. *)
Definition asciiLowerCase (s : jsstring) : jsstring :=
  map (fun c => if (65 <=? c)%N && (c <=? 90)%N then (c + 32)%N else c) s.

(** The state of the application when it starts, with a given source text. *)
Definition startState (source : jsstring) : App.State :=
  App.mkState source (js "") SIL DEFAULT_MAPPINGS false None false [].

(** The application as it starts, with the default source and rules, once
    the effect of App.tsx has run for the first time. *)
Definition defaultSession : App.State :=
  App.handleLocalTransform false (startState DEFAULT_CAPL_CODE).

(** The two fields of a rule that the engine reads, and the rule reduced
    to them. *)
Definition signals (m : SignalMapping) : jsstring * jsstring :=
  (realSignal m, simSignal m).

Definition bare (m : SignalMapping) : SignalMapping :=
  mkSignalMapping [] (realSignal m) (simSignal m) None.

(** The largest integer below which every integer is a JavaScript number:
    up to there the integers of this model are the numbers of the code. *)
Definition MAX_SAFE_INTEGER : Z := (2 ^ 53 - 1)%Z.

(** The command names of the [switch] in [handleCommand]. *)
Definition knownCommands : list string :=
  ["help"; "?"; "upload"; "load"; "run"; "transform"; "download"; "save";
   "export"; "batch"; "cli"; "swap"; "replace"; "clear"; "mode";
   "readme"; "docs"; "man"]%string.

(** The output shown is the transformation of the source shown, in the mode
    and with the rules of the state. *)
Definition upToDate (st : App.State) : Prop :=
  exists r, performLocalTransformation (App.inputCode st) (App.mode st)
              (App.mappings st) = Some r
            /\ App.outputCode st = code r.

(* ================================================================== *)
(** * Properties *)

(** ** Code units and prefixes *)

Lemma cu_eqb_eq (a b : codeunit) : cu_eqb a b = true <-> a = b.
Proof. apply N.eqb_eq. Qed.

Lemma cu_eqb_refl (a : codeunit) : cu_eqb a a = true.
Proof. apply N.eqb_refl. Qed.

Lemma cu_eqb_neq (a b : codeunit) : cu_eqb a b = false <-> a <> b.
Proof. apply N.eqb_neq. Qed.

Lemma str_eqb_eq (a b : jsstring) : str_eqb a b = true <-> a = b.
Proof.
  revert b; induction a as [|x a IH]; intros [|y b]; simpl; split; intro H;
    try reflexivity; try discriminate.
  - apply andb_true_iff in H as [H1 H2].
    apply cu_eqb_eq in H1. apply IH in H2. congruence.
  - injection H as -> ->. rewrite cu_eqb_refl. simpl. now apply IH.
Qed.

Lemma str_eqb_refl (a : jsstring) : str_eqb a a = true.
Proof. now apply str_eqb_eq. Qed.

Lemma str_eqb_neq (a b : jsstring) : a <> b -> str_eqb a b = false.
Proof.
  intros H. destruct (str_eqb a b) eqn:E; [|reflexivity].
  apply str_eqb_eq in E. contradiction.
Qed.

Lemma startsWith_app (p rest : jsstring) : startsWith p (p ++ rest) = true.
Proof.
  induction p as [|x p IH]; simpl; [reflexivity|].
  now rewrite cu_eqb_refl.
Qed.

Lemma startsWith_inv (p s : jsstring) :
  startsWith p s = true -> exists rest, s = p ++ rest.
Proof.
  revert s; induction p as [|x p IH]; intros s H.
  - now exists s.
  - destruct s as [|y s]; simpl in H; [discriminate|].
    apply andb_true_iff in H as [H1 H2].
    apply cu_eqb_eq in H1; subst y.
    destruct (IH _ H2) as [rest ->]. now exists rest.
Qed.

Lemma falsy_nil (s : jsstring) : falsy s = true <-> s = [].
Proof. destruct s; simpl; split; congruence. Qed.

Lemma includes_occursIn (s p : jsstring) :
  includes s p = true <-> occursIn p s.
Proof.
  induction s as [|c s IH]; cbn [includes]; rewrite orb_true_iff.
  - split.
    + intros [H|H]; [|discriminate].
      apply startsWith_inv in H as [rest H]. now exists [], rest.
    + intros (b & a & H). left.
      destruct b; [|discriminate]. destruct p; [reflexivity|discriminate].
  - rewrite IH. split.
    + intros [H|(b & a & ->)].
      * apply startsWith_inv in H as [rest H]. now exists [], rest.
      * now exists (c :: b), a.
    + intros ([|c' b] & a & H).
      * left. cbn [app] in H. rewrite H. apply startsWith_app.
      * right. injection H as -> ->. now exists b, a.
Qed.

(** ** The runtime on literal patterns *)

Lemma execAt_lit (p s : jsstring) :
  JS.execAt (map JS.Lit p) s = if startsWith p s then Some p else None.
Proof.
  revert s; induction p as [|x p IH]; intros s; simpl; [reflexivity|].
  destruct s as [|y s]; [reflexivity|].
  destruct (cu_eqb x y) eqn:E; simpl; [|reflexivity].
  apply cu_eqb_eq in E; subst y.
  rewrite IH. now destruct (startsWith p s).
Qed.

Lemma special_is_syntax (c : codeunit) :
  existsb (cu_eqb c) (js ".*+?^${}()|[]\") = JS.isSyntaxCharacter c.
Proof.
  unfold JS.isSyntaxCharacter.
  apply eq_true_iff_eq.
  rewrite !existsb_exists.
  split; intros [x [Hin Hx]]; exists x; (split; [|exact Hx]);
    vm_compute in Hin |- *; tauto.
Qed.

Lemma backslash_is_syntax : JS.isSyntaxCharacter cu_backslash = true.
Proof. reflexivity. Qed.

Lemma dot_is_syntax : JS.isSyntaxCharacter cu_dot = true.
Proof. reflexivity. Qed.

(** Escaping, then compiling, gives the pattern that reads the source text
    literally, whatever was scanned before. *)
Lemma RegExp_escape_loop (s before : jsstring) :
  JS.RegExp (JS.replaceLoop specialChars escapeTemplate before s 0)
  = Some (map JS.Lit s).
Proof.
  revert before; induction s as [|c s IH]; intros before; [reflexivity|].
  cbn [JS.replaceLoop specialChars JS.execAt JS.atomMatches].
  rewrite special_is_syntax.
  destruct (JS.isSyntaxCharacter c) eqn:E.
  - cbn [option_map length pred falsy app skipn].
    change (JS.getSubstitution escapeTemplate [c] before s)
      with (cu_backslash :: c :: []).
    cbn [app JS.RegExp].
    rewrite cu_eqb_refl, E, IH. reflexivity.
  - cbn [JS.RegExp].
    destruct (cu_eqb c cu_backslash) eqn:Eb.
    { apply cu_eqb_eq in Eb; subst c. rewrite backslash_is_syntax in E. discriminate. }
    destruct (cu_eqb c cu_dot) eqn:Ed.
    { apply cu_eqb_eq in Ed; subst c. rewrite dot_is_syntax in E. discriminate. }
    rewrite E, IH. reflexivity.
Qed.

Lemma RegExp_escapeSource (s : jsstring) :
  JS.RegExp (escapeSource s) = Some (map JS.Lit s).
Proof. apply RegExp_escape_loop. Qed.

(** ** One rule at a time *)

Lemma match_some_nonempty (re : JS.regex) (x : jsstring) (ms : list jsstring) :
  JS.match_ re x = Some ms -> (1 <= length ms)%nat.
Proof.
  unfold JS.match_. destruct (JS.matchLoop re x 0) as [|m l]; [discriminate|].
  intros [= <-]. simpl. lia.
Qed.

(** The callback never throws: it skips the rule, leaves the state alone
    when nothing matches, or replaces and counts. *)
Lemma applyMapping_eq (mode : TestMode) (m : SignalMapping) (x : jsstring) (n : Z) :
  applyMapping mode m (x, n) =
  Some (if falsy (sourceOf mode m) || falsy (targetOf mode m) then (x, n)
        else match JS.match_ (map JS.Lit (sourceOf mode m)) x with
             | Some ms => (JS.replace (map JS.Lit (sourceOf mode m)) (targetOf mode m) x,
                           (n + Z.of_nat (length ms))%Z)
             | None => (x, n)
             end).
Proof.
  unfold applyMapping.
  destruct (falsy (sourceOf mode m) || falsy (targetOf mode m)); [reflexivity|].
  rewrite RegExp_escapeSource.
  now destruct (JS.match_ _ x).
Qed.

Lemma applyMapping_total (mode : TestMode) (m : SignalMapping) (st : jsstring * Z) :
  exists st', applyMapping mode m st = Some st'.
Proof. destruct st as [x n]. rewrite applyMapping_eq. eauto. Qed.

Lemma applyMapping_count (mode : TestMode) (m : SignalMapping) (st st' : jsstring * Z) :
  applyMapping mode m st = Some st' ->
  (snd st <= snd st')%Z /\ (snd st' = snd st -> fst st' = fst st).
Proof.
  destruct st as [x n]. rewrite applyMapping_eq. intros [= <-].
  destruct (falsy _ || falsy _); [simpl; split; [lia|auto]|].
  destruct (JS.match_ _ x) as [ms|] eqn:E; simpl; [|split; [lia|auto]].
  apply match_some_nonempty in E. split; [lia|]. intros H. lia.
Qed.

Lemma forEach_total (mode : TestMode) (l : list SignalMapping) (st : jsstring * Z) :
  exists st', forEach mode l st = Some st'.
Proof.
  revert st; induction l as [|m l IH]; intros st; simpl; [eauto|].
  destruct (applyMapping_total mode m st) as [st1 ->]. apply IH.
Qed.

Lemma forEach_count (mode : TestMode) (l : list SignalMapping) (st st' : jsstring * Z) :
  forEach mode l st = Some st' ->
  (snd st <= snd st')%Z /\ (snd st' = snd st -> fst st' = fst st).
Proof.
  revert st; induction l as [|m l IH]; intros st; simpl.
  - intros [= <-]. split; [lia|auto].
  - destruct (applyMapping mode m st) as [st1|] eqn:E1; [|discriminate].
    intros E2. apply applyMapping_count in E1 as [L1 Z1].
    apply IH in E2 as [L2 Z2]. split; [lia|].
    intros H. assert (snd st1 = snd st) by lia.
    assert (snd st' = snd st1) by lia.
    rewrite Z2, Z1; auto.
Qed.

Lemma performLocalTransformation_forEach (c : jsstring) (mode : TestMode)
  (mappings : list SignalMapping) (r : TransformationResult) :
  performLocalTransformation c mode mappings = Some r <->
  forEach mode (sortedMappings mode mappings) (c, 0%Z) = Some (code r, changes r).
Proof.
  unfold performLocalTransformation.
  destruct (forEach _ _ _) as [[x n]|]; destruct r as [x' n']; simpl;
    split; intros H; try discriminate; now inversion H.
Qed.

(** C5. Whatever the text, the mode and the rules, the transformation
    returns a result (the constructor of regular expressions never throws on
    an escaped pattern) and the count it returns is not negative. *)
Theorem transform_always_returns (c : jsstring) (mode : TestMode)
  (mappings : list SignalMapping) :
  exists r, performLocalTransformation c mode mappings = Some r
            /\ (0 <= changes r)%Z.
Proof.
  destruct (forEach_total mode (sortedMappings mode mappings) (c, 0%Z))
    as [[x n] E].
  exists (mkResult x n). split.
  - apply performLocalTransformation_forEach. exact E.
  - apply forEach_count in E. simpl in *. lia.
Qed.

(** C10. A result whose count is zero carries the source text unchanged. *)
Theorem zero_changes_same_code (c : jsstring) (mode : TestMode)
  (mappings : list SignalMapping) (r : TransformationResult) :
  performLocalTransformation c mode mappings = Some r ->
  changes r = 0%Z ->
  code r = c.
Proof.
  intros E Hz. apply performLocalTransformation_forEach in E.
  apply forEach_count in E as [_ H]. simpl in H. auto.
Qed.

Lemma zero_changes_same_code_witness :
  code (mkResult (js "$Gear = 1;") 0) = js "$Gear = 1;".
Proof.
  apply (@zero_changes_same_code (js "$Gear = 1;") SIL
           [rule "1" "$EngineSpeed" "sysvar::Engine::Speed"]);
    reflexivity.
Defined.

(** ** The order of application *)

Lemma byLengthDesc_le (mode : TestMode) (x y : SignalMapping) :
  (byLengthDesc mode x y <=? 0)%Z = (patternLength mode y <=? patternLength mode x).
Proof.
  unfold byLengthDesc, strlen, patternLength.
  destruct (Nat.leb_spec (length (sourceOf mode y)) (length (sourceOf mode x)));
    [apply Z.leb_le | apply Z.leb_gt]; lia.
Qed.

Lemma insertBy_perm {A : Type} (cmp : A -> A -> Z) (x : A) (l : list A) :
  Permutation (x :: l) (JS.insertBy cmp x l).
Proof.
  induction l as [|y l IH]; simpl; [reflexivity|].
  destruct (cmp x y <=? 0)%Z; [reflexivity|].
  rewrite perm_swap. now constructor.
Qed.

Lemma sort_perm {A : Type} (cmp : A -> A -> Z) (l : list A) :
  Permutation l (JS.sort cmp l).
Proof.
  induction l as [|x l IH]; simpl; [reflexivity|].
  rewrite <- insertBy_perm. now constructor.
Qed.

Section Order.
Variable mode : TestMode.

Let len := patternLength mode.
Let desc := fun a b : SignalMapping => len b <= len a.
Let hasLen := fun (k : nat) (m : SignalMapping) => len m =? k.

Lemma insert_sorted (x : SignalMapping) (l : list SignalMapping) :
  StronglySorted desc l ->
  StronglySorted desc (JS.insertBy (byLengthDesc mode) x l).
Proof.
  induction 1 as [|y l Hs IH Hy]; simpl.
  - repeat constructor.
  - rewrite byLengthDesc_le.
    destruct (Nat.leb_spec (patternLength mode y) (patternLength mode x)) as [L|L].
    + constructor; [now constructor|].
      constructor; [exact L|].
      rewrite Forall_forall in *. intros z Hz.
      specialize (Hy z Hz). unfold desc, len in *. lia.
    + constructor; [exact IH|].
      rewrite Forall_forall in *. intros z Hz.
      apply (Permutation_in _ (Permutation_sym (insertBy_perm _ x l))) in Hz.
      destruct Hz as [<-|Hz]; [unfold desc, len; lia|auto].
Qed.

Lemma sorted_desc (l : list SignalMapping) :
  StronglySorted desc (sortedMappings mode l).
Proof.
  induction l as [|x l IH]; simpl; [constructor|].
  now apply insert_sorted.
Qed.

Lemma insert_filter (k : nat) (x : SignalMapping) (l : list SignalMapping) :
  filter (hasLen k) (JS.insertBy (byLengthDesc mode) x l)
  = filter (hasLen k) (x :: l).
Proof.
  induction l as [|y l IH]; [reflexivity|].
  cbn [JS.insertBy]. rewrite byLengthDesc_le.
  destruct (Nat.leb_spec (patternLength mode y) (patternLength mode x)) as [L|L];
    [reflexivity|].
  cbn [filter] in *. rewrite IH. unfold hasLen, len.
  destruct (Nat.eqb_spec (patternLength mode x) k),
           (Nat.eqb_spec (patternLength mode y) k); try reflexivity; lia.
Qed.

Lemma sorted_stable (k : nat) (l : list SignalMapping) :
  filter (hasLen k) (sortedMappings mode l) = filter (hasLen k) l.
Proof.
  induction l as [|x l IH]; [reflexivity|].
  unfold sortedMappings in *. cbn [JS.sort fold_right].
  rewrite insert_filter. cbn [filter]. fold (JS.sort (byLengthDesc mode) l).
  now rewrite IH.
Qed.

Lemma sortedMappings_stableDescending (l : list SignalMapping) :
  stableDescending mode l (sortedMappings mode l).
Proof. split; [apply sorted_desc | intros k; apply sorted_stable]. Qed.

(** Two descending lists with the same rules of each length, in the same
    order, are the same list. *)
Lemma descending_unique (l1 l2 : list SignalMapping) :
  StronglySorted desc l1 -> StronglySorted desc l2 ->
  (forall k, filter (hasLen k) l1 = filter (hasLen k) l2) ->
  l1 = l2.
Proof.
  intros S1; revert l2; induction S1 as [|a l1 S1 IH Ha]; intros l2 S2 HF.
  - destruct l2 as [|b l2]; [reflexivity|].
    specialize (HF (len b)). cbn [filter] in HF. unfold hasLen in HF.
    rewrite Nat.eqb_refl in HF. discriminate.
  - destruct S2 as [|b l2 S2 Hb].
    + specialize (HF (len a)). cbn [filter] in HF. unfold hasLen in HF.
      rewrite Nat.eqb_refl in HF. discriminate.
    + assert (Hab : len a = len b).
      { apply Nat.le_antisymm.
        - pose proof (HF (len a)) as H. cbn [filter] in H. unfold hasLen in H.
          rewrite Nat.eqb_refl in H.
          destruct (Nat.eqb_spec (len b) (len a)) as [E|E]; [lia|].
          assert (In a (filter (fun m => len m =? len a) l2))
            by (rewrite <- H; now left).
          apply filter_In in H0 as [Hin _].
          rewrite Forall_forall in Hb. apply (Hb a Hin).
        - pose proof (HF (len b)) as H. cbn [filter] in H. unfold hasLen in H.
          rewrite Nat.eqb_refl in H.
          destruct (Nat.eqb_spec (len a) (len b)) as [E|E]; [lia|].
          assert (In b (filter (fun m => len m =? len b) l1))
            by (rewrite H; now left).
          apply filter_In in H0 as [Hin _].
          rewrite Forall_forall in Ha. apply (Ha b Hin). }
      assert (a = b /\ forall k, filter (hasLen k) l1 = filter (hasLen k) l2)
        as [-> HF'].
      { split.
        - specialize (HF (len a)). cbn [filter] in HF. unfold hasLen in HF.
          rewrite <- Hab, Nat.eqb_refl in HF. now injection HF.
        - intros k. specialize (HF k). cbn [filter] in HF. unfold hasLen in *.
          rewrite <- Hab in HF.
          destruct (len a =? k); [now injection HF | exact HF]. }
      f_equal. now apply IH.
Qed.

Lemma stableDescending_unique (l order : list SignalMapping) :
  stableDescending mode l order -> order = sortedMappings mode l.
Proof.
  intros [S F]. apply descending_unique; [exact S | apply sorted_desc |].
  intros k. unfold hasLen, len. rewrite F. symmetry. apply sorted_stable.
Qed.
End Order.

(** C1. The rules are applied longest pattern first, rules of equal pattern
    length in their input order: the order of application is the one list
    with these two properties, and it holds the rules of the input, each as
    often. With the rules for [$Speed] and [$SpeedFront] the text
    [$SpeedFront] becomes [B] with one change, in either input order and in
    either mode. *)
Theorem rules_applied_longest_first (c : jsstring) (mode : TestMode)
  (mappings : list SignalMapping) :
  stableDescending mode mappings (sortedMappings mode mappings)
  /\ Permutation mappings (sortedMappings mode mappings)
  /\ (forall order, stableDescending mode mappings order ->
        performLocalTransformation c mode mappings = applyInOrder mode order c)
  /\ performLocalTransformation (js "$SpeedFront") SIL
       [rule "1" "$Speed" "A"; rule "2" "$SpeedFront" "B"]
     = Some (mkResult (js "B") 1)
  /\ performLocalTransformation (js "$SpeedFront") SIL
       [rule "2" "$SpeedFront" "B"; rule "1" "$Speed" "A"]
     = Some (mkResult (js "B") 1)
  /\ performLocalTransformation (js "$SpeedFront") HIL
       [rule "1" "A" "$Speed"; rule "2" "B" "$SpeedFront"]
     = Some (mkResult (js "B") 1).
Proof.
  split; [apply sortedMappings_stableDescending|].
  split; [apply sort_perm|].
  split; [|repeat split; reflexivity].
  intros order H. apply stableDescending_unique in H. subst order. reflexivity.
Qed.

Lemma rules_applied_longest_first_witness :
  performLocalTransformation (js "$SpeedFront = $Speed;") SIL
    [rule "1" "$Speed" "A"; rule "2" "$SpeedFront" "B"]
  = applyInOrder SIL [rule "2" "$SpeedFront" "B"; rule "1" "$Speed" "A"]
      (js "$SpeedFront = $Speed;").
Proof.
  apply (proj1 (proj2 (proj2 (rules_applied_longest_first
           (js "$SpeedFront = $Speed;") SIL
           [rule "1" "$Speed" "A"; rule "2" "$SpeedFront" "B"])))).
  split.
  - repeat constructor.
  - intros k. cbn [filter].
    change (patternLength SIL (rule "2" "$SpeedFront" "B")) with 11.
    change (patternLength SIL (rule "1" "$Speed" "A")) with 6.
    destruct (Nat.eqb_spec 11 k), (Nat.eqb_spec 6 k); try reflexivity; lia.
Defined.

(** ** Scanning for a literal pattern *)

Lemma getSubstitution_plain (t m b a : jsstring) :
  plainTemplate t = true -> JS.getSubstitution t m b a = t.
Proof.
  induction t as [|c t IH]; [reflexivity|].
  cbn [plainTemplate JS.getSubstitution].
  destruct (cu_eqb c cu_dollar).
  - destruct t as [|d t2]; [reflexivity|].
    intros H. apply andb_true_iff in H as [H1 H2].
    apply negb_true_iff in H1.
    repeat (apply orb_false_iff in H1 as [H1 ?]).
    rewrite H1, H, H0, H3. f_equal. now apply IH.
  - intros H. f_equal. now apply IH.
Qed.

Lemma replaceLoop_skip (re : JS.regex) (template u rest before : jsstring) :
  JS.replaceLoop re template before (u ++ rest) (length u)
  = JS.replaceLoop re template (before ++ u) rest 0.
Proof.
  revert before; induction u as [|c u IH]; intros before.
  - now rewrite app_nil_r.
  - cbn [app length JS.replaceLoop]. rewrite IH, <- app_assoc. reflexivity.
Qed.

Lemma matchLoop_skip (re : JS.regex) (u rest : jsstring) :
  JS.matchLoop re (u ++ rest) (length u) = JS.matchLoop re rest 0.
Proof. induction u as [|c u IH]; [reflexivity|exact IH]. Qed.

Lemma replaceLoop_found (re : JS.regex) (template m before rest : jsstring) :
  m <> [] -> JS.execAt re (m ++ rest) = Some m ->
  JS.replaceLoop re template before (m ++ rest) 0
  = JS.getSubstitution template m before rest
      ++ JS.replaceLoop re template (before ++ m) rest 0.
Proof.
  intros Hm E. destruct m as [|c m']; [congruence|].
  cbn [app] in *. cbn [JS.replaceLoop]. rewrite E.
  cbn [falsy length pred]. rewrite replaceLoop_skip.
  cbn [skipn]. rewrite skipn_app, skipn_all, Nat.sub_diag. cbn [skipn app].
  now rewrite <- app_assoc.
Qed.

Lemma matchLoop_found (re : JS.regex) (m rest : jsstring) :
  m <> [] -> JS.execAt re (m ++ rest) = Some m ->
  JS.matchLoop re (m ++ rest) 0 = m :: JS.matchLoop re rest 0.
Proof.
  intros Hm E. destruct m as [|c m']; [congruence|].
  cbn [app] in *. cbn [JS.matchLoop]. rewrite E.
  cbn [length pred]. now rewrite matchLoop_skip.
Qed.

Section Literal.
Variables (p template : jsstring).
Hypothesis p_nonempty : p <> [].

Let re := map JS.Lit p.

Lemma execAt_nil : JS.execAt re [] = None.
Proof. unfold re. destruct p; [congruence|reflexivity]. Qed.

Lemma execAt_hit (rest : jsstring) : JS.execAt re (p ++ rest) = Some p.
Proof. unfold re. now rewrite execAt_lit, startsWith_app. Qed.

Lemma replaceLoop_hit (before rest : jsstring) :
  JS.replaceLoop re template before (p ++ rest) 0
  = JS.getSubstitution template p before rest
      ++ JS.replaceLoop re template (before ++ p) rest 0.
Proof. apply replaceLoop_found; [exact p_nonempty | apply execAt_hit]. Qed.

Lemma replaceLoop_miss (before rest : jsstring) (c : codeunit) :
  startsWith p (c :: rest) = false ->
  JS.replaceLoop re template before (c :: rest) 0
  = c :: JS.replaceLoop re template (before ++ [c]) rest 0.
Proof.
  intros H. cbn [JS.replaceLoop]. unfold re. now rewrite execAt_lit, H.
Qed.

Lemma matchLoop_hit (rest : jsstring) :
  JS.matchLoop re (p ++ rest) 0 = p :: JS.matchLoop re rest 0.
Proof. apply matchLoop_found; [exact p_nonempty | apply execAt_hit]. Qed.

Lemma matchLoop_miss (rest : jsstring) (c : codeunit) :
  startsWith p (c :: rest) = false ->
  JS.matchLoop re (c :: rest) 0 = JS.matchLoop re rest 0.
Proof.
  intros H. cbn [JS.matchLoop]. unfold re. now rewrite execAt_lit, H.
Qed.

(** Every text found is the pattern itself. *)
Lemma matchLoop_all_literal (x : jsstring) (k : nat) :
  Forall (eq p) (JS.matchLoop re x k).
Proof.
  revert k; induction x as [|c x IH]; intros k; cbn [JS.matchLoop].
  - rewrite execAt_nil. destruct k; constructor.
  - destruct k; [|apply IH].
    unfold re at 1. rewrite execAt_lit.
    destruct (startsWith p (c :: x)); [constructor; auto|apply IH].
Qed.

(** Where the pattern does not occur nothing is found and nothing
    replaced. *)
Lemma absent_no_match (x : jsstring) :
  ~ occursIn p x -> JS.matchLoop re x 0 = [].
Proof.
  induction x as [|c x IH]; intros H.
  - cbn [JS.matchLoop]. now rewrite execAt_nil.
  - destruct (startsWith p (c :: x)) eqn:E.
    + apply startsWith_inv in E as [rest E]. exfalso. apply H.
      exists [], rest. exact E.
    + rewrite matchLoop_miss by exact E. apply IH.
      intros (b & a & ->). apply H. now exists (c :: b), a.
Qed.

Lemma match_found_occurs (x : jsstring) :
  JS.matchLoop re x 0 <> [] -> occursIn p x.
Proof.
  induction x as [|c x IH]; intros H.
  - cbn [JS.matchLoop] in H. now rewrite execAt_nil in H.
  - destruct (startsWith p (c :: x)) eqn:E.
    + apply startsWith_inv in E as [rest E]. now exists [], rest.
    + rewrite matchLoop_miss in H by exact E.
      destruct (IH H) as (b & a & ->). now exists (c :: b), a.
Qed.

Section Plain.
Hypothesis template_plain : plainTemplate template = true.

Lemma replaceLoop_before (x b b' : jsstring) (k : nat) :
  JS.replaceLoop re template b x k = JS.replaceLoop re template b' x k.
Proof.
  revert b b' k; induction x as [|c x IH]; intros b b' k; cbn [JS.replaceLoop].
  - rewrite execAt_nil. now destruct k.
  - destruct k; [|apply IH].
    destruct (JS.execAt re (c :: x)) as [m|].
    + rewrite !getSubstitution_plain by exact template_plain.
      f_equal. f_equal. apply IH.
    + f_equal. apply IH.
Qed.

Lemma replaceLit_nil : replaceLit p template [] = [].
Proof.
  unfold replaceLit, JS.replace. cbn [JS.replaceLoop]. fold re.
  now rewrite execAt_nil.
Qed.

Lemma replaceLit_hit (rest : jsstring) :
  replaceLit p template (p ++ rest) = template ++ replaceLit p template rest.
Proof.
  unfold replaceLit, JS.replace. fold re.
  rewrite replaceLoop_hit, getSubstitution_plain by exact template_plain.
  f_equal. apply replaceLoop_before.
Qed.

Lemma replaceLit_miss (rest : jsstring) (c : codeunit) :
  startsWith p (c :: rest) = false ->
  replaceLit p template (c :: rest) = c :: replaceLit p template rest.
Proof.
  intros H. unfold replaceLit, JS.replace. fold re.
  rewrite replaceLoop_miss by exact H. f_equal. apply replaceLoop_before.
Qed.
End Plain.

Lemma absent_no_replace (x before : jsstring) :
  ~ occursIn p x -> JS.replaceLoop re template before x 0 = x.
Proof.
  revert before; induction x as [|c x IH]; intros before H.
  - cbn [JS.replaceLoop]. now rewrite execAt_nil.
  - destruct (startsWith p (c :: x)) eqn:E.
    + apply startsWith_inv in E as [rest E]. exfalso. apply H.
      exists [], rest. exact E.
    + rewrite replaceLoop_miss by exact E. f_equal. apply IH.
      intros (b & a & ->). apply H. now exists (c :: b), a.
Qed.
End Literal.

Lemma countLit_nil (p : jsstring) : p <> [] -> countLit p [] = 0.
Proof.
  intros H. unfold countLit. cbn [JS.matchLoop]. now rewrite execAt_nil.
Qed.

Lemma countLit_hit (p rest : jsstring) :
  p <> [] -> countLit p (p ++ rest) = S (countLit p rest).
Proof. intros H. unfold countLit. now rewrite matchLoop_hit. Qed.

Lemma countLit_miss (p rest : jsstring) (c : codeunit) :
  startsWith p (c :: rest) = false -> countLit p (c :: rest) = countLit p rest.
Proof. intros H. unfold countLit. now rewrite matchLoop_miss. Qed.

(** ** Literal matching *)

Lemma applyMapping_absent (mode : TestMode) (m : SignalMapping)
  (x : jsstring) (n : Z) :
  ~ occursIn (sourceOf mode m) x -> applyMapping mode m (x, n) = Some (x, n).
Proof.
  intros H. rewrite applyMapping_eq.
  destruct (falsy (sourceOf mode m)) eqn:E; [reflexivity|].
  destruct (falsy (targetOf mode m)); [reflexivity|]. cbn [orb].
  unfold JS.match_. rewrite absent_no_match; [reflexivity| |exact H].
  intros E'. apply falsy_nil in E'. congruence.
Qed.

Lemma forEach_absent (mode : TestMode) (l : list SignalMapping)
  (x : jsstring) (n : Z) :
  (forall m, In m l -> ~ occursIn (sourceOf mode m) x) ->
  forEach mode l (x, n) = Some (x, n).
Proof.
  induction l as [|m l IH]; intros H; [reflexivity|].
  cbn [forEach]. rewrite applyMapping_absent by (apply H; now left).
  apply IH. intros m' Hm'. apply H. now right.
Qed.

Lemma execAt_lit_iff (p text m : jsstring) :
  JS.execAt (map JS.Lit p) text = Some m
  <-> m = p /\ exists rest, text = p ++ rest.
Proof.
  rewrite execAt_lit. split.
  - destruct (startsWith p text) eqn:E; [|discriminate].
    intros [= <-]. split; [reflexivity|]. now apply startsWith_inv.
  - intros [-> [rest ->]]. now rewrite startsWith_app.
Qed.

(** C8. The pattern the engine builds from a rule reads the rule's search
    field as literal text: an attempt at a position succeeds exactly when
    the text continues there with the field itself, code unit by code unit,
    and what is matched is the field. Rules whose fields do not occur in the
    text leave it alone. [EngineMsg.Torque] is found in itself and not in
    [EngineMsgXTorque]; each of the fourteen metacharacters is escaped. *)
Theorem pattern_matched_literally :
  (forall source : jsstring,
      exists regex, JS.RegExp (escapeSource source) = Some regex
        /\ forall text m, JS.execAt regex text = Some m
                          <-> m = source /\ exists rest, text = source ++ rest)
  /\ (forall (c : jsstring) (mode : TestMode) (mappings : list SignalMapping),
        (forall m, In m mappings -> ~ occursIn (sourceOf mode m) c) ->
        performLocalTransformation c mode mappings = Some (mkResult c 0))
  /\ performLocalTransformation (js "EngineMsgXTorque = 0;") SIL
       [rule "2" "EngineMsg.Torque" "sysvar::Powertrain::Torque"]
     = Some (mkResult (js "EngineMsgXTorque = 0;") 0)
  /\ performLocalTransformation (js "EngineMsg.Torque = 0;") SIL
       [rule "2" "EngineMsg.Torque" "sysvar::Powertrain::Torque"]
     = Some (mkResult (js "sysvar::Powertrain::Torque = 0;") 1)
  /\ Forall (fun c => escapeSource [c] = [cu_backslash; c])
            (js ".*+?^${}()|[]\").
Proof.
  split; [|split; [|split; [|split]]].
  - intros source. exists (map JS.Lit source). split.
    + apply RegExp_escapeSource.
    + intros text m. apply execAt_lit_iff.
  - intros c mode mappings H. unfold performLocalTransformation.
    rewrite forEach_absent; [reflexivity|].
    intros m Hm. apply H.
    apply (Permutation_in _
             (Permutation_sym (sort_perm (byLengthDesc mode) mappings))).
    exact Hm.
  - reflexivity.
  - reflexivity.
  - repeat constructor.
Qed.

Lemma pattern_matched_literally_witness :
  performLocalTransformation (js "EngineMsgXTorque") HIL
    [rule "2" "EngineMsg.Torque" "T.Q"]
  = Some (mkResult (js "EngineMsgXTorque") 0).
Proof.
  apply (proj1 (proj2 pattern_matched_literally)).
  intros m [<-|[]] H. apply includes_occursIn in H. discriminate.
Defined.

(** Without the escape the dot of [EngineMsg.Torque] would be a wildcard. *)
Lemma unescaped_dot_is_wildcard :
  exists regex, JS.RegExp (js "EngineMsg.Torque") = Some regex
    /\ JS.execAt regex (js "EngineMsgXTorque") = Some (js "EngineMsgXTorque").
Proof. eexists. split; reflexivity. Qed.

(** ** Skipped rules *)

Lemma skip_iff_inactive (mode : TestMode) (m : SignalMapping) :
  falsy (sourceOf mode m) || falsy (targetOf mode m) = negb (isActive m).
Proof.
  unfold isActive. rewrite negb_involutive.
  destruct mode; cbn [sourceOf targetOf]; [apply orb_comm|reflexivity].
Qed.

Lemma applyMapping_inactive (mode : TestMode) (m : SignalMapping)
  (st : jsstring * Z) :
  isActive m = false -> applyMapping mode m st = Some st.
Proof.
  intros H. destruct st as [x n].
  rewrite applyMapping_eq, skip_iff_inactive, H. reflexivity.
Qed.

Lemma forEach_filter_active (mode : TestMode) (l : list SignalMapping)
  (st : jsstring * Z) :
  forEach mode l st = forEach mode (filter isActive l) st.
Proof.
  revert st; induction l as [|m l IH]; intros st; [reflexivity|].
  cbn [filter forEach]. destruct (isActive m) eqn:E.
  - cbn [forEach]. destruct (applyMapping mode m st); [apply IH|reflexivity].
  - rewrite applyMapping_inactive by exact E. apply IH.
Qed.

Section FilterSort.
Variable mode : TestMode.
Variable f : SignalMapping -> bool.

Lemma insert_front (x : SignalMapping) (l : list SignalMapping) :
  Forall (fun z => patternLength mode z <= patternLength mode x) l ->
  JS.insertBy (byLengthDesc mode) x l = x :: l.
Proof.
  destruct 1 as [|y l Hy _]; [reflexivity|].
  cbn [JS.insertBy]. rewrite byLengthDesc_le.
  now apply Nat.leb_le in Hy as ->.
Qed.

Lemma filter_insert (x : SignalMapping) (l : list SignalMapping) :
  StronglySorted (fun a b => patternLength mode b <= patternLength mode a) l ->
  filter f (JS.insertBy (byLengthDesc mode) x l)
  = if f x then JS.insertBy (byLengthDesc mode) x (filter f l)
    else filter f l.
Proof.
  induction 1 as [|y l Hs IH Hy].
  - cbn. now destruct (f x).
  - cbn [JS.insertBy]. rewrite byLengthDesc_le.
    destruct (Nat.leb_spec (patternLength mode y) (patternLength mode x)) as [L|L].
    + change (filter f (x :: y :: l))
        with (if f x then x :: filter f (y :: l) else filter f (y :: l)).
      destruct (f x); [|reflexivity].
      symmetry. apply insert_front.
      assert (Forall (fun z => patternLength mode z <= patternLength mode x) (y :: l)) as H.
      { constructor; [exact L|]. rewrite Forall_forall in *.
        intros z Hz. specialize (Hy z Hz). cbn in Hy. lia. }
      rewrite Forall_forall in *. intros z Hz. apply H.
      apply filter_In in Hz. tauto.
    + cbn [filter]. rewrite IH. destruct (f y), (f x); try reflexivity.
      cbn [JS.insertBy]. rewrite byLengthDesc_le.
      apply Nat.leb_gt in L. now rewrite L.
Qed.

Lemma filter_sortedMappings (l : list SignalMapping) :
  filter f (sortedMappings mode l) = sortedMappings mode (filter f l).
Proof.
  induction l as [|x l IH]; [reflexivity|].
  unfold sortedMappings in *. cbn [JS.sort fold_right filter].
  fold (JS.sort (byLengthDesc mode) l).
  rewrite filter_insert by apply sorted_desc.
  rewrite IH. now destruct (f x).
Qed.
End FilterSort.

(** Skipping inside the loop, as the code does, or dropping the rules with
    an empty field before sorting gives the same result. *)
Lemma transform_filters_then_sorts (c : jsstring) (mode : TestMode)
  (mappings : list SignalMapping) :
  performLocalTransformation c mode mappings
  = applyInOrder mode (sortedMappings mode (filter isActive mappings)) c.
Proof.
  unfold performLocalTransformation, applyInOrder.
  now rewrite forEach_filter_active, filter_sortedMappings.
Qed.

(** C9. A rule with an empty [realSignal] or an empty [simSignal] is inert
    in both modes: the callback hands the text and the count back as they
    were, and the transformation gives the result it gives without the
    rule, whatever the text and the other rules. *)
Theorem empty_field_rule_is_inert (c : jsstring) (mode : TestMode)
  (r : SignalMapping) (before after : list SignalMapping) :
  realSignal r = [] \/ simSignal r = [] ->
  (forall st, applyMapping mode r st = Some st)
  /\ performLocalTransformation c mode (before ++ r :: after)
     = performLocalTransformation c mode (before ++ after).
Proof.
  intros H.
  assert (E : isActive r = false).
  { unfold isActive. destruct H as [-> | ->]; [reflexivity|].
    now rewrite orb_comm. }
  split.
  - intros st. now apply applyMapping_inactive.
  - rewrite !transform_filters_then_sorts, !filter_app.
    cbn [filter]. now rewrite E.
Qed.

Lemma empty_field_rule_is_inert_witness :
  (forall st, applyMapping HIL (rule "9" "" "X") st = Some st)
  /\ performLocalTransformation (js "X = $A;") HIL
       ([rule "1" "$A" "Y"] ++ rule "9" "" "X" :: [rule "2" "$B" "X"])
     = performLocalTransformation (js "X = $A;") HIL
       ([rule "1" "$A" "Y"] ++ [rule "2" "$B" "X"]).
Proof.
  apply (@empty_field_rule_is_inert (js "X = $A;") HIL (rule "9" "" "X")).
  left. reflexivity.
Defined.

(** ** The exported script *)

Lemma cliMode_is_SIL (mode : TestMode) :
  str_eqb (cliMode mode) Cli.TestMode_SIL
  = match mode with SIL => true | HIL => false end.
Proof. now destruct mode. Qed.

Lemma orEmpty_some (s : jsstring) : Cli.orEmpty (Some s) = s.
Proof. now destruct s. Qed.

Lemma cli_byLengthDesc (mode : TestMode) (a b : SignalMapping) :
  Cli.byLengthDesc (cliMode mode) (cliMapping a) (cliMapping b)
  = byLengthDesc mode a b.
Proof.
  unfold Cli.byLengthDesc, byLengthDesc. rewrite cliMode_is_SIL.
  destruct mode; cbn [cliMapping Cli.realSignal Cli.simSignal sourceOf];
    now rewrite !orEmpty_some.
Qed.

Lemma sort_map {A B : Type} (g : A -> B) (cmpA : A -> A -> Z)
  (cmpB : B -> B -> Z) (l : list A) :
  (forall a b, cmpB (g a) (g b) = cmpA a b) ->
  JS.sort cmpB (map g l) = map g (JS.sort cmpA l).
Proof.
  intros H. induction l as [|x l IH]; [reflexivity|].
  cbn [map JS.sort fold_right].
  fold (JS.sort cmpB (map g l)). fold (JS.sort cmpA l). rewrite IH.
  generalize (JS.sort cmpA l) as s. clear IH.
  induction s as [|y s IH]; [reflexivity|].
  cbn [map JS.insertBy]. rewrite H.
  destruct (cmpA x y <=? 0)%Z; [reflexivity|]. cbn [map]. now rewrite IH.
Qed.

Lemma cli_applyMapping (mode : TestMode) (m : SignalMapping)
  (st : jsstring * Z) :
  Cli.applyMapping (cliMode mode) (cliMapping m) st = applyMapping mode m st.
Proof.
  unfold Cli.applyMapping, applyMapping. destruct st as [x n].
  rewrite cliMode_is_SIL.
  destruct mode; cbn [cliMapping Cli.realSignal Cli.simSignal Cli.not_
                        sourceOf targetOf];
    destruct (falsy _ || falsy _); reflexivity.
Qed.

Lemma cli_forEach (mode : TestMode) (l : list SignalMapping)
  (st : jsstring * Z) :
  Cli.forEach (cliMode mode) (map cliMapping l) st = forEach mode l st.
Proof.
  revert st; induction l as [|m l IH]; intros st; [reflexivity|].
  cbn [map Cli.forEach forEach]. rewrite cli_applyMapping.
  destruct (applyMapping mode m st); [apply IH|reflexivity].
Qed.

(** C6. On the rules and modes of the interactive tool the function
    [performTransformation] of the exported script returns what
    [performLocalTransformation] returns: the same text and the same
    count. *)
Theorem exported_script_same_result (c : jsstring) (mode : TestMode)
  (mappings : list SignalMapping) :
  Cli.performTransformation c (cliMode mode) (map cliMapping mappings)
  = performLocalTransformation c mode mappings.
Proof.
  unfold Cli.performTransformation, performLocalTransformation, sortedMappings.
  rewrite (sort_map cliMapping (byLengthDesc mode)) by apply cli_byLengthDesc.
  now rewrite cli_forEach.
Qed.

(** ** Dollar patterns in the replacement field *)

(** C2 (the code departs from it). The replacement field goes to [replace]
    as its template, so [$&] in it stands for the matched text and [$$] for
    one dollar sign: the stored text is not what lands in the result. *)
Theorem replacement_template_expanded :
  performLocalTransformation (js "Speed = 1;") SIL [rule "1" "Speed" "$&"]
  = Some (mkResult (js "Speed = 1;") 1)
  /\ performLocalTransformation (js "Speed = 1;") SIL [rule "1" "Speed" "$$v"]
     = Some (mkResult (js "$v = 1;") 1)
  /\ performLocalTransformation (js "a Speed b") SIL [rule "1" "Speed" "$'"]
     = Some (mkResult (js "a  b b") 1).
Proof. repeat split; reflexivity. Qed.

(** ** The argument check of the exported script *)

(** C7 as stated fails: one path and one option are two arguments, the
    check lets them through, the option is taken as the output path and the
    run ends with code 0. *)
Lemma one_path_and_an_option_runs :
  length (positional [js "input.can"; js "--mode=SIL"]) < 2
  /\ Cli.main benchWorld (map cliMapping DEFAULT_MAPPINGS)
       [js "input.can"; js "--mode=SIL"]
     = Cli.mkRun
         [ js "Using embedded default mappings.";
           js "Reading input.can...";
           js "Applying 3 mapping rules (Mode: SIL)...";
           js "Success: Written to --mode=SIL";
           js "Changes made: 1" ]
         []
         [(js "--mode=SIL", js "sysvar::Engine::Speed = 0;")]
         0.
Proof. split; [vm_compute; lia | reflexivity]. Qed.

(** C7, amended. With fewer than two arguments in all, options counted,
    the script prints the usage text and exits with code 1, and touches no
    file. *)
Theorem too_few_arguments_usage (w : Cli.World) (embedded : list Cli.Mapping)
  (args : list jsstring) :
  length args < 2 ->
  Cli.main w embedded args = Cli.mkRun Cli.usage [] [] 1.
Proof.
  intros H. unfold Cli.main.
  now apply Nat.ltb_lt in H as ->.
Qed.

Lemma too_few_arguments_usage_witness :
  Cli.main benchWorld (map cliMapping DEFAULT_MAPPINGS) [js "input.can"]
  = Cli.mkRun Cli.usage [] [] 1.
Proof. apply too_few_arguments_usage. simpl. lia. Defined.

(** ** Import of a mapping file *)

(** C4 as stated fails: an array whose element is a number is accepted by
    both upload handlers, and replaces the rules without any error. *)
Lemma import_accepts_any_array :
  forallb Upload.ruleShaped [Upload.JNumber 42] = false
  /\ Upload.handleMappingFileUpload
       (Some (Upload.mkFile (js "rules.json")
                (Some (Upload.JArray [Upload.JNumber 42]))))
       (Upload.mkStore [] [])
     = Upload.mkStore [Upload.JNumber 42]
         [js "Success: Loaded 1 mappings from 'rules.json'."]
  /\ Upload.handleFileUpload
       (Some (Upload.mkFile (js "rules.json")
                (Some (Upload.JArray [Upload.JNumber 42]))))
       []
     = ([Upload.JNumber 42], None).
Proof. repeat split; reflexivity. Qed.

(** C4, amended. The import checks the root of the payload and nothing
    else. A payload that parses to an array replaces the rules by the
    elements of the array, whatever they are. A payload that does not parse,
    or whose root is not an array, leaves the rules as they were and is
    reported: by one more log line that starts with [Error:] in the
    application, by an alert in the editor. *)
Theorem import_checks_root_only (f : Upload.File) (st : Upload.Store) :
  (forall l, Upload.parsed f = Some (Upload.JArray l) ->
     Upload.mappings (Upload.handleMappingFileUpload (Some f) st) = l
     /\ Upload.handleFileUpload (Some f) (Upload.mappings st) = (l, None))
  /\ ((forall l, Upload.parsed f <> Some (Upload.JArray l)) ->
      Upload.mappings (Upload.handleMappingFileUpload (Some f) st)
        = Upload.mappings st
      /\ (exists msg,
            Upload.terminalLogs (Upload.handleMappingFileUpload (Some f) st)
            = Upload.terminalLogs st ++ [js "Error: " ++ msg])
      /\ (exists msg,
            Upload.handleFileUpload (Some f) (Upload.mappings st)
            = (Upload.mappings st, Some msg))).
Proof.
  destruct f as [n p]. cbn [Upload.parsed]. split.
  - intros l ->. split; reflexivity.
  - intros H.
    unfold Upload.handleMappingFileUpload, Upload.onMappingFileLoad,
      Upload.handleFileUpload.
    cbn [Upload.parsed Upload.name].
    destruct p as [[| | | |l|]|];
      try (split; [reflexivity|split; eexists; reflexivity]).
    exfalso. now apply (H l).
Qed.

Lemma import_checks_root_only_witness :
  Upload.mappings
    (Upload.handleMappingFileUpload
       (Some (Upload.mkFile (js "rules.json")
                (Some (Upload.JObject [(js "id", Upload.JString (js "1"))]))))
       (Upload.mkStore [Upload.JNull] []))
  = [Upload.JNull].
Proof.
  apply (proj2 (import_checks_root_only
     (Upload.mkFile (js "rules.json")
        (Some (Upload.JObject [(js "id", Upload.JString (js "1"))])))
     (Upload.mkStore [Upload.JNull] []))).
  intros l. discriminate.
Defined.

(** ** What one rule does to the text and to the count *)

Lemma no_match_no_replace (p template x before : jsstring) :
  p <> [] -> JS.matchLoop (map JS.Lit p) x 0 = [] ->
  JS.replaceLoop (map JS.Lit p) template before x 0 = x.
Proof.
  intros Hp. revert before; induction x as [|c x IH]; intros before H.
  - cbn [JS.replaceLoop]. now rewrite execAt_nil.
  - destruct (startsWith p (c :: x)) eqn:E.
    + apply startsWith_inv in E as [rest E]. rewrite E in H.
      rewrite matchLoop_hit in H by exact Hp. discriminate.
    + rewrite matchLoop_miss in H by exact E.
      rewrite replaceLoop_miss by exact E. f_equal. now apply IH.
Qed.

(** An active rule replaces every occurrence found by the scan and adds
    their number to the count; a rule with an empty field does nothing. *)
Lemma applyMapping_active (mode : TestMode) (m : SignalMapping)
  (x : jsstring) (n : Z) :
  applyMapping mode m (x, n) =
  Some (if isActive m
        then (replaceLit (sourceOf mode m) (targetOf mode m) x,
              (n + Z.of_nat (countLit (sourceOf mode m) x))%Z)
        else (x, n)).
Proof.
  rewrite applyMapping_eq, skip_iff_inactive.
  destruct (isActive m) eqn:E; [|reflexivity]. cbn [negb].
  unfold JS.match_, countLit, replaceLit, JS.replace.
  destruct (JS.matchLoop _ x 0) as [|a l] eqn:M; [|reflexivity].
  rewrite no_match_no_replace; [now rewrite Z.add_0_r| |exact M].
  intros Hs. pose proof (skip_iff_inactive mode m) as S.
  rewrite Hs, E in S. discriminate.
Qed.

Lemma forEach_code (mode : TestMode) (l : list SignalMapping)
  (x : jsstring) (n : Z) :
  exists n', forEach mode l (x, n)
             = Some (substAll (map (pairOf mode) (filter isActive l)) x, n').
Proof.
  revert x n; induction l as [|m l IH]; intros x n; [now exists n|].
  cbn [forEach filter]. rewrite applyMapping_active.
  destruct (isActive m); [|apply IH].
  cbn [map pairOf substAll]. apply IH.
Qed.

Lemma transform_code (c : jsstring) (mode : TestMode)
  (mappings : list SignalMapping) :
  exists n, performLocalTransformation c mode mappings
            = Some (mkResult
                      (substAll (map (pairOf mode)
                                   (filter isActive (sortedMappings mode mappings))) c)
                      n).
Proof.
  unfold performLocalTransformation.
  destruct (forEach_code mode (sortedMappings mode mappings) c 0) as [n ->].
  now exists n.
Qed.

(** ** Round trip *)

Lemma startsWith_app_cases (p u x : jsstring) :
  startsWith p (u ++ x) = true ->
  startsWith p u = true \/ startsWith u p = true.
Proof.
  revert u; induction p as [|a p IH]; intros u H; [now left|].
  destruct u as [|b u]; [now right|].
  cbn [app startsWith] in *. apply andb_true_iff in H as [H1 H2].
  rewrite H1. apply cu_eqb_eq in H1; subst b. rewrite cu_eqb_refl.
  cbn [andb]. now apply IH.
Qed.

(** A stretch in which the pattern begins nowhere is copied. *)
Lemma replaceLit_pass (p template u x : jsstring) :
  p <> [] -> plainTemplate template = true ->
  (forall k, k < length u -> startsWith p (skipn k u ++ x) = false) ->
  replaceLit p template (u ++ x) = u ++ replaceLit p template x.
Proof.
  intros Hp Ht. induction u as [|c u IH]; intros H; [reflexivity|].
  cbn [app]. rewrite replaceLit_miss; [| exact Hp | exact Ht |].
  - f_equal. apply IH. intros k Hk. apply (H (S k)). cbn [length]. lia.
  - apply (H 0). cbn [length]. lia.
Qed.

Lemma renderT_app (w1 w2 : list segment) :
  renderT (w1 ++ w2) = renderT w1 ++ renderT w2.
Proof. apply flat_map_app. Qed.

Lemma renderS_app (w1 w2 : list segment) :
  renderS (w1 ++ w2) = renderS w1 ++ renderS w2.
Proof. apply flat_map_app. Qed.

Lemma renderT_ch (c : codeunit) (w : list segment) :
  renderT (Ch c :: w) = c :: renderT w.
Proof. reflexivity. Qed.

Lemma renderT_tok (s t : jsstring) (w : list segment) :
  renderT (Tok s t :: w) = t ++ renderT w.
Proof. reflexivity. Qed.

Lemma renderS_ch (c : codeunit) (w : list segment) :
  renderS (Ch c :: w) = c :: renderS w.
Proof. reflexivity. Qed.

Lemma renderS_tok (s t : jsstring) (w : list segment) :
  renderS (Tok s t :: w) = s ++ renderS w.
Proof. reflexivity. Qed.

Lemma renderT_chars (s : jsstring) : renderT (map Ch s) = s.
Proof. induction s as [|c s IH]; [reflexivity|]. cbn. now f_equal. Qed.

Lemma renderS_chars (s : jsstring) : renderS (map Ch s) = s.
Proof. induction s as [|c s IH]; [reflexivity|]. cbn. now f_equal. Qed.

Lemma marked_cons (L : list (jsstring * jsstring)) (g : segment)
  (w : list segment) :
  marked L (g :: w) <->
  match g with Ch _ => True | Tok s t => In (s, t) L end /\ marked L w.
Proof.
  unfold marked. split.
  - intros H. split; [apply (H g); now left|].
    intros g' Hg'. apply H. now right.
  - intros [H1 H2] g' [<-|Hg']; [exact H1|now apply H2].
Qed.

Lemma marked_app (L : list (jsstring * jsstring)) (w1 w2 : list segment) :
  marked L (w1 ++ w2) <-> marked L w1 /\ marked L w2.
Proof.
  unfold marked. split.
  - intros H. split; intros g Hg; apply H; apply in_or_app; auto.
  - intros [H1 H2] g Hg.
    apply in_app_or in Hg as [Hg|Hg]; [now apply H1|now apply H2].
Qed.

Lemma marked_weaken (L L' : list (jsstring * jsstring)) (w : list segment) :
  incl L L' -> marked L w -> marked L' w.
Proof.
  intros HL H g Hg. specialize (H g Hg). destruct g; [exact H|]. now apply HL.
Qed.

Lemma marked_chars (L : list (jsstring * jsstring)) (s : jsstring) :
  marked L (map Ch s).
Proof.
  intros g Hg. apply in_map_iff in Hg as (c & <- & Hc). exact I.
Qed.

Lemma marked_nil_tokens (w : list segment) :
  marked [] w -> renderT w = renderS w.
Proof.
  induction w as [|g w IH]; intros H; [reflexivity|].
  apply marked_cons in H as [Hg Hw]. destruct g as [c|s t]; [|destruct Hg].
  cbn. f_equal. now apply IH.
Qed.

Lemma startsWith_refl (p : jsstring) : startsWith p p = true.
Proof.
  pose proof (startsWith_app p []) as H. now rewrite app_nil_r in H.
Qed.

Lemma startsWith_app_cancel (v p x : jsstring) :
  startsWith (v ++ p) (v ++ x) = startsWith p x.
Proof.
  induction v as [|a v IH]; [reflexivity|].
  cbn [app startsWith]. now rewrite cu_eqb_refl, IH.
Qed.

(** A beginning of a text that the text is not a beginning of is followed
    by a code unit. *)
Lemma startsWith_proper (p x : jsstring) :
  startsWith p x = true -> startsWith x p = false ->
  exists d y, x = p ++ d :: y.
Proof.
  intros H H'. apply startsWith_inv in H as [rest ->].
  destruct rest as [|d y]; [|now exists d, y].
  rewrite app_nil_r, startsWith_refl in H'. discriminate.
Qed.

Lemma skipn_length_app (a b : jsstring) : skipn (length a) (a ++ b) = b.
Proof. induction a as [|c a IH]; [reflexivity|exact IH]. Qed.

Lemma firstn_length_app (a b : jsstring) : firstn (length a) (a ++ b) = a.
Proof. induction a as [|c a IH]; [reflexivity|]. cbn. now f_equal. Qed.

Lemma occursIn_app_r (z a b : jsstring) :
  occursIn z b -> occursIn z (a ++ b).
Proof.
  intros (x & y & ->). exists (a ++ x), y. now rewrite app_assoc.
Qed.

Lemma occursIn_begin (z x : jsstring) : occursIn z (z ++ x).
Proof. now exists [], x. Qed.

Lemma in_fieldsOf (P : list (jsstring * jsstring)) (u : jsstring) :
  In u (fieldsOf P) <-> exists s t, In (s, t) P /\ (u = s \/ u = t).
Proof.
  unfold fieldsOf. rewrite in_flat_map. split.
  - intros ([s t] & H & [<-|[<-|[]]]); exists s, t; auto.
  - intros (s & t & H & [->| ->]); exists (s, t); cbn; auto.
Qed.

Lemma startsWith_length (p x : jsstring) :
  startsWith p x = true -> length p <= length x.
Proof.
  intros H. apply startsWith_inv in H as [rest ->].
  rewrite length_app. lia.
Qed.

(** A text lies within itself at its start only. *)
Lemma within_itself_once (t : jsstring) (k : nat) :
  1 <= k -> k < length t -> startsWith t (skipn k t) = false.
Proof.
  intros K1 K2. destruct (startsWith t (skipn k t)) eqn:E; [|reflexivity].
  apply startsWith_length in E. rewrite length_skipn in E. lia.
Qed.

Section Segments.
Variable P : list (jsstring * jsstring).
Variable t0 : jsstring.
Hypothesis P_nonempty : forall s t, In (s, t) P -> s <> [] /\ t <> [].
Hypothesis P_plain :
  forall s t, In (s, t) P -> plainTemplate s = true /\ plainTemplate t = true.
Hypothesis P_absent : forall s t, In (s, t) P -> ~ occursIn t t0.
Hypothesis P_nested_tt :
  forall s t s' t' k, In (s, t) P -> In (s', t') P -> (s, t) <> (s', t') ->
    k < length t' -> startsWith t (skipn k t') = false.
Hypothesis P_nested_st :
  forall s t s' t' k, In (s, t) P -> In (s', t') P -> (s, t) <> (s', t') ->
    k < length t' -> startsWith s (skipn k t') = false.
Hypothesis P_nested_ts :
  forall s t s' t' k, In (s, t) P -> In (s', t') P -> (s, t) <> (s', t') ->
    k < length s -> startsWith t' (skipn k s) = false.
Hypothesis P_in :
  forall u s' t' k d y, In u (fieldsOf P) -> In (s', t') P ->
    1 <= k -> k < length u -> t' = skipn k u ++ d :: y ->
    ~ occursIn (firstn k u ++ s') t0.
Hypothesis P_out :
  forall u s' t' k d y, In u (fieldsOf P) -> In (s', t') P ->
    1 <= k -> k < length t' -> u = skipn k t' ++ d :: y ->
    ~ occursIn (s' ++ [d]) t0
    /\ forall s1 r1, In (s1, d :: r1) P -> ~ occursIn (s' ++ s1) t0.

(** A field that begins at an unmarked code unit of a marked reading of
    the source lies in unmarked code units, when no replacement of a marked
    rule lies within the field. *)
Lemma field_stays_unmarked (L : list (jsstring * jsstring)) (u : jsstring) :
  In u (fieldsOf P) -> incl L P ->
  (forall s' t' k, In (s', t') L -> 1 <= k -> k < length u ->
                   startsWith t' (skipn k u) = false) ->
  forall u2 x1 x w,
    u = x1 ++ u2 -> x1 <> [] -> marked L w ->
    (forall z, occursIn z (x1 ++ renderS w) -> occursIn z t0) ->
    renderT w = u2 ++ x ->
    exists w1, w = map Ch u2 ++ w1 /\ renderT w1 = x.
Proof.
  intros Hu HL Hin. induction u2 as [|a u2 IH]; intros x1 x w Eu Hx1 Hw Ht0 E.
  - now exists w.
  - destruct w as [|g w]; [discriminate|].
    apply marked_cons in Hw as [Hg Hw]. destruct g as [c|s' t'].
    + rewrite renderT_ch in E. cbn [app] in E. injection E as -> E.
      destruct (IH (x1 ++ [a]) x w) as (w1 & -> & E1).
      * now rewrite <- app_assoc.
      * destruct x1; discriminate.
      * exact Hw.
      * intros z Hz. apply Ht0. now rewrite renderS_ch, <- app_assoc in *.
      * exact E.
      * now exists w1.
    + exfalso. rewrite renderT_tok in E.
      assert (Hk : 1 <= length x1 /\ length x1 < length u).
      { rewrite Eu, length_app. cbn [length].
        destruct x1; [congruence|]. cbn [length]. lia. }
      assert (Es : skipn (length x1) u = a :: u2)
        by (rewrite Eu; apply skipn_length_app).
      assert (Ef : firstn (length x1) u = x1)
        by (rewrite Eu; apply firstn_length_app).
      assert (W : startsWith t' (a :: u2) = false).
      { rewrite <- Es. now apply (Hin s' t' (length x1) Hg). }
      assert (Sw : startsWith t' ((a :: u2) ++ x) = true)
        by (rewrite <- E; apply startsWith_app).
      apply startsWith_app_cases in Sw as [Sw|Sw]; [congruence|].
      destruct (startsWith_proper _ _ Sw W) as (d & y & Et).
      apply (@P_in u s' t' (length x1) d y Hu (HL _ Hg) (proj1 Hk) (proj2 Hk)).
      * now rewrite Es.
      * rewrite Ef. apply Ht0. rewrite renderS_tok, app_assoc.
        apply occursIn_begin.
Qed.

(** A field begins nowhere in a marked rule when neither lies within the
    other. *)
Lemma no_start_in_marked_rule (L : list (jsstring * jsstring))
  (u s' t' : jsstring) (w : list segment) (k : nat) :
  In u (fieldsOf P) -> In (s', t') P -> incl L P -> marked L w ->
  (forall z, occursIn z (s' ++ renderS w) -> occursIn z t0) ->
  k < length t' -> startsWith u (skipn k t') = false ->
  startsWith t' u = false ->
  startsWith u (skipn k t' ++ renderT w) = false.
Proof.
  intros Hu H' HL Hw Ht0 Hk W W0.
  destruct (startsWith u (skipn k t' ++ renderT w)) eqn:Sw; [|reflexivity].
  exfalso. pose proof Sw as S'.
  apply startsWith_app_cases in S' as [S'|S']; [congruence|].
  destruct (startsWith_proper _ _ S' W) as (d & y & Eu).
  destruct k as [|k].
  - cbn [skipn] in Eu. rewrite Eu, startsWith_app in W0. discriminate.
  - destruct (@P_out u s' t' (S k) d y Hu H') as [O1 O2]; [lia|exact Hk|exact Eu|].
    rewrite Eu, startsWith_app_cancel in Sw.
    destruct w as [|g w]; [discriminate|].
    apply marked_cons in Hw as [Hg _]. destruct g as [c|s1 t1].
    + rewrite renderT_ch in Sw. cbn [startsWith] in Sw.
      apply andb_true_iff in Sw as [Sw _]. apply cu_eqb_eq in Sw. subst c.
      apply O1, Ht0. rewrite renderS_ch.
      change (d :: renderS w) with ([d] ++ renderS w).
      rewrite app_assoc. apply occursIn_begin.
    + apply HL in Hg. destruct (P_nonempty _ _ Hg) as [_ Ht1].
      destruct t1 as [|c r1]; [congruence|].
      rewrite renderT_tok in Sw. cbn [app startsWith] in Sw.
      apply andb_true_iff in Sw as [Sw _]. apply cu_eqb_eq in Sw. subst c.
      apply (O2 s1 r1 Hg), Ht0. rewrite renderS_tok, app_assoc.
      apply occursIn_begin.
Qed.

(** Replacing a pattern by its replacement marks the occurrences found
    and changes nothing else; the text read with patterns stays. *)
Lemma forward_step (L : list (jsstring * jsstring)) (s t : jsstring) :
  In (s, t) P -> incl L P -> ~ In (s, t) L ->
  forall w, marked L w ->
    (forall z, occursIn z (renderS w) -> occursIn z t0) ->
    exists w', marked ((s, t) :: L) w'
               /\ renderT w' = replaceLit s t (renderT w)
               /\ renderS w' = renderS w.
Proof.
  intros Hst HL Hnew.
  destruct (P_nonempty _ _ Hst) as [Hs Ht].
  destruct (P_plain _ _ Hst) as [_ Hpt].
  assert (Hu : In s (fieldsOf P)) by (apply in_fieldsOf; exists s, t; auto).
  assert (Hother : forall s' t', In (s', t') L -> (s, t) <> (s', t')).
  { intros s' t' H' E. apply Hnew. now rewrite E. }
  assert (Hin : forall s' t' k, In (s', t') L -> k < length s ->
                                startsWith t' (skipn k s) = false).
  { intros s' t' k H' Hk.
    apply (@P_nested_ts s t s' t' k Hst (HL _ H') (Hother _ _ H') Hk). }
  intros w. remember (length w) as n eqn:Hn. revert w Hn.
  induction n as [n IH] using lt_wf_ind. intros w Hn Hw Ht0.
  destruct w as [|g w].
  - exists []. split; [intros g []|]. split; [|reflexivity].
    change (renderT []) with (@nil codeunit).
    now rewrite replaceLit_nil.
  - apply marked_cons in Hw as [Hg Hw]. destruct g as [c|s' t'].
    + assert (Ht0' : forall z, occursIn z (renderS w) -> occursIn z t0).
      { intros z Hz. apply Ht0. rewrite renderS_ch.
        now apply (occursIn_app_r [c]). }
      destruct (startsWith s (c :: renderT w)) eqn:E.
      * apply startsWith_inv in E as [rest E].
        destruct s as [|a s2]; [congruence|].
        cbn [app] in E. injection E as <- E.
        destruct (@field_stays_unmarked L (c :: s2) Hu HL) with
          (u2 := s2) (x1 := [c]) (x := rest) (w := w) as (w1 & Ew & E1); auto.
        { intros s' t' k H' _ Hk. exact (Hin s' t' k H' Hk). }
        { discriminate. }
        assert (Hw1 : marked L w1).
        { rewrite Ew in Hw. now apply marked_app in Hw. }
        destruct (IH (length w1)) with (w := w1) as (w1' & M1 & T1 & S1); auto.
        { subst n. rewrite Ew. cbn [length]. rewrite length_app. lia. }
        { intros z Hz. apply Ht0'. rewrite Ew, renderS_app.
          now apply occursIn_app_r. }
        exists (Tok (c :: s2) t :: w1'). split; [|split].
        -- apply marked_cons. split; [now left|exact M1].
        -- rewrite renderT_ch, E.
           change (c :: s2 ++ rest) with ((c :: s2) ++ rest).
           rewrite replaceLit_hit by assumption.
           now rewrite renderT_tok, T1, E1.
        -- rewrite Ew, renderS_ch, renderS_app, renderS_chars, renderS_tok, S1.
           reflexivity.
      * destruct (IH (length w)) with (w := w) as (w' & M1 & T1 & S1); auto.
        { subst n. cbn [length]. lia. }
        exists (Ch c :: w'). split; [|split].
        -- apply marked_cons. now split.
        -- rewrite !renderT_ch, replaceLit_miss by assumption. now rewrite T1.
        -- now rewrite !renderS_ch, S1.
    + assert (Ht0' : forall z, occursIn z (renderS w) -> occursIn z t0).
      { intros z Hz. apply Ht0. rewrite renderS_tok.
        now apply occursIn_app_r. }
      destruct (IH (length w)) with (w := w) as (w' & M1 & T1 & S1); auto.
      { subst n. cbn [length]. lia. }
      exists (Tok s' t' :: w'). split; [|split].
      -- apply marked_cons. split; [now right|exact M1].
      -- rewrite !renderT_tok.
         rewrite replaceLit_pass; [now rewrite T1 | exact Hs | exact Hpt |].
         intros k Hk.
         apply (@no_start_in_marked_rule L s s' t' w k); auto.
         ++ apply (@P_nested_st s t s' t' k Hst (HL _ Hg) (Hother _ _ Hg) Hk).
         ++ apply (Hin s' t' 0 Hg). destruct s; [congruence|]. cbn [length]. lia.
      -- now rewrite !renderS_tok, S1.
Qed.

Lemma forward_pass (F : list (jsstring * jsstring)) :
  incl F P -> NoDup F ->
  forall L w, incl L P -> (forall p, In p F -> ~ In p L) -> marked L w ->
    (forall z, occursIn z (renderS w) -> occursIn z t0) ->
    exists w', marked (F ++ L) w'
               /\ renderT w' = substAll F (renderT w)
               /\ renderS w' = renderS w.
Proof.
  induction F as [|[s t] F IH]; intros HF HD L w HL Hnew Hw Ht0.
  - exists w. auto.
  - apply NoDup_cons_iff in HD as [Hs HD].
    destruct (@forward_step L s t) with (w := w) as (w1 & M1 & T1 & S1); auto.
    { apply HF. now left. }
    { apply Hnew. now left. }
    destruct (IH (fun x Hx => HF x (or_intror Hx)) HD ((s, t) :: L) w1)
      as (w2 & M2 & T2 & S2); auto.
    { intros x [<-|Hx]; [apply HF; now left|now apply HL]. }
    { intros p Hp [<-|Hx]; [contradiction|].
      apply (Hnew p); [now right|exact Hx]. }
    { now rewrite S1. }
    exists w2. split; [|split].
    + eapply marked_weaken; [|exact M2].
      intros x Hx. apply in_app_or in Hx as [Hx|[<-|Hx]].
      * right. apply in_or_app. now left.
      * now left.
      * right. apply in_or_app. now right.
    + cbn [substAll]. now rewrite <- T1.
    + congruence.
Qed.

(** Replacing a replacement by its pattern unmarks the rules that have
    this replacement and changes nothing else. *)
Lemma backward_step (L L' : list (jsstring * jsstring)) (s t : jsstring) :
  In (s, t) P -> incl L P ->
  (forall s' t', In (s', t') L -> t' <> t -> In (s', t') L') ->
  forall w, marked L w ->
    (forall z, occursIn z (renderS w) -> occursIn z t0) ->
    marked L' (expand t w)
    /\ renderT (expand t w) = replaceLit t s (renderT w)
    /\ renderS (expand t w) = renderS w.
Proof.
  intros Hst HL HL'.
  destruct (P_nonempty _ _ Hst) as [Hs Ht].
  destruct (P_plain _ _ Hst) as [Hps _].
  assert (Hu : In t (fieldsOf P)) by (apply in_fieldsOf; exists s, t; auto).
  assert (Hlen : 0 < length t) by (destruct t; [congruence|cbn [length]; lia]).
  assert (Hin : forall s' t' k, In (s', t') L -> 1 <= k -> k < length t ->
                                startsWith t' (skipn k t) = false).
  { intros s' t' k H' K1 K2. destruct (str_eqb t' t) eqn:E.
    - apply str_eqb_eq in E. subst t'. now apply within_itself_once.
    - apply (@P_nested_tt s' t' s t k (HL _ H') Hst); [|exact K2].
      intros [= _ ->]. rewrite str_eqb_refl in E. discriminate. }
  induction w as [|g w IH]; intros Hw Ht0.
  - split; [intros g []|]. split; [|reflexivity].
    change (renderT (expand t [])) with (@nil codeunit).
    change (renderT []) with (@nil codeunit).
    now rewrite replaceLit_nil.
  - apply marked_cons in Hw as [Hg Hw].
    assert (Ht0' : forall z, occursIn z (renderS w) -> occursIn z t0).
    { intros z Hz. apply Ht0. destruct g as [c|s' t'].
      - rewrite renderS_ch. now apply (occursIn_app_r [c]).
      - rewrite renderS_tok. now apply occursIn_app_r. }
    destruct (IH Hw Ht0') as (M1 & T1 & S1). destruct g as [c|s' t'].
    + change (expand t (Ch c :: w)) with (Ch c :: expand t w).
      split; [|split].
      * apply marked_cons. now split.
      * rewrite !renderT_ch, replaceLit_miss; [now rewrite T1|exact Ht|exact Hps|].
        destruct (startsWith t (c :: renderT w)) eqn:E; [|reflexivity].
        exfalso. apply startsWith_inv in E as [rest E].
        destruct t as [|a t2]; [congruence|].
        cbn [app] in E. injection E as <- E.
        destruct (@field_stays_unmarked L (c :: t2) Hu HL Hin) with
          (u2 := t2) (x1 := [c]) (x := rest) (w := w) as (w1 & Ew & E1); auto.
        { discriminate. }
        apply (@P_absent _ _ Hst), Ht0.
        rewrite Ew, renderS_ch, renderS_app, renderS_chars.
        change (c :: t2 ++ renderS w1) with ((c :: t2) ++ renderS w1).
        apply occursIn_begin.
      * now rewrite !renderS_ch, S1.
    + pose proof (HL _ Hg) as Hg'.
      destruct (P_nonempty _ _ Hg') as [Hs' Ht'].
      change (expand t (Tok s' t' :: w))
        with ((if str_eqb t' t then map Ch s' else [Tok s' t']) ++ expand t w).
      destruct (str_eqb t' t) eqn:E.
      * apply str_eqb_eq in E. subst t'.
        assert (s = s') as <-.
        { destruct (str_eqb s s') eqn:Es; [now apply str_eqb_eq|].
          exfalso.
          assert (Hd : (s, t) <> (s', t)).
          { intros [= ->]. rewrite str_eqb_refl in Es. discriminate. }
          pose proof (@P_nested_tt s t s' t 0 Hst Hg' Hd Hlen) as N.
          cbn [skipn] in N. rewrite startsWith_refl in N. discriminate. }
        split; [|split].
        -- apply marked_app. split; [apply marked_chars|exact M1].
        -- rewrite renderT_app, renderT_chars, renderT_tok, T1.
           now rewrite replaceLit_hit.
        -- now rewrite renderS_app, renderS_chars, renderS_tok, S1.
      * assert (Hne : t' <> t).
        { intros ->. rewrite str_eqb_refl in E. discriminate. }
        split; [|split].
        -- apply marked_app. split; [|exact M1].
           intros g [<-|[]]. now apply HL'.
        -- cbn [app]. rewrite !renderT_tok, T1.
           rewrite replaceLit_pass; [reflexivity|exact Ht|exact Hps|].
           intros k Hk.
           apply (@no_start_in_marked_rule L t s' t' w k); auto.
           ++ apply (@P_nested_tt s t s' t' k Hst Hg'); [|exact Hk].
              intros [= _ H]. now apply Hne.
           ++ apply (@P_nested_tt s' t' s t 0 Hg' Hst); [|exact Hlen].
              intros [= _ H]. now apply Hne.
        -- cbn [app]. now rewrite !renderS_tok, S1.
Qed.

Lemma backward_pass (B : list (jsstring * jsstring)) :
  incl B P ->
  forall w, marked B w ->
    (forall z, occursIn z (renderS w) -> occursIn z t0) ->
    unsubstAll B (renderT w) = renderS w.
Proof.
  induction B as [|[s t] B IH]; intros HB w Hw Ht0.
  - now apply marked_nil_tokens.
  - destruct (@backward_step ((s, t) :: B) B s t) with (w := w)
      as (M1 & T1 & S1); auto.
    { apply HB. now left. }
    { intros s' t' [[= -> ->]|H] Hne; [congruence|exact H]. }
    cbn [unsubstAll]. rewrite <- T1, <- S1. apply IH; [|exact M1|].
    + intros x Hx. apply HB. now right.
    + now rewrite S1.
Qed.

(** The replacements made in one order and undone in another restore the
    source. *)
Lemma round_trip_pairs (F B : list (jsstring * jsstring)) :
  incl F B -> incl B P -> NoDup F ->
  unsubstAll B (substAll F t0) = t0.
Proof.
  intros HFB HB HD.
  assert (HF : incl F P) by (intros x Hx; auto).
  destruct (@forward_pass F HF HD [] (map Ch t0)) as (w & M & T & S).
  { intros x []. }
  { intros p _ []. }
  { apply marked_chars. }
  { now rewrite renderS_chars. }
  rewrite renderT_chars in T. rewrite renderS_chars in S.
  rewrite <- T, <- S. apply backward_pass; [exact HB| |now rewrite S].
  eapply marked_weaken; [|exact M].
  intros x Hx. rewrite app_nil_r in Hx. auto.
Qed.
End Segments.

Lemma substAll_opposite (mode : TestMode) (l : list SignalMapping) (x : jsstring) :
  substAll (map (pairOf (opposite mode)) l) x = unsubstAll (map (pairOf mode) l) x.
Proof.
  revert x; induction l as [|m l IH]; intros x; [reflexivity|].
  cbn [map substAll unsubstAll pairOf]. rewrite IH.
  now destruct mode.
Qed.

Lemma in_active_pairs (mode : TestMode) (l : list SignalMapping) (s t : jsstring) :
  In (s, t) (map (pairOf mode) (filter isActive l)) <->
  exists m, In m l /\ isActive m = true
            /\ s = sourceOf mode m /\ t = targetOf mode m.
Proof.
  rewrite in_map_iff. split.
  - intros (m & [= <- <-] & Hm). apply filter_In in Hm as [H1 H2]. now exists m.
  - intros (m & H1 & H2 & -> & ->). exists m. split; [reflexivity|].
    apply filter_In. now split.
Qed.

Lemma active_fields_nonempty (mode : TestMode) (m : SignalMapping) :
  isActive m = true -> sourceOf mode m <> [] /\ targetOf mode m <> [].
Proof.
  unfold isActive. intros H. apply negb_true_iff, orb_false_iff in H as [H1 H2].
  destruct mode; cbn [sourceOf targetOf]; split; intros E;
    rewrite E in *; discriminate.
Qed.

Lemma in_sortedMappings (mode : TestMode) (l : list SignalMapping)
  (m : SignalMapping) :
  In m (sortedMappings mode l) <-> In m l.
Proof.
  split; apply Permutation_in;
    [apply Permutation_sym|]; apply (sort_perm (byLengthDesc mode) l).
Qed.

Lemma notin_existsb (c : codeunit) (l : jsstring) :
  existsb (cu_eqb c) l = false -> ~ In c l.
Proof.
  intros H Hin. assert (existsb (cu_eqb c) l = true); [|congruence].
  apply existsb_exists. exists c. split; [exact Hin|apply cu_eqb_refl].
Qed.

Lemma unitAfter_split (v y : jsstring) (d : codeunit) :
  unitAfter v (v ++ d :: y) = Some d.
Proof.
  unfold unitAfter. rewrite startsWith_app.
  induction v as [|a v IH]; [reflexivity|exact IH].
Qed.

Lemma pair_eqb_eq (p q : jsstring * jsstring) : pair_eqb p q = true <-> p = q.
Proof.
  destruct p as [a b], q as [c d]. unfold pair_eqb. cbn [fst snd].
  rewrite andb_true_iff, !str_eqb_eq. split.
  - now intros [-> ->].
  - now intros [= -> ->].
Qed.

Lemma distinct_NoDup (P : list (jsstring * jsstring)) :
  distinct P = true -> NoDup P.
Proof.
  induction P as [|p P IH]; cbn [distinct]; intros H; [constructor|].
  apply andb_true_iff in H as [H1 H2]. constructor; [|now apply IH].
  intros Hin. apply negb_true_iff in H1.
  assert (existsb (pair_eqb p) P = true); [|congruence].
  apply existsb_exists. exists p. split; [exact Hin|now apply pair_eqb_eq].
Qed.

Lemma nestedNowhere_sound (P : list (jsstring * jsstring)) :
  nestedNowhere P = true ->
  forall s t s' t' k, In (s, t) P -> In (s', t') P -> (s, t) <> (s', t') ->
    (k < length t' -> startsWith t (skipn k t') = false)
    /\ (k < length t' -> startsWith s (skipn k t') = false)
    /\ (k < length s -> startsWith t' (skipn k s) = false).
Proof.
  unfold nestedNowhere. intros H s t s' t' k Hin Hin' Hd.
  rewrite forallb_forall in H. specialize (H _ Hin').
  rewrite forallb_forall in H. specialize (H _ Hin).
  destruct (pair_eqb (s, t) (s', t')) eqn:E;
    [apply pair_eqb_eq in E; contradiction|].
  cbn [orb fst snd] in H. apply andb_true_iff in H as [H1 H2].
  rewrite forallb_forall in H1, H2.
  split; [|split]; intros Hk.
  - assert (Hin_k : In k (seq 0 (length t'))) by (apply in_seq; lia).
    apply H1, andb_true_iff in Hin_k as [Q _]. now apply negb_true_iff in Q.
  - assert (Hin_k : In k (seq 0 (length t'))) by (apply in_seq; lia).
    apply H1, andb_true_iff in Hin_k as [_ Q]. now apply negb_true_iff in Q.
  - assert (Hin_k : In k (seq 0 (length s))) by (apply in_seq; lia).
    apply H2 in Hin_k. now apply negb_true_iff in Hin_k.
Qed.

Lemma runningIn_in (P : list (jsstring * jsstring)) (u s' t' y : jsstring)
  (k : nat) (d : codeunit) :
  In u (fieldsOf P) -> In (s', t') P -> 1 <= k -> k < length u ->
  t' = skipn k u ++ d :: y ->
  In (firstn k u ++ s') (runningIn P).
Proof.
  intros Hu H' K1 K2 E. unfold runningIn.
  apply in_flat_map. exists u. split; [exact Hu|].
  apply in_flat_map. exists k. split; [apply in_seq; lia|].
  apply in_flat_map. exists (s', t'). split; [exact H'|]. cbn [fst snd].
  rewrite E, unitAfter_split. now left.
Qed.

Lemma runningOut_in (P : list (jsstring * jsstring)) (u s' t' y : jsstring)
  (k : nat) (d : codeunit) :
  In u (fieldsOf P) -> In (s', t') P -> 1 <= k -> k < length t' ->
  u = skipn k t' ++ d :: y ->
  In (s' ++ [d]) (runningOut P)
  /\ forall s1 r1, In (s1, d :: r1) P -> In (s' ++ s1) (runningOut P).
Proof.
  intros Hu H' K1 K2 E.
  assert (Hx : forall x,
             In x ((s' ++ [d])
                   :: map (fun q => s' ++ fst q)
                        (filter (fun q => startsWith [d] (snd q)) P)) ->
             In x (runningOut P)).
  { intros x Hx. unfold runningOut.
    apply in_flat_map. exists (s', t'). split; [exact H'|]. cbn [fst snd].
    apply in_flat_map. exists k. split; [apply in_seq; lia|].
    apply in_flat_map. exists u. split; [exact Hu|].
    rewrite E at 1. now rewrite unitAfter_split. }
  split; [apply Hx; now left|].
  intros s1 r1 H1. apply Hx. right.
  apply in_map_iff. exists (s1, d :: r1). split; [reflexivity|].
  apply filter_In. split; [exact H1|]. cbn. now rewrite cu_eqb_refl.
Qed.

Lemma holdsNone_sound (t z : jsstring) (l : list jsstring) :
  holdsNone t l = true -> In z l -> ~ occursIn z t.
Proof.
  unfold holdsNone. rewrite forallb_forall. intros H Hz Ho.
  apply H, negb_true_iff in Hz. apply includes_occursIn in Ho. congruence.
Qed.

(** Under the conditions of the round trip the replacements made in the
    order of one mode and undone in the order of the other restore the
    text. *)
Lemma round_trip_texts (mode : TestMode) (mappings : list SignalMapping)
  (t : jsstring) :
  plainRules mappings = true ->
  notNested mode mappings = true ->
  holdsNone t (hazards mode mappings) = true ->
  unsubstAll
    (map (pairOf mode) (filter isActive (sortedMappings (opposite mode) mappings)))
    (substAll
       (map (pairOf mode) (filter isActive (sortedMappings mode mappings))) t)
  = t.
Proof.
  intros HP HN HH. unfold notNested in HN.
  apply andb_true_iff in HN as [HD HN].
  pose proof (nestedNowhere_sound _ HN) as N.
  assert (A : forall z, In z (hazards mode mappings) -> ~ occursIn z t)
    by (intros z; now apply holdsNone_sound).
  unfold hazards in A.
  apply (@round_trip_pairs (activePairs mode mappings) t).
  - intros s t' H. apply in_active_pairs in H as (m & _ & Hm & -> & ->).
    now apply active_fields_nonempty.
  - intros s t' H. apply in_active_pairs in H as (m & Hin & Hm & -> & ->).
    unfold plainRules in HP. rewrite forallb_forall in HP.
    assert (Hf : In m (filter isActive mappings)) by (apply filter_In; auto).
    apply HP, andb_true_iff in Hf as [H1 H2].
    destruct mode; cbn [sourceOf targetOf]; auto.
  - intros s t' H. apply A. apply in_or_app. left.
    apply in_map_iff. now exists (s, t').
  - intros s t1 s' t' k H H' Hd. now apply (N s t1 s' t' k H H' Hd).
  - intros s t1 s' t' k H H' Hd. now apply (N s t1 s' t' k H H' Hd).
  - intros s t1 s' t' k H H' Hd. now apply (N s t1 s' t' k H H' Hd).
  - intros u s' t' k d y Hu H' K1 K2 E. apply A.
    apply in_or_app. right. apply in_or_app. left.
    now apply (@runningIn_in _ u s' t' y k d).
  - intros u s' t' k d y Hu H' K1 K2 E.
    destruct (@runningOut_in _ u s' t' y k d Hu H' K1 K2 E) as [O1 O2].
    split; [|intros s1 r1 H1]; apply A;
      apply in_or_app; right; apply in_or_app; right; eauto.
  - intros [s t'] H. apply in_active_pairs in H as (m & Hin & Hm & -> & ->).
    apply in_active_pairs. exists m. rewrite in_sortedMappings in *. auto.
  - intros [s t'] H. apply in_active_pairs in H as (m & Hin & Hm & -> & ->).
    apply in_active_pairs. exists m. rewrite in_sortedMappings in *. auto.
  - rewrite filter_sortedMappings.
    apply (Permutation_NoDup (l := activePairs mode mappings));
      [|now apply distinct_NoDup].
    apply Permutation_map, sort_perm.
Qed.

(** C3 as stated fails: with one rule there is no other rule to clash with,
    yet a text that already holds the rule's replacement does not come
    back. *)
Lemma round_trip_loses_converted_text :
  independentRules [rule "1" "$Speed" "sv::Speed"]
  /\ roundTrip SIL [rule "1" "$Speed" "sv::Speed"] (js "sv::Speed = $Speed;")
     = Some (js "$Speed = $Speed;")
  /\ js "$Speed = $Speed;" <> js "sv::Speed = $Speed;".
Proof.
  split; [|split; [reflexivity|discriminate]].
  intros i j ri rj Hij Hi Hj. exfalso. apply Hij.
  destruct i as [|[|i]], j as [|[|j]]; try discriminate; reflexivity.
Qed.

(** Keeping replacements out of the source is not enough either.  The two
    rules below are independent as the specification words it and the source
    holds neither replacement, but the replacement [bz] written next to the
    [a] of the source makes the pattern [ab] of the second rule. *)
Lemma round_trip_loses_text_at_a_seam :
  independentRules [rule "1" "yy" "bz"; rule "2" "ab" "q"]
  /\ plainRules [rule "1" "yy" "bz"; rule "2" "ab" "q"] = true
  /\ notNested SIL [rule "1" "yy" "bz"; rule "2" "ab" "q"] = true
  /\ holdsNone (js "ayy")
       (map snd (activePairs SIL [rule "1" "yy" "bz"; rule "2" "ab" "q"])) = true
  /\ In (js "ayy") (hazards SIL [rule "1" "yy" "bz"; rule "2" "ab" "q"])
  /\ roundTrip SIL [rule "1" "yy" "bz"; rule "2" "ab" "q"] (js "ayy")
     = Some (js "abz")
  /\ js "abz" <> js "ayy".
Proof.
  split; [|repeat split; try reflexivity; try discriminate].
  - intros i j ri rj Hij Hi Hj.
    destruct i as [|[|[|i]]], j as [|[|[|j]]]; try discriminate;
      try congruence;
      injection Hi as <-; injection Hj as <-;
      repeat split; intros H; apply includes_occursIn in H; discriminate.
  - vm_compute. tauto.
Qed.

Lemma within_occurs (a b : jsstring) (k : nat) :
  startsWith b (skipn k a) = true -> occursIn b a.
Proof.
  intros H. apply startsWith_inv in H as [rest H].
  exists (firstn k a), rest. now rewrite <- H, firstn_skipn.
Qed.

Lemma occursIn_refl (a : jsstring) : occursIn a a.
Proof. exists [], []. now rewrite app_nil_r. Qed.

Lemma distinct_active_pairs (mode : TestMode) (l : list SignalMapping) :
  (forall i j a b, i <> j -> nth_error l i = Some a -> nth_error l j = Some b ->
                   pairOf mode a <> pairOf mode b) ->
  distinct (activePairs mode l) = true.
Proof.
  unfold activePairs. induction l as [|a l IH]; intros H; [reflexivity|].
  assert (IH' : distinct (map (pairOf mode) (filter isActive l)) = true).
  { apply IH. intros i j x y Hij Hi Hj.
    apply (H (S i) (S j) x y); [lia|exact Hi|exact Hj]. }
  cbn [filter]. destruct (isActive a); [|exact IH'].
  cbn [map distinct]. rewrite IH', andb_true_r. apply negb_true_iff.
  destruct (existsb (pair_eqb (pairOf mode a))
              (map (pairOf mode) (filter isActive l))) eqn:E; [|reflexivity].
  exfalso. apply existsb_exists in E as (q & Hq & E).
  apply pair_eqb_eq in E. subst q.
  apply in_map_iff in Hq as (b & Eb & Hb). apply filter_In in Hb as [Hb _].
  apply In_nth_error in Hb as [j Hj].
  apply (H 0 (S j) a b); [lia|reflexivity|exact Hj|now symmetry].
Qed.

(** The premise of the round trip as the specification words it implies
    the condition on rules of the amended round trip, in both modes. *)
Lemma independent_rules_not_nested (mode : TestMode)
  (mappings : list SignalMapping) :
  independentRules mappings -> notNested mode mappings = true.
Proof.
  intros H. unfold notNested. apply andb_true_iff. split.
  - apply distinct_active_pairs. intros i j a b Hij Hi Hj E.
    destruct (H i j a b Hij Hi Hj) as (H1 & H2 & _).
    injection E as E1 E2.
    destruct mode; cbn [sourceOf targetOf] in E1, E2.
    + apply H1. rewrite E2. apply occursIn_refl.
    + apply H1. rewrite E1. apply occursIn_refl.
  - assert (D : forall a b, In a mappings -> In b mappings ->
                  pairOf mode a <> pairOf mode b ->
                  ~ occursIn (targetOf mode a) (targetOf mode b)
                  /\ ~ occursIn (sourceOf mode a) (targetOf mode b)
                  /\ ~ occursIn (targetOf mode b) (sourceOf mode a)).
    { intros a b Ha Hb Hd.
      apply In_nth_error in Ha as [i Hi]. apply In_nth_error in Hb as [j Hj].
      assert (Hij : i <> j) by (intros ->; congruence).
      destruct (H i j a b Hij Hi Hj) as (H1 & H2 & H3 & H4).
      destruct (H j i b a (not_eq_sym Hij) Hj Hi) as (_ & _ & H3' & H4').
      destruct mode; cbn [sourceOf targetOf]; auto. }
    unfold nestedNowhere. apply forallb_forall. intros outer Ho.
    apply forallb_forall. intros inner Hi.
    destruct (pair_eqb inner outer) eqn:E; [reflexivity|]. cbn [orb].
    apply in_map_iff in Ho as (b & <- & Hb). apply filter_In in Hb as [Hb _].
    apply in_map_iff in Hi as (a & <- & Ha). apply filter_In in Ha as [Ha _].
    destruct (D a b Ha Hb) as (D1 & D2 & D3).
    { intros Eq. rewrite Eq, (proj2 (pair_eqb_eq _ _) eq_refl) in E.
      discriminate. }
    cbn [pairOf fst snd]. apply andb_true_iff. split.
    + apply forallb_forall. intros k _. apply andb_true_iff.
      split; apply negb_true_iff.
      * destruct (startsWith (targetOf mode a) (skipn k (targetOf mode b))) eqn:W;
          [|reflexivity].
        exfalso. apply D1. now apply within_occurs in W.
      * destruct (startsWith (sourceOf mode a) (skipn k (targetOf mode b))) eqn:W;
          [|reflexivity].
        exfalso. apply D2. now apply within_occurs in W.
    + apply forallb_forall. intros k _. apply negb_true_iff.
      destruct (startsWith (targetOf mode b) (skipn k (sourceOf mode a))) eqn:W;
        [|reflexivity].
      exfalso. apply D3. now apply within_occurs in W.
Qed.

(** The rules of the three presets meet the conditions on rules in both
    modes, and the default source holds none of the hazards of the default
    rules. *)
Lemma presets_meet_the_conditions :
  forall name rules, In (name, rules) MAPPING_PRESETS ->
    plainRules rules = true
    /\ notNested SIL rules = true /\ notNested HIL rules = true.
Proof.
  intros name rules [[= <- <-]|[[= <- <-]|[[= <- <-]|[]]]];
    repeat split; vm_compute; reflexivity.
Qed.

(** C3, amended. Transforming a text and transforming the result in the
    opposite mode returns the text when, for the rules with two non-empty
    fields read in the mode of the first transformation: no field holds a
    dollar pattern; no two rules have the same pattern and the same
    replacement, the replacement of a rule holds neither the pattern nor the
    replacement of another rule, and the pattern of a rule does not hold the
    replacement of another rule; and the text holds none of the hazards of
    the rules: no replacement; where a proper end of a field is a proper
    beginning of a replacement, not the part of the field before that end
    followed by the pattern of that replacement; where a proper end of a
    replacement is a proper beginning of a field, not the pattern of that
    replacement followed by the next code unit of the field or by the
    pattern of a rule whose replacement starts with that code unit. *)
Theorem round_trip_restored (mode : TestMode) (mappings : list SignalMapping)
  (t : jsstring) :
  plainRules mappings = true ->
  notNested mode mappings = true ->
  holdsNone t (hazards mode mappings) = true ->
  roundTrip mode mappings t = Some t.
Proof.
  intros HP HN HH. unfold roundTrip.
  destruct (transform_code t mode mappings) as [n1 ->]. cbn [code].
  match goal with
  | |- context [performLocalTransformation ?x (opposite mode) mappings] =>
      destruct (transform_code x (opposite mode) mappings) as [n2 ->]
  end.
  cbn [code]. f_equal. rewrite substAll_opposite.
  now apply round_trip_texts.
Qed.

Lemma round_trip_restored_witness :
  roundTrip SIL DEFAULT_MAPPINGS DEFAULT_CAPL_CODE = Some DEFAULT_CAPL_CODE
  /\ roundTrip HIL BODY_CONTROL
       (js "if (sysvar::Body::DoorState && sysvar::Body::WindowPosition > 0) sysvar::Bus::InjectFrame(msgBody);")
     = Some (js "if (sysvar::Body::DoorState && sysvar::Body::WindowPosition > 0) sysvar::Bus::InjectFrame(msgBody);").
Proof.
  split; apply round_trip_restored; vm_compute; reflexivity.
Defined.

(* ================================================================== *)
(** * Further properties of the engine *)

(** X1. The code sorts all rules and skips those with an empty field inside
    the loop; dropping them first and sorting the rest gives the same
    result. *)
Theorem skipping_commutes_with_sorting (c : jsstring) (mode : TestMode)
  (mappings : list SignalMapping) :
  performLocalTransformation c mode mappings
  = applyInOrder mode (sortedMappings mode (filter isActive mappings)) c.
Proof.
  unfold performLocalTransformation, applyInOrder.
  rewrite forEach_filter_active.
  now rewrite (filter_sortedMappings mode isActive mappings).
Qed.

Lemma single_rule (c : jsstring) (mode : TestMode) (m : SignalMapping) :
  isActive m = true ->
  performLocalTransformation c mode [m]
  = Some (mkResult (replaceLit (sourceOf mode m) (targetOf mode m) c)
                   (Z.of_nat (countLit (sourceOf mode m) c))).
Proof.
  intros H. unfold performLocalTransformation.
  change (sortedMappings mode [m]) with [m]. cbn [forEach].
  now rewrite applyMapping_active, H.
Qed.

(** X2. One active rule whose replacement holds no dollar pattern scans
    the text from the left: where the text continues with the pattern, the
    replacement is written as it is stored, one change is counted and the
    scan goes on behind the pattern; elsewhere one code unit is copied. *)
Theorem single_rule_scan (mode : TestMode) (m : SignalMapping)
  (rest code' : jsstring) (n : Z) :
  isActive m = true ->
  plainTemplate (targetOf mode m) = true ->
  performLocalTransformation rest mode [m] = Some (mkResult code' n) ->
  performLocalTransformation (sourceOf mode m ++ rest) mode [m]
  = Some (mkResult (targetOf mode m ++ code') (n + 1))
  /\ forall c, startsWith (sourceOf mode m) (c :: rest) = false ->
       performLocalTransformation (c :: rest) mode [m]
       = Some (mkResult (c :: code') n).
Proof.
  intros Ha Hp. rewrite !single_rule by exact Ha. intros [= <- <-].
  destruct (active_fields_nonempty mode m Ha) as [Hs _].
  split.
  - rewrite replaceLit_hit, countLit_hit by assumption.
    f_equal. f_equal. lia.
  - intros c Hc. rewrite single_rule by exact Ha.
    rewrite replaceLit_miss, countLit_miss by assumption. reflexivity.
Qed.

Lemma single_rule_scan_witness :
  performLocalTransformation (js "$A" ++ js " $A $A") SIL [rule "1" "$A" "$X"]
  = Some (mkResult (js "$X" ++ js " $X $X") (2 + 1))
  /\ forall c, startsWith (js "$A") (c :: js " $A $A") = false ->
       performLocalTransformation (c :: js " $A $A") SIL [rule "1" "$A" "$X"]
       = Some (mkResult (c :: js " $X $X") 2).
Proof.
  apply (@single_rule_scan SIL (rule "1" "$A" "$X")); reflexivity.
Defined.

Lemma forEach_empty_text (mode : TestMode) (l : list SignalMapping) (n : Z) :
  forEach mode l ([], n) = Some ([], n).
Proof.
  induction l as [|m l IH]; [reflexivity|].
  cbn [forEach]. rewrite applyMapping_active.
  destruct (isActive m) eqn:E; [|exact IH].
  destruct (active_fields_nonempty mode m E) as [Hs _].
  rewrite replaceLit_nil, countLit_nil by exact Hs.
  rewrite Z.add_0_r. exact IH.
Qed.

(** X3. The empty text stays empty with no change counted, whatever the
    rules. *)
Theorem empty_text_unchanged (mode : TestMode) (mappings : list SignalMapping) :
  performLocalTransformation [] mode mappings = Some (mkResult [] 0).
Proof.
  unfold performLocalTransformation. now rewrite forEach_empty_text.
Qed.

Lemma replaceLit_length (p t x : jsstring) :
  p <> [] -> plainTemplate t = true ->
  length (replaceLit p t x) + countLit p x * length p
  = length x + countLit p x * length t.
Proof.
  intros Hp Ht.
  assert (G : forall n y, length y <= n ->
            length (replaceLit p t y) + countLit p y * length p
            = length y + countLit p y * length t);
    [|now apply (G (length x))].
  induction n as [|n IH]; intros y Hy.
  - destruct y; [|cbn in Hy; lia].
    rewrite replaceLit_nil, countLit_nil by assumption. reflexivity.
  - destruct y as [|c y].
    { rewrite replaceLit_nil, countLit_nil by assumption. reflexivity. }
    destruct (startsWith p (c :: y)) eqn:E.
    + apply startsWith_inv in E as [rest E]. rewrite E in *.
      rewrite replaceLit_hit, countLit_hit by assumption.
      assert (H : length rest <= n).
      { rewrite length_app in Hy. destruct p; [congruence|]. cbn in Hy. lia. }
      specialize (IH rest H). rewrite !length_app. cbn [Nat.mul]. lia.
    + rewrite replaceLit_miss, countLit_miss by assumption.
      assert (H : length y <= n) by (cbn in Hy; lia).
      specialize (IH y H). cbn [length]. lia.
Qed.

(** X4. The count accounts for the length of the result: with one active
    rule and a replacement free of dollar patterns, each change trades the
    length of the pattern for the length of the replacement. *)
Theorem single_rule_length (c : jsstring) (mode : TestMode) (m : SignalMapping)
  (r : TransformationResult) :
  isActive m = true ->
  plainTemplate (targetOf mode m) = true ->
  performLocalTransformation c mode [m] = Some r ->
  (strlen (code r)
   = strlen c + changes r * (strlen (targetOf mode m) - strlen (sourceOf mode m)))%Z.
Proof.
  intros Ha Hp. rewrite single_rule by exact Ha. intros [= <-].
  destruct (active_fields_nonempty mode m Ha) as [Hs _].
  pose proof (@replaceLit_length _ _ c Hs Hp) as H.
  cbn [code changes]. unfold strlen. nia.
Qed.

Lemma single_rule_length_witness :
  (strlen (js "sysvar::Engine::Speed = 0; sysvar::Engine::Speed++;")
   = strlen (js "$EngineSpeed = 0; $EngineSpeed++;")
     + 2 * (strlen (js "sysvar::Engine::Speed") - strlen (js "$EngineSpeed")))%Z.
Proof.
  apply (@single_rule_length (js "$EngineSpeed = 0; $EngineSpeed++;") SIL
           (rule "1" "$EngineSpeed" "sysvar::Engine::Speed")
           (mkResult (js "sysvar::Engine::Speed = 0; sysvar::Engine::Speed++;") 2));
    reflexivity.
Defined.

(* ================================================================== *)
(** * Further properties of the exported script *)

Lemma cli_applyMapping_total (mode : jsstring) (m : Cli.Mapping)
  (st : jsstring * Z) :
  exists st', Cli.applyMapping mode m st = Some st'.
Proof.
  unfold Cli.applyMapping. destruct st as [x n].
  destruct (Cli.not_ _ || Cli.not_ _); [eauto|].
  destruct (if str_eqb mode Cli.TestMode_SIL
            then Cli.realSignal m else Cli.simSignal m) as [s|]; [|eauto].
  destruct (if str_eqb mode Cli.TestMode_SIL
            then Cli.simSignal m else Cli.realSignal m) as [t|]; [|eauto].
  change (JS.replace Cli.specialChars Cli.escapeTemplate s) with (escapeSource s).
  rewrite RegExp_escapeSource.
  destruct (JS.match_ _ x); eauto.
Qed.

Lemma cli_forEach_total (mode : jsstring) (l : list Cli.Mapping)
  (st : jsstring * Z) :
  exists st', Cli.forEach mode l st = Some st'.
Proof.
  revert st; induction l as [|m l IH]; intros st; cbn [Cli.forEach]; [eauto|].
  destruct (cli_applyMapping_total mode m st) as [st1 ->]. apply IH.
Qed.

Lemma cli_performTransformation_total (c mode : jsstring)
  (mappings : list Cli.Mapping) :
  exists r, Cli.performTransformation c mode mappings = Some r.
Proof.
  unfold Cli.performTransformation.
  destruct (cli_forEach_total mode
              (JS.sort (Cli.byLengthDesc mode) mappings) (c, 0%Z))
    as [[x n] ->].
  eauto.
Qed.

(** X5. The script's transformation returns a result for every mode text
    and every array of objects, fields missing or not: the constructor of
    regular expressions cannot throw there. *)
Theorem script_transformation_returns (c mode : jsstring)
  (mappings : list Cli.Mapping) :
  exists r, Cli.performTransformation c mode mappings = Some r.
Proof. apply cli_performTransformation_total. Qed.

Lemma sort_ext {A : Type} (cmp1 cmp2 : A -> A -> Z) (l : list A) :
  (forall a b, cmp1 a b = cmp2 a b) -> JS.sort cmp1 l = JS.sort cmp2 l.
Proof.
  intros H.
  rewrite <- (map_id l) at 1.
  rewrite (sort_map (fun x => x) cmp2 cmp1) by (intros; apply H).
  apply map_id.
Qed.

(** X6. The script does not check the mode: every mode text other than
    [SIL] transforms as [HIL] does. *)
Theorem script_unknown_mode_is_HIL (c mode : jsstring)
  (mappings : list Cli.Mapping) :
  mode <> js "SIL" ->
  Cli.performTransformation c mode mappings
  = Cli.performTransformation c (js "HIL") mappings.
Proof.
  intros H.
  assert (E : str_eqb mode Cli.TestMode_SIL = false).
  { destruct (str_eqb mode Cli.TestMode_SIL) eqn:E; [|reflexivity].
    apply str_eqb_eq in E. contradiction. }
  unfold Cli.performTransformation.
  rewrite (sort_ext (Cli.byLengthDesc mode) (Cli.byLengthDesc (js "HIL")))
    by (intros a b; unfold Cli.byLengthDesc; now rewrite E).
  generalize (JS.sort (Cli.byLengthDesc (js "HIL")) mappings) as l.
  generalize (c, 0%Z) as st.
  assert (G : forall l st, Cli.forEach mode l st = Cli.forEach (js "HIL") l st).
  { induction l as [|m l IH]; intros st; [reflexivity|].
    cbn [Cli.forEach].
    assert (A : Cli.applyMapping mode m st = Cli.applyMapping (js "HIL") m st).
    { unfold Cli.applyMapping. destruct st. now rewrite E. }
    rewrite A. destruct (Cli.applyMapping (js "HIL") m st); [apply IH|reflexivity]. }
  intros st l. now rewrite G.
Qed.

Lemma script_unknown_mode_is_HIL_witness :
  Cli.performTransformation (js "sysvar::Engine::Speed = 0;") (js "XYZ")
    (map cliMapping DEFAULT_MAPPINGS)
  = Cli.performTransformation (js "sysvar::Engine::Speed = 0;") (js "HIL")
      (map cliMapping DEFAULT_MAPPINGS).
Proof. apply script_unknown_mode_is_HIL. discriminate. Defined.

(** X7. A run of the script ends with code 0 or 1.  With code 0 nothing
    went to the error stream and one file was written, at the path given
    as second argument.  With code 1 no file was written, and either an
    error was printed or the usage text was. *)
Theorem script_writes_only_on_success (w : Cli.World)
  (embedded : list Cli.Mapping) (args : list jsstring) :
  (Cli.exitCode (Cli.main w embedded args) = 0%Z
   /\ Cli.stderr (Cli.main w embedded args) = []
   /\ exists content,
        Cli.written (Cli.main w embedded args) = [(nth 1 args [], content)])
  \/ (Cli.exitCode (Cli.main w embedded args) = 1%Z
      /\ Cli.written (Cli.main w embedded args) = []
      /\ (Cli.stderr (Cli.main w embedded args) <> []
          \/ Cli.stdout (Cli.main w embedded args) = Cli.usage)).
Proof.
  unfold Cli.main.
  destruct (length args <? 2)%nat; [right; cbn; auto|].
  destruct (Cli.resolveMappings w embedded _) as [out0 [active|msg]].
  2: { right. cbn. repeat split. left. discriminate. }
  destruct (negb (Cli.existsSync w (nth 0 args []))).
  { right. cbn. repeat split. left. discriminate. }
  destruct (Cli.readFileSync w (nth 0 args [])) as [c|msg].
  2: { right. cbn. repeat split. left. discriminate. }
  destruct (Cli.performTransformation c _ active) as [r|].
  2: { right. cbn. repeat split. left. discriminate. }
  destruct (Cli.writeFileSync w (nth 1 args []) (code r)) as [msg|].
  { right. cbn. repeat split. left. discriminate. }
  left. cbn. repeat split. now exists (code r).
Qed.

Lemma find_none_forallb {A : Type} (f : A -> bool) (l : list A) :
  forallb (fun a => negb (f a)) l = true -> find f l = None.
Proof.
  induction l as [|a l IH]; [reflexivity|]. cbn.
  intros H. apply andb_true_iff in H as [H1 H2].
  apply negb_true_iff in H1. rewrite H1. now apply IH.
Qed.

(** X8. Called with an input and an output path and no option, the script
    transforms in mode SIL with the rules embedded at export time: it writes
    what the interactive engine computes for these rules, reports the count
    and ends with code 0. *)
Theorem script_default_run (w : Cli.World) (rules : list SignalMapping)
  (args : list jsstring) (c : jsstring) (r : TransformationResult) :
  2 <= length args ->
  forallb (fun a => negb (startsWith (js "--mode=") a)) args = true ->
  forallb (fun a => negb (startsWith (js "--mapping=") a)) args = true ->
  Cli.existsSync w (nth 0 args []) = true ->
  Cli.readFileSync w (nth 0 args []) = inl c ->
  performLocalTransformation c SIL rules = Some r ->
  Cli.writeFileSync w (nth 1 args []) (code r) = None ->
  Cli.main w (map cliMapping rules) args
  = Cli.mkRun
      [ js "Using embedded default mappings.";
        js "Reading " ++ nth 0 args [] ++ js "...";
        js "Applying " ++ showNat (length rules)
          ++ js " mapping rules (Mode: SIL)...";
        js "Success: Written to " ++ nth 1 args [];
        js "Changes made: " ++ showCount (changes r) ]
      [] [(nth 1 args [], code r)] 0.
Proof.
  intros Hlen Hm Hp He Hr Ht Hw. unfold Cli.main.
  apply Nat.ltb_ge in Hlen. rewrite Hlen.
  rewrite (find_none_forallb _ _ Hm), (find_none_forallb _ _ Hp).
  cbn [Cli.resolveMappings]. rewrite He, Hr. cbn [negb].
  assert (E : Cli.performTransformation c (js "SIL") (map cliMapping rules)
              = Some r).
  { rewrite <- Ht. unfold Cli.performTransformation,
      performLocalTransformation, sortedMappings.
    rewrite (sort_map cliMapping (byLengthDesc SIL)
               (Cli.byLengthDesc (js "SIL")))
      by apply (cli_byLengthDesc SIL).
    now rewrite (cli_forEach SIL). }
  rewrite E, Hw, length_map. reflexivity.
Qed.

Lemma script_default_run_witness :
  Cli.main benchWorld (map cliMapping DEFAULT_MAPPINGS)
    [js "input.can"; js "out.can"]
  = Cli.mkRun
      [ js "Using embedded default mappings.";
        js "Reading " ++ js "input.can" ++ js "...";
        js "Applying " ++ showNat 3 ++ js " mapping rules (Mode: SIL)...";
        js "Success: Written to " ++ js "out.can";
        js "Changes made: " ++ showCount 1 ]
      [] [(js "out.can", js "sysvar::Engine::Speed = 0;")] 0.
Proof.
  apply (@script_default_run benchWorld DEFAULT_MAPPINGS
           [js "input.can"; js "out.can"] (js "$EngineSpeed = 0;")
           (mkResult (js "sysvar::Engine::Speed = 0;") 1));
    [simpl; lia | reflexivity ..].
Defined.

(** X9. When the file named by [--mapping=] is not there, or holds JSON
    whose root is not an array, the run ends with code 1 after one line on
    the error stream; the input file is not read and nothing is written. *)
Theorem script_rejects_bad_mapping_file (w : Cli.World)
  (embedded : list Cli.Mapping) (args : list jsstring) (a : jsstring) :
  2 <= length args ->
  find (startsWith (js "--mapping=")) args = Some a ->
  Cli.existsSync w (Cli.valueOf a) = false
  \/ (exists text, Cli.readFileSync w (Cli.valueOf a) = inl text
                   /\ Cli.JSON_parse w text = Cli.NotAnArray) ->
  Cli.exitCode (Cli.main w embedded args) = 1%Z
  /\ Cli.written (Cli.main w embedded args) = []
  /\ (exists msg, Cli.stderr (Cli.main w embedded args)
                  = [js "Error loading mapping file: " ++ msg])
  /\ forall line, In line (Cli.stdout (Cli.main w embedded args)) ->
       line = js "Loading external mappings from " ++ Cli.valueOf a ++ js "...".
Proof.
  intros Hlen Hf H. unfold Cli.main.
  apply Nat.ltb_ge in Hlen. rewrite Hlen, Hf. cbn [Cli.resolveMappings].
  destruct H as [H|(text & H1 & H2)].
  - rewrite H. cbn. repeat split; [eauto|intros line []].
  - destruct (Cli.existsSync w (Cli.valueOf a)).
    + rewrite H1, H2. cbn. repeat split; [eauto|].
      intros line [<-|[]]. reflexivity.
    + cbn. repeat split; [eauto|intros line []].
Qed.

Lemma script_rejects_bad_mapping_file_witness :
  Cli.exitCode (Cli.main benchWorld [] [js "input.can"; js "out.can";
                                        js "--mapping=rules.json"]) = 1%Z
  /\ Cli.written (Cli.main benchWorld [] [js "input.can"; js "out.can";
                                          js "--mapping=rules.json"]) = []
  /\ (exists msg,
        Cli.stderr (Cli.main benchWorld [] [js "input.can"; js "out.can";
                                            js "--mapping=rules.json"])
        = [js "Error loading mapping file: " ++ msg])
  /\ forall line,
       In line (Cli.stdout (Cli.main benchWorld [] [js "input.can"; js "out.can";
                                                    js "--mapping=rules.json"])) ->
       line = js "Loading external mappings from "
                ++ Cli.valueOf (js "--mapping=rules.json") ++ js "...".
Proof.
  apply (@script_rejects_bad_mapping_file benchWorld []
           [js "input.can"; js "out.can"; js "--mapping=rules.json"]
           (js "--mapping=rules.json")).
  - simpl. lia.
  - reflexivity.
  - left. reflexivity.
Defined.

Lemma splitEq_nonempty (s : jsstring) : Cli.splitEq s <> [].
Proof.
  destruct s as [|c s]; cbn; [discriminate|].
  destruct (cu_eqb c 61%N); [discriminate|].
  destruct (Cli.splitEq s); discriminate.
Qed.

Lemma splitEq_plain (v : jsstring) : ~ In 61%N v -> Cli.splitEq v = [v].
Proof.
  induction v as [|c v IH]; intros H; [reflexivity|].
  cbn [Cli.splitEq].
  destruct (cu_eqb c 61%N) eqn:E.
  - apply cu_eqb_eq in E. subst c. exfalso. apply H. now left.
  - rewrite IH; [reflexivity|]. intros Hin. apply H. now right.
Qed.

Lemma splitEq_at (k x : jsstring) :
  ~ In 61%N k -> Cli.splitEq (k ++ 61%N :: x) = k :: Cli.splitEq x.
Proof.
  induction k as [|c k IH]; intros H; [reflexivity|].
  cbn [app Cli.splitEq].
  destruct (cu_eqb c 61%N) eqn:E.
  - apply cu_eqb_eq in E. subst c. exfalso. apply H. now left.
  - rewrite IH; [reflexivity|]. intros Hin. apply H. now right.
Qed.

(** X10. The value of an option is the text between the first and the
    second equals sign: a value without equals sign is taken whole, a
    value holding one is cut there. *)
Theorem option_value_cut_at_equals (k v rest : jsstring) :
  ~ In 61%N k -> ~ In 61%N v ->
  Cli.valueOf (k ++ 61%N :: v) = v
  /\ Cli.valueOf (k ++ 61%N :: v ++ 61%N :: rest) = v.
Proof.
  intros Hk Hv. unfold Cli.valueOf. split.
  - now rewrite splitEq_at, splitEq_plain.
  - now rewrite splitEq_at, splitEq_at.
Qed.

Lemma option_value_cut_at_equals_witness :
  Cli.valueOf (js "--mapping" ++ 61%N :: js "cfg/a") = js "cfg/a"
  /\ Cli.valueOf (js "--mapping" ++ 61%N :: js "cfg/a" ++ 61%N :: js "b.json")
     = js "cfg/a".
Proof.
  apply option_value_cut_at_equals; apply notin_existsb; reflexivity.
Defined.

(* ================================================================== *)
(** * The mapping editor *)

(** ** Printing and reading a number *)

Lemma parseDigits_uint (d d' : Decimal.uint) :
  parseDigits (js (NilEmpty.string_of_uint d))
              (Some (DecimalPos.Unsigned.of_lu d'))
  = Some (DecimalPos.Unsigned.of_lu (Decimal.revapp d d')).
Proof.
  revert d'; induction d as [|d IH|d IH|d IH|d IH|d IH|d IH|d IH|d IH|d IH|d IH];
    intros d'; [reflexivity|..];
    cbn [NilEmpty.string_of_uint Decimal.revapp];
    rewrite <- IH; unfold js; cbn [list_ascii_of_string map parseDigits];
    match goal with
    | |- context [isDigit ?c] => change (isDigit c) with true
    end;
    cbv iota; f_equal; f_equal;
    cbn [DecimalPos.Unsigned.of_lu]; apply N.add_comm.
Qed.

Lemma parseDigits_uint_start (d : Decimal.uint) :
  d <> Decimal.Nil ->
  parseDigits (js (NilEmpty.string_of_uint d)) None = Some (Pos.of_uint d).
Proof.
  intros H. rewrite DecimalPos.Unsigned.of_uint_alt. unfold Decimal.rev.
  destruct d; [congruence|..];
    cbn [NilEmpty.string_of_uint Decimal.revapp];
    rewrite <- parseDigits_uint; reflexivity.
Qed.

Lemma uint_starts_with_digit (d : Decimal.uint) :
  d <> Decimal.Nil ->
  exists c rest, js (NilEmpty.string_of_uint d) = c :: rest
                 /\ isDigit c = true.
Proof.
  intros H. destruct d; [congruence|..]; eexists; eexists; split; reflexivity.
Qed.

(** A positive count printed and read back is the count. *)
Lemma parseInt10_showCount (p : positive) :
  parseInt10 (showCount (Z.pos p)) = Some (Z.pos p).
Proof.
  unfold showCount. cbn [Z.to_int NilZero.string_of_int].
  pose proof (DecimalPos.Unsigned.to_uint_nonnil p) as Hn.
  assert (E : NilZero.string_of_uint (Pos.to_uint p)
              = NilEmpty.string_of_uint (Pos.to_uint p)).
  { unfold NilZero.string_of_uint. destruct (Pos.to_uint p); congruence. }
  rewrite E. unfold parseInt10.
  destruct (uint_starts_with_digit Hn) as (c & rest & Ec & Hc).
  assert (Hw : isWhiteSpace c = false /\ cu_eqb c 45%N = false
               /\ cu_eqb c 43%N = false).
  { unfold isDigit in Hc. apply andb_true_iff in Hc as [H1 H2].
    apply N.leb_le in H1, H2.
    assert (D : (c = 48 \/ c = 49 \/ c = 50 \/ c = 51 \/ c = 52 \/ c = 53
                 \/ c = 54 \/ c = 55 \/ c = 56 \/ c = 57)%N) by lia.
    repeat destruct D as [->|D]; try subst c; repeat split; reflexivity. }
  destruct Hw as (W1 & W2 & W3).
  assert (T : trimStart (js (NilEmpty.string_of_uint (Pos.to_uint p)))
              = js (NilEmpty.string_of_uint (Pos.to_uint p))).
  { rewrite Ec. cbn [trimStart]. now rewrite W1. }
  rewrite T. rewrite Ec at 1. rewrite W2, W3.
  rewrite parseDigits_uint_start by exact Hn.
  rewrite DecimalPos.Unsigned.of_to. reflexivity.
Qed.

(** ** Identifiers *)

Lemma maxStep_ge (a : Z) (m : SignalMapping) : (a <= Editor.maxStep a m)%Z.
Proof.
  unfold Editor.maxStep. destruct (parseInt10 (id m)) as [n|]; [|lia].
  destruct (Z.gtb_spec n a); lia.
Qed.

Lemma fold_maxStep_ge (l : list SignalMapping) (a : Z) :
  (a <= fold_left Editor.maxStep l a)%Z.
Proof.
  revert a; induction l as [|m l IH]; intros a; cbn [fold_left]; [lia|].
  pose proof (maxStep_ge a m). specialize (IH (Editor.maxStep a m)). lia.
Qed.

Lemma fold_maxStep_bound (l : list SignalMapping) (a : Z) (m : SignalMapping)
  (n : Z) :
  In m l -> parseInt10 (id m) = Some n ->
  (n <= fold_left Editor.maxStep l a)%Z.
Proof.
  revert a; induction l as [|x l IH]; intros a; [intros []|].
  intros [E|H] Hn; [subst x|]; cbn [fold_left].
  - pose proof (fold_maxStep_ge l (Editor.maxStep a m)) as G.
    assert (n <= Editor.maxStep a m)%Z; [|lia].
    unfold Editor.maxStep. rewrite Hn. destruct (Z.gtb_spec n a); lia.
  - now apply IH.
Qed.

Lemma maxId_nonneg (l : list SignalMapping) : (0 <= Editor.maxId l)%Z.
Proof. apply fold_maxStep_ge. Qed.

Lemma showCount_above_max (l : list SignalMapping) (m : SignalMapping) (k : Z) :
  In m l -> (Editor.maxId l < k)%Z -> id m <> showCount k.
Proof.
  intros Hin Hk E.
  pose proof (maxId_nonneg l) as H0.
  destruct k as [|p|p]; try lia.
  pose proof (parseInt10_showCount p) as P. rewrite <- E in P.
  pose proof (@fold_maxStep_bound l 0%Z m (Z.pos p) Hin P) as B.
  unfold Editor.maxId in Hk. lia.
Qed.

(** X11. The identifier computed for a new rule is the identifier of no
    rule in the list.  (The bound keeps the numbers within the integers a
    JavaScript number holds exactly.) *)
Theorem next_id_is_fresh (mappings : list SignalMapping) (m : SignalMapping) :
  (Editor.maxId mappings < MAX_SAFE_INTEGER)%Z ->
  In m mappings ->
  id m <> Editor.getNextId mappings.
Proof.
  intros _ Hin. unfold Editor.getNextId.
  apply showCount_above_max with (l := mappings); [exact Hin|lia].
Qed.

Lemma next_id_is_fresh_witness :
  id (rule "3" "output(msgEngine)" "sysvar::Bus::InjectFrame(msgEngine)")
  <> Editor.getNextId
       [rule "b1" "$DoorStatus" "sysvar::Body::DoorState";
        rule "3" "output(msgEngine)" "sysvar::Bus::InjectFrame(msgEngine)";
        rule " 7x" "$WindowPos" "sysvar::Body::WindowPosition"].
Proof.
  apply next_id_is_fresh.
  - vm_compute. reflexivity.
  - right. left. reflexivity.
Defined.

Lemma transform_bare (c : jsstring) (mode : TestMode) (l : list SignalMapping) :
  performLocalTransformation c mode l
  = performLocalTransformation c mode (map bare l).
Proof.
  unfold performLocalTransformation, sortedMappings.
  rewrite (sort_map bare (byLengthDesc mode) (byLengthDesc mode))
    by (intros a b; now destruct mode).
  assert (G : forall l st, forEach mode (map bare l) st = forEach mode l st).
  { clear l. induction l as [|m l IH]; intros st; [reflexivity|].
    cbn [map forEach].
    assert (A : applyMapping mode (bare m) st = applyMapping mode m st)
      by (unfold applyMapping; destruct st; now destruct mode).
    rewrite A. destruct (applyMapping mode m st); [apply IH|reflexivity]. }
  now rewrite G.
Qed.

Lemma transform_signals (c : jsstring) (mode : TestMode)
  (l l' : list SignalMapping) :
  map signals l = map signals l' ->
  performLocalTransformation c mode l = performLocalTransformation c mode l'.
Proof.
  intros H. rewrite (transform_bare c mode l), (transform_bare c mode l').
  f_equal.
  assert (G : forall x, map bare x
                        = map (fun p => mkSignalMapping [] (fst p) (snd p) None)
                              (map signals x)).
  { intros x. rewrite map_map. reflexivity. }
  now rewrite !G, H.
Qed.

(** X12. Adding a rule in the editor keeps the identifiers distinct, and
    the new rule, whose fields are empty, leaves every transformation as it
    was. *)
Theorem add_keeps_ids_distinct (mappings : list SignalMapping) :
  (Editor.maxId mappings < MAX_SAFE_INTEGER)%Z ->
  NoDup (map id mappings) ->
  NoDup (map id (Editor.handleAdd mappings))
  /\ forall c mode,
       performLocalTransformation c mode (Editor.handleAdd mappings)
       = performLocalTransformation c mode mappings.
Proof.
  intros _ Hnd. split.
  - unfold Editor.handleAdd. rewrite map_app. cbn [map id].
    apply NoDup_app_remove_l with (l := []). cbn [app].
    apply Permutation_NoDup
      with (l := Editor.getNextId mappings :: map id mappings).
    { apply Permutation_cons_append. }
    constructor; [|exact Hnd].
    intros Hin. apply in_map_iff in Hin as (m & E & Hm).
    apply (@showCount_above_max mappings m (Editor.maxId mappings + 1));
      [exact Hm | lia | exact E].
  - intros c mode. unfold Editor.handleAdd.
    rewrite !transform_filters_then_sorts, filter_app.
    cbn [filter isActive realSignal falsy orb negb]. now rewrite app_nil_r.
Qed.

Lemma add_keeps_ids_distinct_witness :
  NoDup (map id (Editor.handleAdd DEFAULT_MAPPINGS))
  /\ forall c mode,
       performLocalTransformation c mode (Editor.handleAdd DEFAULT_MAPPINGS)
       = performLocalTransformation c mode DEFAULT_MAPPINGS.
Proof.
  apply add_keeps_ids_distinct.
  - vm_compute. reflexivity.
  - repeat constructor; cbn; intuition discriminate.
Defined.

(** ** Removing and editing a rule *)

Lemma remove_absent (id0 : jsstring) (l : list SignalMapping) :
  (forall m, In m l -> id m <> id0) -> Editor.handleRemove id0 l = l.
Proof.
  induction l as [|x l IH]; intros H; [reflexivity|].
  unfold Editor.handleRemove in *. cbn [filter].
  rewrite str_eqb_neq by (apply H; now left). cbn [negb].
  f_equal. apply IH. intros m Hm. apply H. now right.
Qed.

Lemma change_absent (id0 : jsstring) (field : Editor.Field) (value : jsstring)
  (l : list SignalMapping) :
  (forall m, In m l -> id m <> id0) -> Editor.handleChange id0 field value l = l.
Proof.
  induction l as [|x l IH]; intros H; [reflexivity|].
  unfold Editor.handleChange in *. cbn [map].
  rewrite str_eqb_neq by (apply H; now left).
  f_equal. apply IH. intros m Hm. apply H. now right.
Qed.

Lemma nodup_ids_split (l1 l2 : list SignalMapping) (m : SignalMapping) :
  NoDup (map id (l1 ++ m :: l2)) ->
  (forall x, In x l1 -> id x <> id m) /\ (forall x, In x l2 -> id x <> id m).
Proof.
  rewrite map_app. cbn [map]. intros H.
  apply NoDup_remove_2 in H.
  split; intros x Hx E; apply H; apply in_or_app; [left|right];
    rewrite <- E; now apply in_map.
Qed.

(** X13. When the identifiers are distinct, removing by identifier takes
    out the rule that has it and keeps the others in their order, and an
    edit by identifier rewrites the one field of that rule and nothing
    else. *)
Theorem remove_and_change_hit_one_rule (l1 l2 : list SignalMapping)
  (m : SignalMapping) (field : Editor.Field) (value : jsstring) :
  NoDup (map id (l1 ++ m :: l2)) ->
  Editor.handleRemove (id m) (l1 ++ m :: l2) = l1 ++ l2
  /\ Editor.handleChange (id m) field value (l1 ++ m :: l2)
     = l1 ++ Editor.withField m field value :: l2.
Proof.
  intros H. apply nodup_ids_split in H as [H1 H2]. split.
  - unfold Editor.handleRemove. rewrite filter_app. cbn [filter].
    rewrite str_eqb_refl. cbn [negb].
    fold (Editor.handleRemove (id m) l1). fold (Editor.handleRemove (id m) l2).
    now rewrite !remove_absent.
  - unfold Editor.handleChange. rewrite map_app. cbn [map].
    rewrite str_eqb_refl.
    fold (Editor.handleChange (id m) field value l1).
    fold (Editor.handleChange (id m) field value l2).
    now rewrite !change_absent.
Qed.

Lemma remove_and_change_hit_one_rule_witness :
  Editor.handleRemove (id (rule "2" "EngineMsg.Torque" "sysvar::Powertrain::Torque"))
    ([rule "1" "$EngineSpeed" "sysvar::Engine::Speed"]
       ++ rule "2" "EngineMsg.Torque" "sysvar::Powertrain::Torque"
       :: [rule "3" "output(msgEngine)" "sysvar::Bus::InjectFrame(msgEngine)"])
  = [rule "1" "$EngineSpeed" "sysvar::Engine::Speed"]
      ++ [rule "3" "output(msgEngine)" "sysvar::Bus::InjectFrame(msgEngine)"]
  /\ Editor.handleChange
       (id (rule "2" "EngineMsg.Torque" "sysvar::Powertrain::Torque"))
       Editor.F_simSignal (js "sysvar::PT::Tq")
       ([rule "1" "$EngineSpeed" "sysvar::Engine::Speed"]
          ++ rule "2" "EngineMsg.Torque" "sysvar::Powertrain::Torque"
          :: [rule "3" "output(msgEngine)" "sysvar::Bus::InjectFrame(msgEngine)"])
     = [rule "1" "$EngineSpeed" "sysvar::Engine::Speed"]
         ++ Editor.withField
              (rule "2" "EngineMsg.Torque" "sysvar::Powertrain::Torque")
              Editor.F_simSignal (js "sysvar::PT::Tq")
         :: [rule "3" "output(msgEngine)" "sysvar::Bus::InjectFrame(msgEngine)"].
Proof.
  apply remove_and_change_hit_one_rule.
  repeat constructor; cbn; intuition discriminate.
Defined.

(** X14. Removing or editing by an identifier that no rule has changes
    nothing. *)
Theorem absent_id_is_noop (id0 : jsstring) (field : Editor.Field)
  (value : jsstring) (mappings : list SignalMapping) :
  (forall m, In m mappings -> id m <> id0) ->
  Editor.handleRemove id0 mappings = mappings
  /\ Editor.handleChange id0 field value mappings = mappings.
Proof.
  intros H. split; [now apply remove_absent | now apply change_absent].
Qed.

Lemma absent_id_is_noop_witness :
  Editor.handleRemove (js "42") DEFAULT_MAPPINGS = DEFAULT_MAPPINGS
  /\ Editor.handleChange (js "42") Editor.F_realSignal (js "$X") DEFAULT_MAPPINGS
     = DEFAULT_MAPPINGS.
Proof.
  apply absent_id_is_noop.
  intros m [<-|[<-|[<-|[]]]]; discriminate.
Defined.

Lemma change_signals (id0 : jsstring) (field : Editor.Field) (value : jsstring)
  (l : list SignalMapping) :
  field = Editor.F_id \/ field = Editor.F_description ->
  map signals (Editor.handleChange id0 field value l) = map signals l.
Proof.
  intros H. unfold Editor.handleChange. rewrite map_map.
  apply map_ext. intros m.
  destruct (str_eqb (id m) id0); [|reflexivity].
  destruct H as [-> | ->]; reflexivity.
Qed.

(** X15. The identifier and the description of a rule have no part in
    the transformation: two rule lists with the same signal pairs in the
    same order transform alike, and so an edit of an identifier or of a
    description changes no result. *)
Theorem transformation_reads_signals_only (c : jsstring) (mode : TestMode)
  (l l' : list SignalMapping) :
  map signals l = map signals l' ->
  performLocalTransformation c mode l = performLocalTransformation c mode l'
  /\ forall id0 value,
       performLocalTransformation c mode
         (Editor.handleChange id0 Editor.F_description value l)
       = performLocalTransformation c mode l'
       /\ performLocalTransformation c mode
            (Editor.handleChange id0 Editor.F_id value l)
          = performLocalTransformation c mode l'.
Proof.
  intros H. split; [now apply transform_signals|].
  intros id0 value. split; apply transform_signals;
    rewrite change_signals; auto.
Qed.

Lemma transformation_reads_signals_only_witness :
  performLocalTransformation (js "$A = 1;") SIL [rule "1" "$A" "sv::A"]
  = performLocalTransformation (js "$A = 1;") SIL [rule "gen_7" "$A" "sv::A"]
  /\ forall id0 value,
       performLocalTransformation (js "$A = 1;") SIL
         (Editor.handleChange id0 Editor.F_description value [rule "1" "$A" "sv::A"])
       = performLocalTransformation (js "$A = 1;") SIL [rule "gen_7" "$A" "sv::A"]
       /\ performLocalTransformation (js "$A = 1;") SIL
            (Editor.handleChange id0 Editor.F_id value [rule "1" "$A" "sv::A"])
          = performLocalTransformation (js "$A = 1;") SIL [rule "gen_7" "$A" "sv::A"].
Proof.
  apply transformation_reads_signals_only. reflexivity.
Defined.

(** ** Merging suggested rules *)

Lemma known_signal (s : SignalMapping) (acc : list SignalMapping) :
  existsb (fun e => str_eqb (realSignal e) (realSignal s)) acc = true
  <-> exists e, In e acc /\ realSignal e = realSignal s.
Proof.
  rewrite existsb_exists. split; intros (e & He & E); exists e;
    (split; [exact He|]); now apply str_eqb_eq.
Qed.

(** The loop of [handleAiSuggest]: what it appends, and under which
    identifiers. *)
Lemma suggest_fold (sugg : list SignalMapping) :
  forall (k : Z) (acc : list SignalMapping),
  exists added,
    fold_left Editor.suggestStep sugg (k, acc)
    = ((k + Z.of_nat (length added))%Z, acc ++ added)
    /\ map id added
       = map (fun i => showCount (k + Z.of_nat i)) (seq 1 (length added))
    /\ (NoDup (map realSignal acc) -> NoDup (map realSignal (acc ++ added)))
    /\ (forall s, In s sugg ->
          exists e, In e (acc ++ added) /\ realSignal e = realSignal s)
    /\ (forall e, In e added ->
          exists s, In s sugg /\ e = Editor.withField s Editor.F_id (id e))
    /\ (forall e m, In e added -> In m acc -> realSignal e <> realSignal m)
    /\ length added <= length sugg.
Proof.
  induction sugg as [|s rest IH]; intros k acc.
  - exists []. cbn [fold_left length seq map]. rewrite app_nil_r, Z.add_0_r.
    repeat split; auto; try (now intros ? []); try (now intros ? ? []).
  - cbn [fold_left]. unfold Editor.suggestStep at 2.
    destruct (existsb _ acc) eqn:E; cbn [negb].
    + destruct (IH k acc) as (added & F & I & N & C & P & D & L).
      exists added. rewrite F. repeat split; auto.
      * intros s' [<-|Hs']; [|now apply C].
        apply known_signal in E as (e & He & Ee).
        exists e. split; [apply in_or_app; now left|exact Ee].
      * intros e He. destruct (P e He) as (s' & Hs' & Ee).
        exists s'. split; [now right|exact Ee].
      * cbn [length]. lia.
    + set (s' := Editor.withField s Editor.F_id (showCount (k + 1))).
      destruct (IH (k + 1)%Z (acc ++ [s'])) as (added & F & I & N & C & P & D & L).
      exists (s' :: added). rewrite F. cbn [length].
      assert (Hnew : forall m, In m acc -> realSignal m <> realSignal s).
      { intros m Hm Em.
        assert (existsb (fun e => str_eqb (realSignal e) (realSignal s)) acc = true)
          by (apply known_signal; now exists m).
        congruence. }
      repeat split.
      * rewrite <- app_assoc. cbn [app]. f_equal. lia.
      * cbn [map seq]. change (id s') with (showCount (k + Z.of_nat 1)).
        f_equal.
        rewrite I, <- (seq_shift (length added) 1), map_map.
        apply map_ext. intros i.
        f_equal. lia.
      * intros Hnd. change (s' :: added) with ([s'] ++ added).
        rewrite app_assoc. apply N.
        rewrite map_app. cbn [map].
        apply NoDup_app; [exact Hnd | repeat constructor; intros [] |].
        intros a Ha [<-|[]]. apply in_map_iff in Ha as (m & Em & Hm).
        now apply (Hnew m Hm).
      * intros x [<-|Hx].
        -- exists s'. split; [apply in_or_app; right; now left|reflexivity].
        -- destruct (C x Hx) as (e & He & Ee). exists e.
           split; [|exact Ee]. now rewrite <- app_assoc in He.
      * intros e [<-|He].
        -- exists s. split; [now left|reflexivity].
        -- destruct (P e He) as (x & Hx & Ee). exists x.
           split; [now right|exact Ee].
      * intros e m [<-|He] Hm.
        -- intros Em. apply (Hnew m Hm). now rewrite <- Em.
        -- apply (D e m He). apply in_or_app. now left.
      * lia.
Qed.

Lemma handleAiSuggest_fold (suggestions mappings : list SignalMapping) :
  Editor.handleAiSuggest suggestions mappings
  = snd (fold_left Editor.suggestStep suggestions
           (Editor.maxId mappings, mappings)).
Proof.
  unfold Editor.handleAiSuggest. now destruct suggestions.
Qed.



Lemma showCount_inj (a b : Z) :
  (0 < a)%Z -> (0 < b)%Z -> showCount a = showCount b -> a = b.
Proof.
  intros Ha Hb E. destruct a as [|p|p], b as [|q|q]; try lia.
  pose proof (parseInt10_showCount p) as P.
  rewrite E, parseInt10_showCount in P. congruence.
Qed.

(** X17. The rules appended by a merge are numbered upwards from the
    largest numeric identifier in use, one by one, and identifiers that
    were distinct stay distinct.  (The bound keeps the numbers within the
    integers a JavaScript number holds exactly.) *)
Theorem suggestions_numbered_densely
  (suggestions mappings : list SignalMapping) :
  (Editor.maxId mappings + Z.of_nat (length suggestions) <= MAX_SAFE_INTEGER)%Z ->
  NoDup (map id mappings) ->
  exists added,
    Editor.handleAiSuggest suggestions mappings = mappings ++ added
    /\ map id added
       = map (fun i => showCount (Editor.maxId mappings + Z.of_nat i))
             (seq 1 (length added))
    /\ NoDup (map id (mappings ++ added)).
Proof.
  intros _ Hnd. rewrite handleAiSuggest_fold.
  destruct (suggest_fold suggestions (Editor.maxId mappings) mappings)
    as (added & F & I & _).
  exists added. rewrite F. cbn [snd]. split; [reflexivity|]. split; [exact I|].
  pose proof (maxId_nonneg mappings) as H0.
  rewrite map_app. apply NoDup_app; [exact Hnd| |].
  - rewrite I. apply Injective_map_NoDup_in; [|apply seq_NoDup].
    intros x y Hx Hy E. apply in_seq in Hx, Hy.
    apply showCount_inj in E; lia.
  - intros a Ha Hb. rewrite I in Hb.
    apply in_map_iff in Ha as (m & <- & Hm).
    apply in_map_iff in Hb as (i & E & Hi). apply in_seq in Hi.
    apply (@showCount_above_max mappings m
             (Editor.maxId mappings + Z.of_nat i)); [exact Hm|lia|].
    now symmetry.
Qed.

Lemma suggestions_numbered_densely_witness :
  exists added,
    Editor.handleAiSuggest
      [rule "gen_1_0" "$Gear" "sysvar::Gear";
       rule "gen_1_1" "$Brake" "sysvar::Brake"]
      DEFAULT_MAPPINGS
    = DEFAULT_MAPPINGS ++ added
    /\ map id added
       = map (fun i => showCount (Editor.maxId DEFAULT_MAPPINGS + Z.of_nat i))
             (seq 1 (length added))
    /\ NoDup (map id (DEFAULT_MAPPINGS ++ added)).
Proof.
  apply suggestions_numbered_densely.
  - vm_compute. discriminate.
  - repeat constructor; cbn; intuition discriminate.
Defined.

(* ================================================================== *)
(** * The console *)

Lemma modeText_inj (a b : TestMode) :
  str_eqb (App.modeText a) (App.modeText b) = true -> a = b.
Proof. destruct a, b; intros H; try reflexivity; discriminate. Qed.

Lemma autoTransform_same (st st' : App.State) :
  App.inputCode st' = App.inputCode st -> App.mode st' = App.mode st ->
  App.autoTransform st st' = st'.
Proof.
  intros E1 E2. unfold App.autoTransform.
  now rewrite E1, E2, !str_eqb_refl.
Qed.

Ltac known_false H :=
  unfold App.isOneOf, knownCommands in H; cbn [existsb] in H;
  repeat (apply orb_false_iff in H; destruct H as [? H]);
  unfold App.isOneOf; cbn [existsb];
  repeat match goal with
         | E : str_eqb _ _ = false |- _ => rewrite E; clear E
         end;
  cbn [orb].

(** X18. A line whose command token is none of the names the parser knows
    changes nothing but the log: the line is echoed, one error entry names
    the token, no effect is requested, and source, output, mode and rules
    are what they were. *)
Theorem unknown_command_only_logs (toLowerCase : jsstring -> jsstring)
  (cmdStr : jsstring) (st : App.State) :
  App.isOneOf (fst (App.parseLine toLowerCase cmdStr)) knownCommands = false ->
  App.runCommand toLowerCase cmdStr st
  = (App.addLog (js "Error: Unknown command '"
                   ++ fst (App.parseLine toLowerCase cmdStr)
                   ++ js "'. Type 'help' for list.")
       (App.addLog (js "> " ++ cmdStr) st), []).
Proof.
  intros H. unfold App.runCommand, App.handleCommand.
  destruct (App.parseLine toLowerCase cmdStr) as [cmd arg]. cbn [fst] in *.
  known_false H.
  now rewrite autoTransform_same.
Qed.

Lemma unknown_command_only_logs_witness :
  App.runCommand asciiLowerCase (js "foobar") (startState (js "$EngineSpeed = 1;"))
  = (App.addLog (js "Error: Unknown command '"
                   ++ fst (App.parseLine asciiLowerCase (js "foobar"))
                   ++ js "'. Type 'help' for list.")
       (App.addLog (js "> " ++ js "foobar") (startState (js "$EngineSpeed = 1;"))),
     []).
Proof. apply unknown_command_only_logs. reflexivity. Defined.

(** X19. The command [mode] with an argument that is, in lower case, none
    of [hil], [h], [sil], [s] leaves the mode (and source, output and rules)
    as it was and logs the usage error. *)
Theorem mode_with_bad_argument (toLowerCase : jsstring -> jsstring)
  (cmdStr arg : jsstring) (st : App.State) :
  App.parseLine toLowerCase cmdStr = (js "mode", arg) ->
  App.isOneOf (toLowerCase arg) ["hil"; "h"; "sil"; "s"]%string = false ->
  App.runCommand toLowerCase cmdStr st
  = (App.addLog (js "Error: Usage 'mode hil' or 'mode sil'")
       (App.addLog (js "> " ++ cmdStr) st), []).
Proof.
  intros P H. unfold App.runCommand, App.handleCommand. rewrite P.
  unfold App.isOneOf in H. cbn [existsb] in H.
  repeat (apply orb_false_iff in H; destruct H as [? H]).
  change (App.isOneOf (js "mode") ["help"; "?"]%string) with false.
  cbv iota.
  change (App.isOneOf (js "mode") ["upload"; "load"]%string) with false.
  change (App.isOneOf (js "mode") ["run"; "transform"]%string) with false.
  change (App.isOneOf (js "mode") ["download"; "save"]%string) with false.
  change (App.isOneOf (js "mode") ["export"; "batch"; "cli"]%string) with false.
  change (App.isOneOf (js "mode") ["swap"; "replace"]%string) with false.
  change (App.isOneOf (js "mode") ["clear"]%string) with false.
  change (App.isOneOf (js "mode") ["mode"]%string) with true.
  cbv iota.
  repeat match goal with
         | E : str_eqb _ _ = false |- _ => rewrite E; clear E
         end.
  cbn [orb]. now rewrite autoTransform_same.
Qed.

Lemma mode_with_bad_argument_witness :
  App.runCommand asciiLowerCase (js "mode xyz") (startState (js "$EngineSpeed = 1;"))
  = (App.addLog (js "Error: Usage 'mode hil' or 'mode sil'")
       (App.addLog (js "> " ++ js "mode xyz") (startState (js "$EngineSpeed = 1;"))),
     []).
Proof.
  apply (@mode_with_bad_argument asciiLowerCase (js "mode xyz") (js "xyz"));
    reflexivity.
Defined.

Lemma autoTransform_frame (st st' : App.State) :
  App.terminalLogs (App.autoTransform st st') = App.terminalLogs st'
  /\ App.mappings (App.autoTransform st st') = App.mappings st'
  /\ App.inputCode (App.autoTransform st st') = App.inputCode st'
  /\ App.mode (App.autoTransform st st') = App.mode st'
  /\ App.isAiProcessing (App.autoTransform st st') = App.isAiProcessing st'.
Proof.
  unfold App.autoTransform, App.handleLocalTransform.
  destruct (negb _ || negb _); [|auto].
  destruct (negb (App.isAiProcessing st')); [|auto].
  destruct (performLocalTransformation _ _ _); cbn; auto.
Qed.

(** What a command may do to the state, before the effect of the next
    render. *)
Lemma handleCommand_frame (toLowerCase : jsstring -> jsstring)
  (cmdStr : jsstring) (st : App.State) :
  (exists more,
     App.terminalLogs (fst (App.handleCommand toLowerCase cmdStr st))
     = App.terminalLogs st ++ (js "> " ++ cmdStr) :: more
     /\ more <> [])
  /\ App.mappings (fst (App.handleCommand toLowerCase cmdStr st))
     = App.mappings st
  /\ App.isAiProcessing (fst (App.handleCommand toLowerCase cmdStr st))
     = App.isAiProcessing st
  /\ length (snd (App.handleCommand toLowerCase cmdStr st)) <= 1
  /\ (App.inputCode (fst (App.handleCommand toLowerCase cmdStr st))
        = App.inputCode st ->
      App.mode (fst (App.handleCommand toLowerCase cmdStr st)) = App.mode st ->
      App.outputCode (fst (App.handleCommand toLowerCase cmdStr st))
        = App.outputCode st
      \/ exists r,
           performLocalTransformation (App.inputCode st) (App.mode st)
             (App.mappings st) = Some r
           /\ App.outputCode (fst (App.handleCommand toLowerCase cmdStr st))
              = code r).
Proof.
  destruct (transform_code (App.inputCode st) (App.mode st) (App.mappings st))
    as [n T].
  unfold App.handleCommand, App.handleDownload, App.handleExportCLI,
    App.handleSwap, App.handleClear, App.handleLocalTransform.
  destruct (App.parseLine toLowerCase cmdStr) as [cmd arg].
  cbn [App.inputCode App.mode App.mappings App.outputCode App.addLog].
  rewrite T.
  repeat match goal with
         | |- context [if ?b then _ else _] => destruct b
         end;
    cbn [fst snd App.terminalLogs App.mappings App.isAiProcessing
           App.inputCode App.mode App.outputCode App.addLog App.setInputCode
           App.setOutputCode App.setMode App.setChangeCount
           App.setIsReadmeOpen length code];
    (split; [eexists; split;
             [rewrite <- ?app_assoc; cbn [app]; reflexivity | discriminate]|]);
    (split; [reflexivity|]); (split; [reflexivity|]); (split; [lia|]);
    intros E1 E2; try (now left);
    try (right; eexists; split; [reflexivity|reflexivity]);
    try (now destruct (App.mode st); discriminate).
Qed.

Lemma runCommand_eq (toLowerCase : jsstring -> jsstring) (cmdStr : jsstring)
  (st : App.State) :
  App.runCommand toLowerCase cmdStr st
  = (App.autoTransform st (fst (App.handleCommand toLowerCase cmdStr st)),
     snd (App.handleCommand toLowerCase cmdStr st)).
Proof.
  unfold App.runCommand. now destruct (App.handleCommand toLowerCase cmdStr st).
Qed.

Lemma autoTransform_upToDate (st st' : App.State) :
  upToDate st ->
  App.mappings st' = App.mappings st ->
  App.isAiProcessing st' = false ->
  (App.inputCode st' = App.inputCode st -> App.mode st' = App.mode st ->
   App.outputCode st' = App.outputCode st
   \/ exists r,
        performLocalTransformation (App.inputCode st) (App.mode st)
          (App.mappings st) = Some r
        /\ App.outputCode st' = code r) ->
  upToDate (App.autoTransform st st').
Proof.
  intros (r0 & T0 & O0) Hm Ha Hout. unfold App.autoTransform.
  destruct (negb (str_eqb (App.inputCode st) (App.inputCode st'))
            || negb (str_eqb (App.modeText (App.mode st))
                             (App.modeText (App.mode st')))) eqn:Ch.
  - rewrite Ha. cbn [negb]. unfold App.handleLocalTransform.
    destruct (transform_code (App.inputCode st') (App.mode st') (App.mappings st'))
      as [n T].
    rewrite T. eexists. cbn. split; [exact T|reflexivity].
  - apply orb_false_iff in Ch as [C1 C2].
    apply negb_false_iff in C1, C2.
    apply str_eqb_eq in C1. apply modeText_inj in C2.
    symmetry in C1, C2. unfold upToDate. rewrite C1, C2, Hm.
    destruct (Hout C1 C2) as [E|(r & T & E)].
    + exists r0. split; [exact T0|congruence].
    + exists r. split; [exact T|exact E].
Qed.

Lemma runCommand_upToDate (toLowerCase : jsstring -> jsstring)
  (cmdStr : jsstring) (st : App.State) :
  upToDate st -> App.isAiProcessing st = false ->
  upToDate (fst (App.runCommand toLowerCase cmdStr st)).
Proof.
  intros U A. rewrite runCommand_eq. cbn [fst].
  destruct (handleCommand_frame toLowerCase cmdStr st) as (_ & M & I & _ & O).
  apply autoTransform_upToDate; auto. congruence.
Qed.

(** X20. Commands keep the output up to date: if the output shown is the
    transformation of the source shown, it still is after any command line,
    whatever the command changed (source, mode, or nothing). *)
Theorem commands_keep_output_up_to_date (toLowerCase : jsstring -> jsstring)
  (cmdStr : jsstring) (st : App.State) :
  upToDate st -> App.isAiProcessing st = false ->
  upToDate (fst (App.runCommand toLowerCase cmdStr st)).
Proof. apply runCommand_upToDate. Qed.

Lemma commands_keep_output_up_to_date_witness :
  upToDate (fst (App.runCommand asciiLowerCase (js "mode hil")
                   (App.mkState (js "sysvar::Engine::Speed = 1;")
                      (js "sysvar::Engine::Speed = 1;") SIL DEFAULT_MAPPINGS
                      false None false []))).
Proof.
  apply commands_keep_output_up_to_date; [|reflexivity].
  eexists. split; reflexivity.
Defined.

(** X21. Every command line is echoed and answered: the log grows by the
    echo and at least one more entry.  No command touches the rules, and a
    command asks for at most one effect. *)
Theorem every_command_is_answered (toLowerCase : jsstring -> jsstring)
  (cmdStr : jsstring) (st : App.State) :
  (exists more,
     App.terminalLogs (fst (App.runCommand toLowerCase cmdStr st))
     = App.terminalLogs st ++ (js "> " ++ cmdStr) :: more
     /\ more <> [])
  /\ App.mappings (fst (App.runCommand toLowerCase cmdStr st)) = App.mappings st
  /\ length (snd (App.runCommand toLowerCase cmdStr st)) <= 1.
Proof.
  rewrite runCommand_eq. cbn [fst snd].
  destruct (handleCommand_frame toLowerCase cmdStr st) as (L & M & _ & E & _).
  destruct (autoTransform_frame st (fst (App.handleCommand toLowerCase cmdStr st)))
    as (L' & M' & _).
  rewrite L', M'. auto.
Qed.

Lemma round_trip_code (mode : TestMode) (mappings : list SignalMapping)
  (t : jsstring) (there : TransformationResult) :
  plainRules mappings = true ->
  notNested mode mappings = true ->
  holdsNone t (hazards mode mappings) = true ->
  performLocalTransformation t mode mappings = Some there ->
  exists back,
    performLocalTransformation (code there) (opposite mode) mappings = Some back
    /\ code back = t.
Proof.
  intros HP HN HH.
  destruct (transform_code t mode mappings) as [n1 ->]. intros [= <-].
  cbn [code].
  match goal with
  | |- context [performLocalTransformation ?x (opposite mode) mappings] =>
      destruct (transform_code x (opposite mode) mappings) as [n2 ->]
  end.
  eexists. split; [reflexivity|]. cbn [code]. rewrite substAll_opposite.
  now apply round_trip_texts.
Qed.

Ltac decide_commands :=
  repeat match goal with
         | |- context [App.isOneOf (js ?n) ?l] =>
             let b := eval vm_compute in (App.isOneOf (js n) l) in
             change (App.isOneOf (js n) l) with b
         end;
  cbv iota.

Lemma swap_state (toLowerCase : jsstring -> jsstring) (cmdStr : jsstring)
  (st : App.State) :
  fst (App.parseLine toLowerCase cmdStr) = js "swap" ->
  fst (App.handleCommand toLowerCase cmdStr st)
  = App.handleSwap (App.addLog (js "> " ++ cmdStr) st).
Proof.
  intros H. unfold App.handleCommand.
  destruct (App.parseLine toLowerCase cmdStr) as [cmd arg].
  cbn [fst] in H. subst cmd. decide_commands. reflexivity.
Qed.

Lemma localTransform_upToDate (st : App.State) :
  upToDate (App.handleLocalTransform false st).
Proof.
  unfold upToDate, App.handleLocalTransform.
  destruct (transform_code (App.inputCode st) (App.mode st) (App.mappings st))
    as [n T].
  rewrite T. eexists. cbn. split; [exact T|reflexivity].
Qed.

(** X22. Swapping shows the source again.  When the output is up to date
    and not empty, no AI run is under way, and the rules and the source meet
    the three conditions of the round trip in the current mode (no field of
    a rule with two non-empty fields holds a dollar pattern; the rules are
    [notNested]: no two have the same pattern and replacement, no field of
    one lies within the replacement of another, no replacement within the
    pattern of another; the source holds none of the [hazards] of the
    rules), the command [swap] makes the output the new source, flips the
    mode, and the output that follows is the former source. *)
Theorem swap_shows_the_source_again (toLowerCase : jsstring -> jsstring)
  (cmdStr : jsstring) (st : App.State) :
  fst (App.parseLine toLowerCase cmdStr) = js "swap" ->
  upToDate st -> App.isAiProcessing st = false ->
  App.outputCode st <> [] ->
  plainRules (App.mappings st) = true ->
  notNested (App.mode st) (App.mappings st) = true ->
  holdsNone (App.inputCode st) (hazards (App.mode st) (App.mappings st)) = true ->
  App.inputCode (fst (App.runCommand toLowerCase cmdStr st)) = App.outputCode st
  /\ App.mode (fst (App.runCommand toLowerCase cmdStr st)) = opposite (App.mode st)
  /\ App.outputCode (fst (App.runCommand toLowerCase cmdStr st)) = App.inputCode st.
Proof.
  intros P (r & T & O) A Hout HP HN HH.
  rewrite runCommand_eq, swap_state by exact P. cbn [fst].
  unfold App.handleSwap. cbn [App.outputCode App.addLog App.mode].
  destruct (falsy (App.outputCode st)) eqn:F;
    [apply falsy_nil in F; contradiction|].
  destruct (@round_trip_code _ _ _ _ HP HN HH T) as (back & B & E).
  unfold App.autoTransform.
  cbn [App.inputCode App.mode App.addLog App.setMode App.setOutputCode
         App.setInputCode App.isAiProcessing].
  assert (M : str_eqb (App.modeText (App.mode st))
                (App.modeText (match App.mode st with SIL => HIL | HIL => SIL end))
              = false) by now destruct (App.mode st).
  rewrite M, A, orb_true_r. cbn [negb].
  unfold App.handleLocalTransform.
  cbn [App.inputCode App.mode App.mappings App.addLog App.setMode
         App.setOutputCode App.setInputCode].
  rewrite O. change (match App.mode st with SIL => HIL | HIL => SIL end)
    with (opposite (App.mode st)).
  rewrite B. cbn. auto.
Qed.

Lemma swap_shows_the_source_again_witness :
  App.inputCode (fst (App.runCommand asciiLowerCase (js "swap") defaultSession))
  = App.outputCode defaultSession
  /\ App.mode (fst (App.runCommand asciiLowerCase (js "swap") defaultSession))
     = opposite (App.mode defaultSession)
  /\ App.outputCode (fst (App.runCommand asciiLowerCase (js "swap") defaultSession))
     = App.inputCode defaultSession.
Proof.
  apply swap_shows_the_source_again.
  - reflexivity.
  - apply localTransform_upToDate.
  - reflexivity.
  - vm_compute. discriminate.
  - vm_compute. reflexivity.
  - vm_compute. reflexivity.
  - vm_compute. reflexivity.
Defined.

Lemma clear_state (toLowerCase : jsstring -> jsstring) (cmdStr : jsstring)
  (st : App.State) :
  fst (App.parseLine toLowerCase cmdStr) = js "clear" ->
  fst (App.handleCommand toLowerCase cmdStr st)
  = App.handleClear (App.addLog (js "> " ++ cmdStr) st).
Proof.
  intros H. unfold App.handleCommand.
  destruct (App.parseLine toLowerCase cmdStr) as [cmd arg].
  cbn [fst] in H. subst cmd. decide_commands. reflexivity.
Qed.

(** X23. After [clear] there is nothing to save or to swap: the source is
    empty, so is the output that follows, and both [download] and [swap]
    answer with their error entry and change nothing else. *)
Theorem after_clear_nothing_to_save (toLowerCase : jsstring -> jsstring)
  (cmdStr : jsstring) (st : App.State) :
  fst (App.parseLine toLowerCase cmdStr) = js "clear" ->
  upToDate st -> App.isAiProcessing st = false ->
  App.inputCode (fst (App.runCommand toLowerCase cmdStr st)) = []
  /\ App.outputCode (fst (App.runCommand toLowerCase cmdStr st)) = []
  /\ App.handleDownload (fst (App.runCommand toLowerCase cmdStr st))
     = (App.addLog (js "Error: No output code to download.")
          (fst (App.runCommand toLowerCase cmdStr st)), [])
  /\ App.handleSwap (fst (App.runCommand toLowerCase cmdStr st))
     = App.addLog (js "Error: No output code available to swap.")
         (fst (App.runCommand toLowerCase cmdStr st)).
Proof.
  intros P U A.
  pose proof (runCommand_upToDate toLowerCase cmdStr U A) as (r & T & O).
  assert (I : App.inputCode (fst (App.runCommand toLowerCase cmdStr st)) = []).
  { rewrite runCommand_eq. cbn [fst].
    destruct (autoTransform_frame st
                (fst (App.handleCommand toLowerCase cmdStr st)))
      as (_ & _ & -> & _).
    now rewrite clear_state. }
  assert (E : App.outputCode (fst (App.runCommand toLowerCase cmdStr st)) = []).
  { rewrite O. rewrite I in T. unfold performLocalTransformation in T.
    rewrite forEach_empty_text in T. now injection T as <-. }
  unfold App.handleDownload, App.handleSwap. rewrite E. auto.
Qed.

Lemma after_clear_nothing_to_save_witness :
  App.inputCode (fst (App.runCommand asciiLowerCase (js "CLEAR")
                        (App.mkState (js "$A = 1;") (js "$A = 1;") SIL
                           [] false None false []))) = []
  /\ App.outputCode (fst (App.runCommand asciiLowerCase (js "CLEAR")
                            (App.mkState (js "$A = 1;") (js "$A = 1;") SIL
                               [] false None false []))) = []
  /\ App.handleDownload (fst (App.runCommand asciiLowerCase (js "CLEAR")
                                (App.mkState (js "$A = 1;") (js "$A = 1;") SIL
                                   [] false None false [])))
     = (App.addLog (js "Error: No output code to download.")
          (fst (App.runCommand asciiLowerCase (js "CLEAR")
                  (App.mkState (js "$A = 1;") (js "$A = 1;") SIL
                     [] false None false []))), [])
  /\ App.handleSwap (fst (App.runCommand asciiLowerCase (js "CLEAR")
                            (App.mkState (js "$A = 1;") (js "$A = 1;") SIL
                               [] false None false [])))
     = App.addLog (js "Error: No output code available to swap.")
         (fst (App.runCommand asciiLowerCase (js "CLEAR")
                 (App.mkState (js "$A = 1;") (js "$A = 1;") SIL
                    [] false None false []))).
Proof.
  apply after_clear_nothing_to_save.
  - reflexivity.
  - eexists. split; reflexivity.
  - reflexivity.
Defined.

(** ** Trimming and splitting a line *)

Lemma trimStart_snoc (l : jsstring) (c : codeunit) :
  trimStart (l ++ [c])
  = match trimStart l with
    | [] => if isWhiteSpace c then [] else [c]
    | r => r ++ [c]
    end.
Proof.
  induction l as [|x l IH]; [reflexivity|].
  cbn [app trimStart]. destruct (isWhiteSpace x); [exact IH|reflexivity].
Qed.

(** [trimEnd] read from the front. *)
Lemma trimEnd_cons (c : codeunit) (s : jsstring) :
  trimEnd (c :: s)
  = match trimEnd s with
    | [] => if isWhiteSpace c then [] else [c]
    | r => c :: r
    end.
Proof.
  unfold trimEnd. cbn [rev]. rewrite trimStart_snoc.
  destruct (trimStart (rev s)) as [|y r] eqn:E.
  - cbn [rev]. now destruct (isWhiteSpace c).
  - rewrite rev_app_distr. cbn [rev app].
    destruct (rev r ++ [y]) eqn:E'; [|reflexivity].
    now destruct (rev r).
Qed.

Lemma trimEnd_nil : trimEnd [] = [].
Proof. reflexivity. Qed.

Lemma trimStart_fixed (s : jsstring) :
  match s with [] => True | c :: _ => isWhiteSpace c = false end ->
  trimStart s = s.
Proof. destruct s as [|c s]; [reflexivity|]. cbn. now intros ->. Qed.

Lemma trimStart_head (s : jsstring) :
  match trimStart s with [] => True | c :: _ => isWhiteSpace c = false end.
Proof.
  induction s as [|c s IH]; [exact I|]. cbn [trimStart].
  destruct (isWhiteSpace c) eqn:E; [exact IH|exact E].
Qed.

Lemma trim_commute (s : jsstring) :
  trimStart (trimEnd s) = trimEnd (trimStart s).
Proof.
  induction s as [|c s IH]; [reflexivity|].
  rewrite trimEnd_cons. cbn [trimStart].
  destruct (isWhiteSpace c) eqn:E.
  - rewrite <- IH. destruct (trimEnd s) as [|y r]; [reflexivity|].
    cbn [trimStart]. now rewrite E.
  - rewrite trimEnd_cons.
    destruct (trimEnd s) as [|y r]; rewrite ?E; cbn [trimStart]; now rewrite E.
Qed.

Lemma trimStart_idem (s : jsstring) : trimStart (trimStart s) = trimStart s.
Proof. apply trimStart_fixed, trimStart_head. Qed.

Lemma trimEnd_idem (s : jsstring) : trimEnd (trimEnd s) = trimEnd s.
Proof.
  unfold trimEnd. now rewrite rev_involutive, trimStart_idem.
Qed.

Lemma trim_idem (s : jsstring) : trim (trim s) = trim s.
Proof.
  unfold trim. now rewrite trim_commute, trimEnd_idem, trimStart_idem.
Qed.

(** X24. The terminal ignores a line that is blank after trimming; any
    other line is handed over trimmed and the input field is emptied.  The
    parser trims once more, which changes nothing: the line handed over is
    parsed as the line typed. *)
Theorem terminal_hands_over_trimmed_line (toLowerCase : jsstring -> jsstring)
  (input : jsstring) :
  (trim input = [] -> terminalEnter input = (input, None))
  /\ (trim input <> [] ->
      terminalEnter input = (js "", Some (trim input))
      /\ App.parseLine toLowerCase (trim input)
         = App.parseLine toLowerCase input).
Proof.
  unfold terminalEnter. split.
  - now intros ->.
  - intros H. split.
    + destruct (trim input); [congruence|reflexivity].
    + unfold App.parseLine. now rewrite trim_idem.
Qed.

Lemma terminal_hands_over_trimmed_line_witness :
  terminalEnter (js "  mode HIL ") = (js "", Some (trim (js "  mode HIL ")))
  /\ App.parseLine asciiLowerCase (trim (js "  mode HIL "))
     = App.parseLine asciiLowerCase (js "  mode HIL ").
Proof.
  apply (proj2 (terminal_hands_over_trimmed_line asciiLowerCase (js "  mode HIL "))).
  discriminate.
Defined.

Lemma trimEnd_app_nonws (a b : jsstring) :
  (forall c, In c a -> isWhiteSpace c = false) ->
  trimEnd (a ++ b) = a ++ trimEnd b.
Proof.
  induction a as [|x a IH]; intros H; [reflexivity|].
  cbn [app]. rewrite trimEnd_cons, IH by (intros c Hc; apply H; now right).
  destruct (a ++ trimEnd b) eqn:E; [|reflexivity].
  now rewrite (H x (or_introl eq_refl)).
Qed.

Lemma indexOf_absent (c : codeunit) (s : jsstring) :
  ~ In c s -> indexOf c s = (-1)%Z.
Proof.
  induction s as [|x s IH]; intros H; [reflexivity|]. cbn [indexOf].
  destruct (cu_eqb x c) eqn:E.
  - apply cu_eqb_eq in E. subst x. exfalso. apply H. now left.
  - rewrite IH by (intros Hin; apply H; now right). reflexivity.
Qed.

Lemma indexOf_first (c : codeunit) (a b : jsstring) :
  ~ In c a -> indexOf c (a ++ c :: b) = Z.of_nat (length a).
Proof.
  induction a as [|x a IH]; intros H.
  - cbn. now rewrite cu_eqb_refl.
  - cbn [app indexOf length].
    destruct (cu_eqb x c) eqn:E.
    + apply cu_eqb_eq in E. subst x. exfalso. apply H. now left.
    + rewrite IH by (intros Hin; apply H; now right).
      destruct (Z.ltb_spec (Z.of_nat (length a)) 0); lia.
Qed.

(** X25. A line is split at its first space: a command token free of white
    space, a space and a remainder parse to the token in lower case and the
    remainder trimmed; the token alone parses to itself with an empty
    argument. *)
Theorem line_splits_at_first_space (toLowerCase : jsstring -> jsstring)
  (cmd arg : jsstring) :
  cmd <> [] ->
  (forall c, In c cmd -> isWhiteSpace c = false) ->
  App.parseLine toLowerCase (cmd ++ 32%N :: arg) = (toLowerCase cmd, trim arg)
  /\ App.parseLine toLowerCase cmd = (toLowerCase cmd, js "").
Proof.
  intros Hne Hws.
  assert (Hsp : ~ In 32%N cmd).
  { intros Hin. specialize (Hws _ Hin). discriminate. }
  assert (Hstart : forall x, trimStart (cmd ++ x) = cmd ++ x).
  { intros x. apply trimStart_fixed. destruct cmd as [|c r]; [congruence|].
    cbn [app]. apply Hws. now left. }
  assert (Hcmd : trim cmd = cmd).
  { unfold trim. rewrite <- (app_nil_r cmd) at 1. rewrite Hstart, app_nil_r.
    rewrite <- (app_nil_r cmd) at 1.
    now rewrite trimEnd_app_nonws, trimEnd_nil, app_nil_r. }
  assert (T : trim (cmd ++ 32%N :: arg)
              = cmd ++ match trimEnd arg with [] => [] | r => 32%N :: r end).
  { unfold trim. rewrite Hstart, trimEnd_app_nonws by exact Hws.
    rewrite trimEnd_cons. now destruct (trimEnd arg). }
  assert (A : trim arg = trimStart (trimEnd arg))
    by (unfold trim; now rewrite trim_commute).
  split.
  - unfold App.parseLine. rewrite T, A.
    destruct (trimEnd arg) as [|y r] eqn:E.
    + rewrite app_nil_r, indexOf_absent by exact Hsp. reflexivity.
    + rewrite indexOf_first by exact Hsp.
      destruct (Z.eqb_spec (Z.of_nat (length cmd)) (-1)); [lia|].
      unfold substring, substringFrom.
      rewrite Z.sub_0_r, Nat2Z.id. cbn [Z.to_nat skipn].
      rewrite firstn_app, firstn_all, Nat.sub_diag. cbn [firstn].
      rewrite app_nil_r.
      replace (Z.to_nat (Z.of_nat (length cmd) + 1)) with (length cmd + 1) by lia.
      rewrite skipn_app, skipn_all2 by lia.
      replace (length cmd + 1 - length cmd) with 1 by lia.
      cbn [app skipn]. f_equal. rewrite <- E.
      unfold trim. now rewrite <- trim_commute, trimEnd_idem.
  - unfold App.parseLine. rewrite Hcmd.
    rewrite indexOf_absent by exact Hsp. reflexivity.
Qed.

Lemma line_splits_at_first_space_witness :
  App.parseLine asciiLowerCase (js "Upload" ++ 32%N :: js "  my map.json ")
  = (asciiLowerCase (js "Upload"), trim (js "  my map.json "))
  /\ App.parseLine asciiLowerCase (js "Upload")
     = (asciiLowerCase (js "Upload"), js "").
Proof.
  apply line_splits_at_first_space; [discriminate|].
  intros c Hc. cbn in Hc.
  repeat (destruct Hc as [<-|Hc]; [reflexivity|]). destruct Hc.
Defined.

(* ================================================================== *)
(** * When nothing is counted *)

Lemma occurs_match_found (p x : jsstring) :
  p <> [] -> occursIn p x -> JS.matchLoop (map JS.Lit p) x 0 <> [].
Proof.
  intros Hp (b & a & ->). induction b as [|c b IH].
  - cbn [app]. rewrite matchLoop_hit by exact Hp. discriminate.
  - cbn [app]. destruct (startsWith p (c :: b ++ p ++ a)) eqn:E.
    + apply startsWith_inv in E as [rest E]. rewrite E.
      rewrite matchLoop_hit by exact Hp. discriminate.
    + now rewrite matchLoop_miss by exact E.
Qed.

Lemma countLit_zero (p x : jsstring) :
  p <> [] -> (countLit p x = 0 <-> ~ occursIn p x).
Proof.
  intros Hp. unfold countLit. split.
  - intros H Ho. apply (occurs_match_found Hp) in Ho.
    destruct (JS.matchLoop (map JS.Lit p) x 0); [congruence|discriminate].
  - intros H. now rewrite absent_no_match.
Qed.

Lemma forEach_zero (mode : TestMode) (l : list SignalMapping)
  (x x' : jsstring) (n : Z) :
  forEach mode l (x, n) = Some (x', n) ->
  forall m, In m l -> isActive m = true -> ~ occursIn (sourceOf mode m) x.
Proof.
  revert x; induction l as [|a l IH]; intros x H m Hin Ha; [destruct Hin|].
  cbn [forEach] in H. rewrite applyMapping_active in H.
  pose proof (forEach_count mode l) as Mono.
  destruct (isActive a) eqn:Ea.
  - destruct (active_fields_nonempty mode a Ea) as [Hs _].
    pose proof (Mono _ _ H) as [Le _]. cbn [snd] in Le.
    assert (Z0 : countLit (sourceOf mode a) x = 0) by lia.
    assert (Hx : replaceLit (sourceOf mode a) (targetOf mode a) x = x).
    { unfold replaceLit, JS.replace. apply no_match_no_replace; [exact Hs|].
      unfold countLit in Z0.
      now destruct (JS.matchLoop (map JS.Lit (sourceOf mode a)) x 0). }
    rewrite Hx, Z0, Z.add_0_r in H.
    destruct Hin as [<-|Hin]; [now apply countLit_zero|].
    now apply (IH x H).
  - destruct Hin as [<-|Hin]; [congruence|]. now apply (IH x H).
Qed.

(** X26. The count is zero exactly when no rule applies: a transformation
    reports [changes = 0] if and only if the pattern of no active rule
    occurs in the source text. *)
Theorem zero_changes_iff_no_pattern (c : jsstring) (mode : TestMode)
  (mappings : list SignalMapping) (r : TransformationResult) :
  performLocalTransformation c mode mappings = Some r ->
  (changes r = 0%Z
   <-> forall m, In m mappings -> isActive m = true ->
                 ~ occursIn (sourceOf mode m) c).
Proof.
  intros T. split.
  - intros Z0 m Hin Ha.
    apply performLocalTransformation_forEach in T. rewrite Z0 in T.
    apply (forEach_zero _ _ T m); [|exact Ha].
    now apply in_sortedMappings.
  - intros H. rewrite transform_filters_then_sorts in T.
    unfold applyInOrder in T. rewrite forEach_absent in T.
    + now injection T as <-.
    + intros m Hm. apply in_sortedMappings, filter_In in Hm as [Hin Ha].
      now apply H.
Qed.

Lemma zero_changes_iff_no_pattern_witness :
  changes (mkResult (js "$Gear = 1;") 0) = 0%Z
  <-> forall m, In m [rule "1" "$EngineSpeed" "sysvar::Engine::Speed";
                      rule "9" "" "X"] ->
                isActive m = true ->
                ~ occursIn (sourceOf SIL m) (js "$Gear = 1;").
Proof.
  apply (@zero_changes_iff_no_pattern (js "$Gear = 1;") SIL
           [rule "1" "$EngineSpeed" "sysvar::Engine::Speed"; rule "9" "" "X"]).
  reflexivity.
Defined.
